(** * nb-logger: a leveled text logger with a synchronous and an asynchronous
    delivery mode (Go package [nblogger], file [logger.go]).

    The development embeds the Go code shallowly:
    - [int] is a 64-bit two's complement integer, a [Z] with its wrap-around
      written out ([wrap]);
    - [[]byte] and [string] are lists of 8-bit characters ([bytes]);
    - a function that can panic returns an [outcome];
    - [logging], [NewLogger] and [Close] perform their effects as a trace of
      [event]s, which a transition system of the caller goroutine, the
      channel and the [server] goroutine then executes. *)

From Stdlib Require Import ZArith Lia Bool Ascii String.
From stdpp Require Import base tactics option list.

Local Open Scope Z_scope.

(** ** Bytes and machine integers *)

Abbreviation bytes := (list ascii).

(** A Go string literal as its bytes. *)
Definition lit (s : string) : bytes := list_ascii_of_string s.

(** Go's [int] on a 64-bit target. *)
Definition int_min : Z := - 2 ^ 63.
Definition int_max : Z := 2 ^ 63 - 1.

Definition is_int (z : Z) : Prop := int_min <= z <= int_max.

(** Two's complement wrap-around of an arithmetic result. *)
Definition wrap (z : Z) : Z := (z + 2 ^ 63) mod 2 ^ 64 - 2 ^ 63.

(** The conversion [byte(x)] of an [int]: the low eight bits. *)
Definition byte_of_int (z : Z) : ascii := ascii_of_N (Z.to_N (z mod 256)).

(** ** Outcomes of code that can panic *)

Inductive outcome (A : Type) : Type :=
  | Ok (a : A)
  | Panic          (* run-time panic or fatal error: index or size out of range,
                      out of memory *)
  | OutOfFuel.     (* the model's loop budget ran out *)
Arguments Ok {A} a.
Arguments Panic {A}.
Arguments OutOfFuel {A}.

#[global] Instance outcome_ret : MRet outcome := fun A a => Ok a.
#[global] Instance outcome_bind : MBind outcome := fun A B f m =>
  match m with
  | Ok a => f a
  | Panic => Panic
  | OutOfFuel => OutOfFuel
  end.

(** ** The scratch array of [itoa] *)

(** [b[bp] = x] on a fixed-size array: an index outside the array panics. *)
Definition store (b : bytes) (bp : Z) (x : ascii) : outcome bytes :=
  if (0 <=? bp) && (bp <? Z.of_nat (length b))
  then Ok (<[Z.to_nat bp := x]> b)
  else Panic.

(** [b[bp:]]: a slice bound outside [0, len(b)] panics. *)
Definition slice_from (b : bytes) (bp : Z) : outcome bytes :=
  if (0 <=? bp) && (bp <=? Z.of_nat (length b))
  then Ok (drop (Z.to_nat bp) b)
  else Panic.

(** ** [itoa] *)

(** The loop [for i >= 10 || wid > 1 { ... }]; it returns the array, [bp]
    and [i] at loop exit. *)
Fixpoint itoa_loop (fuel : nat) (b : bytes) (bp i wid : Z)
  : outcome (bytes * Z * Z) :=
  if (i >=? 10) || (wid >? 1) then
    match fuel with
    | O => OutOfFuel
    | S fuel' =>
        let wid := wrap (wid - 1) in
        let q := Z.quot i 10 in
        b' ← store b bp (byte_of_int (wrap (wrap (48 + i) - wrap (q * 10))));
        itoa_loop fuel' b' (wrap (bp - 1)) q wid
    end
  else Ok (b, bp, i).

(** [var b [20]byte]. *)
Definition scratch : bytes := replicate 20 zero.

(** Every iteration fills one cell of the scratch array, so one more
    iteration than it has cells is budget enough ([itoa_loop_fuel]). *)
Definition itoa_fuel : nat := 21.

Definition itoa (buf : bytes) (i wid : Z) : outcome bytes :=
  '(b, bp, i) ← itoa_loop itoa_fuel scratch (Z.of_nat (length scratch) - 1) i wid;
  b ← store b bp (byte_of_int (wrap (48 + i)));
  tl ← slice_from b bp;
  mret (buf ++ tl).

(** ** Constants *)

Definition Trace : Z := 0.
Definition Debug : Z := 1.
Definition Info : Z := 2.
Definition Warn : Z := 3.
Definition Error : Z := 4.

Definition Ldate : Z := Z.shiftl 1 0.
Definition Ltime : Z := Z.shiftl 1 1.
Definition Lmicroseconds : Z := Z.shiftl 1 2.
Definition Llongfile : Z := Z.shiftl 1 3.
Definition Lshortfile : Z := Z.shiftl 1 4.
Definition LUTC : Z := Z.shiftl 1 5.
Definition Lblocking : Z := Z.shiftl 1 6.
Definition Lstdout : Z := Z.shiftl 1 7.
Definition LstdFlags : Z := Z.lor Ldate Ltime.

Definition write : Z := 0.
Definition exit : Z := 1.

(** [flags&mask != 0]. *)
Definition has (flags mask : Z) : bool := negb (Z.land flags mask =? 0).

(** [levelStringMap[level]]: a key that is not in the map reads as the
    empty string. *)
Definition levelStringMap (level : Z) : bytes :=
  match level with
  | 0 => lit "[TRACE] "
  | 1 => lit "[DEBUG] "
  | 2 => lit "[INFO]  "
  | 3 => lit "[WARN]  "
  | 4 => lit "[ERROR] "
  | _ => []
  end.

(** ** Data *)

Record logMessage : Type := LogMessage { cmd : Z; buf : bytes }.

(** A buffered channel of [logMessage]: the queued messages, oldest first,
    and the capacity given to [make]. *)
Record chan : Type := Chan { queue : list logMessage; capacity : Z }.

Record BasicLogger (W : Type) : Type := MkLogger {
  level : Z;
  flags : Z;
  writer : W;
  ch : chan;
  lock : bool;      (* sync.Mutex: held or not *)
  wg : Z            (* sync.WaitGroup: its counter *)
}.
Arguments MkLogger {W}.
Arguments level {W}.
Arguments flags {W}.
Arguments writer {W}.
Arguments ch {W}.
Arguments lock {W}.
Arguments wg {W}.

(** ** What the logger uses of its host: [io.Writer], [time.Time], [os] *)

Inductive error : Type := errors_New (msg : bytes).

(** [io.Writer]: [Write(p) (n, err)] on a sink of state [W]. *)
Class Writer (W : Type) : Type :=
  Write : W -> bytes -> W * (Z * option error).

(** The methods of [time.Time] that [formatHeader] calls. *)
Class TimeAPI (T : Type) : Type := {
  Date : T -> Z * Z * Z;        (* year, month, day *)
  Clock : T -> Z * Z * Z;       (* hour, minute, second *)
  Nanosecond : T -> Z;
  UTC : T -> T
}.

(** [os.OpenFile] for append (an error is [None]), [os.Stdout],
    [io.MultiWriter], and whether the runtime obtains so many bytes of
    memory for a channel. *)
Record Host (F W : Type) : Type := MkHost {
  os_OpenFile : bytes -> option F;
  os_Stdout : F;
  io_MultiWriter : list F -> W;
  runtime_alloc : Z -> bool
}.
Arguments MkHost {F W}.
Arguments os_OpenFile {F W}.
Arguments os_Stdout {F W}.
Arguments io_MultiWriter {F W}.
Arguments runtime_alloc {F W}.

(** What the environment answers during one leveled call. *)
Record Call (T : Type) : Type := MkCall {
  rendered : bytes;                 (* fmt.Sprintf(format, v...) *)
  now : T;                          (* time.Now() *)
  caller : option (bytes * Z)       (* runtime.Caller(2): file, line; None when !ok *)
}.
Arguments MkCall {T}.
Arguments rendered {T}.
Arguments now {T}.
Arguments caller {T}.

(** ** Effects *)

Inductive event : Type :=
  | EvOpenFile (path : bytes)   (* os.OpenFile(path, O_CREATE|O_WRONLY|O_APPEND, 0666) *)
  | EvPrintf                    (* fmt.Printf("err: %v", err) *)
  | EvGo                        (* go logger.server() *)
  | EvNow                       (* time.Now() *)
  | EvLock                      (* logger.lock.Lock() *)
  | EvUnlock                    (* logger.lock.Unlock() *)
  | EvCaller                    (* runtime.Caller(2) *)
  | EvSprintf                   (* fmt.Sprintf(format, v...) *)
  | EvSend (m : logMessage)     (* logger.ch <- m *)
  | EvWrite (p : bytes)         (* logger.writer.Write(p) *)
  | EvSetLevel (n : Z)          (* logger.level = n *)
  | EvWait                      (* logger.wg.Wait() *)
  | EvPanic.                    (* the goroutine panics *)

(** A computation: the effects it performed, in order, and how it ended. *)
Record Prog (A : Type) : Type := MkProg { trace : list event; result : outcome A }.
Arguments MkProg {A}.
Arguments trace {A}.
Arguments result {A}.

#[global] Instance prog_ret : MRet Prog := fun A a => MkProg [] (Ok a).
#[global] Instance prog_bind : MBind Prog := fun A B f m =>
  match result m with
  | Ok a => MkProg (trace m ++ trace (f a)) (result (f a))
  | Panic => MkProg (trace m) Panic
  | OutOfFuel => MkProg (trace m) OutOfFuel
  end.

Definition emit (e : event) : Prog unit := MkProg [e] (Ok tt).
Definition ask {A : Type} (e : event) (answer : A) : Prog A := MkProg [e] (Ok answer).
Definition lift {A : Type} (o : outcome A) : Prog A := MkProg [] o.

(** [defer]: the deferred call runs when the body returns and when it
    panics. *)
Definition defer {A : Type} (e : event) (body : Prog A) : Prog A :=
  MkProg (trace body ++ [e]) (result body).

(** ** [formatHeader] *)

(** The loop [for i := len(file) - 1; i > 0; i--] of the short-file branch,
    entered at index [i]; an index outside [file] panics. *)
Fixpoint shortfile_loop (file : bytes) (i : nat) : outcome bytes :=
  match i with
  | O => Ok file
  | S j =>
      match file !! i with
      | None => Panic
      | Some c =>
          if Ascii.eqb c "/" then slice_from file (Z.of_nat i + 1)
          else shortfile_loop file j
      end
  end.

Definition shortfile (file : bytes) : outcome bytes :=
  shortfile_loop file (Z.to_nat (Z.of_nat (length file) - 1)).

Section Formatter.
Context {W T : Type} `{TimeAPI T}.

Definition formatHeader (logger : BasicLogger W) (buf : bytes)
    (lv : Z) (t : T) (file : bytes) (line : Z) : outcome bytes :=
  let fl := flags logger in
  let buf := buf ++ levelStringMap lv in
  buf ←
    (if has fl (Z.lor Ldate (Z.lor Ltime Lmicroseconds)) then
       let t := if has fl LUTC then UTC t else t in
       buf ←
         (if has fl Ldate then
            let '(year, month, day) := Date t in
            buf ← itoa buf year 4;
            buf ← itoa (buf ++ ["/"%char]) month 2;
            buf ← itoa (buf ++ ["/"%char]) day 2;
            mret (buf ++ [" "%char])
          else mret buf);
       if has fl (Z.lor Ltime Lmicroseconds) then
         let '(hour, min, sec) := Clock t in
         buf ← itoa buf hour 2;
         buf ← itoa (buf ++ [":"%char]) min 2;
         buf ← itoa (buf ++ [":"%char]) sec 2;
         buf ←
           (if has fl Lmicroseconds then
              itoa (buf ++ ["."%char]) (Z.quot (Nanosecond t) 1000) 6
            else mret buf);
         mret (buf ++ [" "%char])
       else mret buf
     else mret buf);
  if has fl (Z.lor Lshortfile Llongfile) then
    file ← (if has fl Lshortfile then shortfile file else mret file);
    buf ← itoa (buf ++ file ++ [":"%char]) line (-1);
    mret (buf ++ lit ": ")
  else mret buf.

(** ** [logging] and the methods of [BasicLogger] *)

(** [len(s) == 0 || s[len(s)-1] != '\n']. *)
Definition lacks_newline (s : bytes) : bool :=
  match last s with
  | None => true
  | Some c => negb (Ascii.eqb c "010")
  end.

Definition logging (logger : BasicLogger W) (lv : Z) (c : Call T) : Prog unit :=
  if level logger >? lv then mret tt
  else
    t ← ask EvNow (now c);
    emit EvLock;;
    defer EvUnlock (
      '(file, line) ←
        (if has (flags logger) (Z.lor Lshortfile Llongfile) then
           emit EvUnlock;;
           r ← ask EvCaller (caller c);
           emit EvLock;;
           mret (match r with
                 | Some fl => fl
                 | None => (lit "unknown", 0)
                 end)
         else mret ([], 0));
      s ← ask EvSprintf (rendered c);
      buf ← lift (formatHeader logger [] lv t file line);
      let buf := buf ++ s in
      let buf := if lacks_newline s then buf ++ ["010"%char] else buf in
      if Z.land (flags logger) Lblocking =? 0
      then emit (EvSend (LogMessage write buf))
      else emit (EvWrite buf)).

Definition Close (logger : BasicLogger W) : Prog unit :=
  emit (EvSend (LogMessage exit []));;
  emit EvWait.

Definition SetLogLevel (logger : BasicLogger W) (n : Z) : Prog unit :=
  emit (EvSetLevel n).

Definition GetLogLevel (logger : BasicLogger W) : Z := level logger.

End Formatter.

(** The five leveled methods of the [Logger] interface. *)
Module Logger.
Section Methods.
Context {W T : Type} `{TimeAPI T}.
Definition Trace (logger : BasicLogger W) := logging logger Trace.
Definition Debug (logger : BasicLogger W) := logging logger Debug.
Definition Info (logger : BasicLogger W) := logging logger Info.
Definition Warn (logger : BasicLogger W) := logging logger Warn.
Definition Error (logger : BasicLogger W) := logging logger Error.
End Methods.
End Logger.

(** ** [NewLogger] *)

(** The size of a [logMessage] on a 64-bit target: an [int] and the three
    words of a slice. *)
Definition logMessage_size : Z := 32.

(** [runtime.maxAlloc] on a target with 48-bit heap addresses, and
    [runtime.hchanSize], the size of the header of a channel. *)
Definition maxAlloc : Z := 2 ^ 48.
Definition hchanSize : Z := 96.

(** [make(chan logMessage, bufferSize)], as [runtime.makechan] does it.  A
    negative size, and a size whose buffer of [logMessage_size * bufferSize]
    bytes overflows or goes beyond [maxAlloc - hchanSize], panics
    ("makechan: size out of range"); here the product is exact, so that one
    comparison covers the overflow.  A buffer within that range is asked of
    the allocator, and the process dies when the memory is not there. *)
Definition make_chan {F W : Type} (host : Host F W) (bufferSize : Z) : outcome chan :=
  let mem := logMessage_size * bufferSize in
  if (bufferSize <? 0) || (maxAlloc - hchanSize <? mem) then Panic
  else if runtime_alloc host (hchanSize + mem) then Ok (Chan [] bufferSize)
  else Panic.

Definition wg_Add {W : Type} (logger : BasicLogger W) (n : Z) : BasicLogger W :=
  MkLogger (level logger) (flags logger) (writer logger) (ch logger)
           (lock logger) (wrap (wg logger + n)).

Definition NewLogger {F W : Type} (host : Host F W)
    (path : bytes) (level bufferSize flags : Z)
  : Prog (option (BasicLogger W) * option error) :=
  logFile ← ask (EvOpenFile path) (os_OpenFile host path);
  match logFile with
  | None =>
      emit EvPrintf;;
      mret (None, Some (errors_New (lit "file creation fail")))
  | Some logFile =>
      let writer :=
        if negb (Z.land flags Lstdout =? 0)
        then io_MultiWriter host [logFile; os_Stdout host]
        else io_MultiWriter host [logFile] in
      c ← lift (make_chan host bufferSize);
      let logger := MkLogger level flags writer c false 0 in
      logger ←
        (if Z.land flags Lblocking =? 0
         then let logger := wg_Add logger 1 in emit EvGo;; mret logger
         else mret logger);
      mret (Some logger, None)
  end.

(** ** The caller goroutine, the channel and the [server] goroutine *)

(** Where the [server] goroutine stands: at the receive [<-logger.ch], with
    a received command in hand, or past the loop (after [wg.Done()]). *)
Inductive wstate : Type :=
  | WIdle
  | WHold (m : logMessage)
  | WDone.

(** A call of the [Logger] interface by the caller goroutine. *)
Inductive call (T : Type) : Type :=
  | CLeveled (lv : Z) (c : Call T)
  | CSetLogLevel (n : Z)
  | CClose.
Arguments CLeveled {T}.
Arguments CSetLogLevel {T}.
Arguments CClose {T}.

Record System (W T : Type) : Type := MkSystem {
  logger : BasicLogger W;
  worker : option wstate;      (* the server goroutine; none was started in sync mode *)
  pending : list event;        (* the caller: effects left of the call in progress *)
  todo : list (call T);        (* the caller: calls still to issue *)
  handled : list logMessage;   (* history: the commands the server processed *)
  closed : bool;               (* history: a [wg.Wait()] of [Close] has returned *)
  crashed : bool               (* the process died of a panic or fatal error *)
}.
Arguments MkSystem {W T}.
Arguments logger {W T}.
Arguments worker {W T}.
Arguments pending {W T}.
Arguments todo {W T}.
Arguments handled {W T}.
Arguments closed {W T}.
Arguments crashed {W T}.

Inductive actor : Type := CallerG | ServerG.

Section Machine.
Context {W T : Type} `{Writer W} `{TimeAPI T}.

Definition set_logger (s : System W T) (l : BasicLogger W) : System W T :=
  MkSystem l (worker s) (pending s) (todo s) (handled s) (closed s) (crashed s).
Definition set_worker (s : System W T) (w : option wstate) : System W T :=
  MkSystem (logger s) w (pending s) (todo s) (handled s) (closed s) (crashed s).
Definition set_pending (s : System W T) (p : list event) : System W T :=
  MkSystem (logger s) (worker s) p (todo s) (handled s) (closed s) (crashed s).
Definition set_todo (s : System W T) (cs : list (call T)) : System W T :=
  MkSystem (logger s) (worker s) (pending s) cs (handled s) (closed s) (crashed s).
Definition set_handled (s : System W T) (h : list logMessage) : System W T :=
  MkSystem (logger s) (worker s) (pending s) (todo s) h (closed s) (crashed s).
Definition set_closed (s : System W T) : System W T :=
  MkSystem (logger s) (worker s) (pending s) (todo s) (handled s) true (crashed s).
Definition set_crashed (s : System W T) : System W T :=
  MkSystem (logger s) (worker s) (pending s) (todo s) (handled s) (closed s) true.

Definition set_level (l : BasicLogger W) (n : Z) : BasicLogger W :=
  MkLogger n (flags l) (writer l) (ch l) (lock l) (wg l).
Definition set_writer (l : BasicLogger W) (w : W) : BasicLogger W :=
  MkLogger (level l) (flags l) w (ch l) (lock l) (wg l).
Definition set_queue (l : BasicLogger W) (q : list logMessage) : BasicLogger W :=
  MkLogger (level l) (flags l) (writer l) (Chan q (capacity (ch l))) (lock l) (wg l).
Definition set_lock (l : BasicLogger W) (b : bool) : BasicLogger W :=
  MkLogger (level l) (flags l) (writer l) (ch l) b (wg l).

(** [logger.writer.Write(p)] with its result dropped. *)
Definition write_sink (l : BasicLogger W) (p : bytes) : BasicLogger W :=
  set_writer l (fst (Write (writer l) p)).

(** One effect of the caller on the system; [None] while it blocks.  A
    send completes when the buffer has room, or, on a channel whose
    buffer is full and empty (capacity zero), when the server stands at
    its receive and takes the message directly. *)
Definition exec_event (e : event) (s : System W T) : option (System W T) :=
  let l := logger s in
  match e with
  | EvLock =>
      if lock l then None else Some (set_logger s (set_lock l true))
  | EvUnlock =>
      if lock l then Some (set_logger s (set_lock l false))
      else Some (set_crashed s)          (* fatal: unlock of unlocked mutex *)
  | EvSend m =>
      if Z.of_nat (length (queue (ch l))) <? capacity (ch l)
      then Some (set_logger s (set_queue l (queue (ch l) ++ [m])))
      else
        match queue (ch l), worker s with
        | [], Some WIdle => Some (set_worker s (Some (WHold m)))
        | _, _ => None
        end
  | EvWrite p => Some (set_logger s (write_sink l p))
  | EvSetLevel n => Some (set_logger s (set_level l n))
  | EvWait => if wg l =? 0 then Some (set_closed s) else None
  | EvPanic => Some (set_crashed s)
  | EvOpenFile _ | EvPrintf | EvGo | EvNow | EvCaller | EvSprintf => Some s
  end.

(** The effects of one call, read off the method's code; a call that
    panics ends with [EvPanic]. *)
Definition call_events (l : BasicLogger W) (c : call T) : list event :=
  let p := match c with
           | CLeveled lv c => logging l lv c
           | CSetLogLevel n => SetLogLevel l n
           | CClose => Close l
           end in
  match result p with
  | Ok _ => trace p
  | _ => trace p ++ [EvPanic]
  end.

(** The caller goroutine: the next effect of the call in progress, or the
    entry into the next call. *)
Definition caller_step (s : System W T) : option (System W T) :=
  match pending s with
  | e :: p => s' ← exec_event e s; Some (set_pending s' p)
  | [] =>
      match todo s with
      | c :: cs => Some (set_todo (set_pending s (call_events (logger s) c)) cs)
      | [] => None
      end
  end.

(** [server]: the receive [message, ok := <-logger.ch] ([ok] is false only
    on a closed channel, and nothing closes [logger.ch]), then the write
    or the [break] followed by the deferred [wg.Done()]. *)
Definition server (s : System W T) : option (System W T) :=
  let l := logger s in
  match worker s with
  | Some WIdle =>
      match queue (ch l) with
      | m :: q => Some (set_worker (set_logger s (set_queue l q)) (Some (WHold m)))
      | [] => None
      end
  | Some (WHold m) =>
      let s := set_handled s (handled s ++ [m]) in
      if cmd m =? write
      then Some (set_worker (set_logger s (write_sink l (buf m))) (Some WIdle))
      else
        let s := set_worker s (Some WDone) in
        if wg l <=? 0 then Some (set_crashed s)   (* negative WaitGroup counter *)
        else Some (set_logger s (MkLogger (level l) (flags l) (writer l) (ch l)
                                          (lock l) (wg l - 1)))
  | Some WDone | None => None
  end.

Definition step (a : actor) (s : System W T) : option (System W T) :=
  if crashed s then None
  else match a with
       | CallerG => caller_step s
       | ServerG => server s
       end.

(** Running a schedule; an actor that cannot move is skipped. *)
Fixpoint run (sched : list actor) (s : System W T) : System W T :=
  match sched with
  | [] => s
  | a :: sched => run sched (default s (step a s))
  end.

Definition moves (s s' : System W T) : Prop := ∃ a, step a s = Some s'.

Inductive reachable (s0 : System W T) : System W T -> Prop :=
  | reach_here : reachable s0 s0
  | reach_step s s' : reachable s0 s -> moves s s' -> reachable s0 s'.

(** [inevitably P s]: every execution from [s] reaches a state satisfying
    [P] after finitely many moves, and is never stuck before. *)
Inductive inevitably (P : System W T -> Prop) : System W T -> Prop :=
  | inev_now s : P s -> inevitably P s
  | inev_later s :
      (∃ s', moves s s') ->
      (∀ s', moves s s' -> inevitably P s') ->
      inevitably P s.

(** Whether a trace contains [go logger.server()]. *)
Definition spawned (tr : list event) : bool :=
  existsb (fun e => match e with EvGo => true | _ => false end) tr.

(** The system right after [NewLogger] returned [logger], with the calls
    the caller is going to issue; the server goroutine exists if
    [NewLogger] started it. *)
Definition boot (p : Prog (option (BasicLogger W) * option error))
    (calls : list (call T)) : option (System W T) :=
  match result p with
  | Ok (Some l, None) =>
      let w := if spawned (trace p) then Some WIdle else None in
      Some (MkSystem l w [] calls [] false false)
  | _ => None
  end.

End Machine.

(** ** A concrete host, used to run the model on examples *)

Module Sample.

(** A calendar reading of a clock. *)
Record Civil : Type := MkCivil {
  c_year : Z; c_month : Z; c_day : Z;
  c_hour : Z; c_min : Z; c_sec : Z; c_nsec : Z
}.

(** An instant with its reading in its own location and in UTC. *)
Record Stamp : Type := MkStamp { wall : Civil; zulu : Civil }.

#[global] Instance stamp_time : TimeAPI Stamp := {|
  Date t := (c_year (wall t), c_month (wall t), c_day (wall t));
  Clock t := (c_hour (wall t), c_min (wall t), c_sec (wall t));
  Nanosecond t := c_nsec (wall t);
  UTC t := MkStamp (zulu t) (zulu t)
|}.

(** A sink that records the buffers written to it, oldest first. *)
Definition Tape : Type := list bytes.
#[global] Instance tape_writer : Writer Tape :=
  fun w p => (w ++ [p], (Z.of_nat (length p), None)).

(** A sink on which every write fails. *)
Inductive Broken : Type := broken.
#[global] Instance broken_writer : Writer Broken :=
  fun w p => (w, (0, Some (errors_New (lit "no space left on device")))).

(** A file system in which exactly the paths under [/var/log/] open. *)
Definition opens (path : bytes) : option bytes :=
  if String.eqb (string_of_list_ascii (take 9 path)) "/var/log/"
  then Some path else None.

(** A machine that has a mebibyte left for the buffer of a channel. *)
Definition grants (size : Z) : bool := size <=? 2 ^ 20.

Definition host : Host bytes Tape :=
  MkHost opens (lit "/dev/stdout") (fun _ => []) grants.
Definition broken_host : Host bytes Broken :=
  MkHost opens (lit "/dev/stdout") (fun _ => broken) grants.

Definition ts : Stamp :=
  MkStamp (MkCivil 2024 1 2 3 4 5 6789) (MkCivil 2024 1 1 18 4 5 6789).

(** The same instant read in the year 10000. *)
Definition far_ts : Stamp :=
  MkStamp (MkCivil 10000 1 2 3 4 5 6789) (MkCivil 10000 1 1 18 4 5 6789).

(** A call whose message renders as [s]. *)
Definition utter (s : bytes) : Call Stamp :=
  MkCall s ts (Some (lit "/home/dev/app/main.go", 42)).
Definition say (s : string) : Call Stamp := utter (lit s).

Definition items : list (Z * Call Stamp) :=
  [(Info, say "listening on :8080"); (Warn, say "slow request");
   (Error, say "connection reset")].

(** A logger at threshold [Info] as [NewLogger] builds it. *)
Definition logger_with (flags bufferSize : Z) : BasicLogger Tape :=
  MkLogger Info flags [] (Chan [] bufferSize) false
           (if Z.land flags Lblocking =? 0 then 1 else 0).

(** A reading outside the calendar: a negative year, a month of zero. *)
Definition odd_ts : Stamp :=
  MkStamp (MkCivil (-44) 0 15 25 61 5 (-1)) (MkCivil (-44) 0 15 25 61 5 (-1)).

(** A call for which [runtime.Caller] fails. *)
Definition lost (s : string) : Call Stamp := MkCall (lit s) ts None.

(** Calls made after the first [Close]. *)
Definition late : list (call Stamp) :=
  [CLeveled Error (say "late"); CLeveled Debug (say "unseen"); CClose;
   CLeveled Warn (say "later"); CClose].

(** The system that [NewLogger] leaves in asynchronous mode. *)
Definition started (flags bufferSize : Z) (calls : list (call Stamp))
  : System Tape Stamp :=
  MkSystem (logger_with flags bufferSize) (Some WIdle) [] calls [] false false.

End Sample.

(** ** Reference definitions, written from the specification *)

(** The character of the decimal digit [d]. *)
Definition digit (d : Z) : ascii := ascii_of_N (Z.to_N (48 + d)).

Definition is_digit (c : ascii) : bool :=
  (48 <=? Z.of_N (N_of_ascii c)) && (Z.of_N (N_of_ascii c) <=? 57).

(** The number that a string of digits denotes. *)
Definition value (s : bytes) : Z :=
  fold_left (fun acc c => 10 * acc + (Z.of_N (N_of_ascii c) - 48)) s 0.

(** The decimal representation of [n >= 0], most significant digit first. *)
Fixpoint decimal_fuel (fuel : nat) (n : Z) : bytes :=
  match fuel with
  | O => []
  | S fuel' =>
      if n <? 10 then [digit n]
      else decimal_fuel fuel' (n / 10) ++ [digit (n mod 10)]
  end.

Definition decimal (n : Z) : bytes := decimal_fuel (S (Z.to_nat (Z.log2 n))) n.

(** The number of decimal digits of [n]. *)
Definition ndigits (n : Z) : Z := Z.of_nat (length (decimal n)).

(** [n] in decimal, left-padded with ['0'] to width [wid]. *)
Definition zero_padded (wid n : Z) : bytes :=
  replicate (Z.to_nat (wid - ndigits n)) "0"%char ++ decimal n.

(** The suffix of a path after its last ['/']; the path itself when it has
    none. *)
Definition has_slash (s : bytes) : bool := existsb (fun c => Ascii.eqb c "/") s.

Fixpoint basename (file : bytes) : bytes :=
  match file with
  | [] => []
  | c :: rest =>
      if has_slash rest then basename rest
      else if Ascii.eqb c "/" then rest
      else file
  end.

(** The number of newline characters that end a line. *)
Fixpoint leading_newlines (s : bytes) : nat :=
  match s with
  | c :: s' => if Ascii.eqb c "010" then S (leading_newlines s') else O
  | [] => O
  end.

Definition trailing_newlines (s : bytes) : nat := leading_newlines (rev s).

(** [matches layout s]: [s] has the shape of [layout], where a letter of the
    layout stands for one decimal digit and every other character for
    itself. *)
Definition is_letter (c : ascii) : bool :=
  let n := Z.of_N (N_of_ascii c) in
  ((65 <=? n) && (n <=? 90)) || ((97 <=? n) && (n <=? 122)).

Fixpoint matches (layout s : bytes) : bool :=
  match layout, s with
  | [], [] => true
  | p :: layout', c :: s' =>
      (if is_letter p then is_digit c else Ascii.eqb p c) && matches layout' s'
  | _, _ => false
  end.

(** The level gate of the specification. *)
Definition shouldLog (instanceThreshold callLevel : Z) : bool :=
  instanceThreshold <=? callLevel.

Section Header.
Context {T : Type} `{TimeAPI T}.

(** A reading of the clock within the calendar, with a year that fits an
    [int]. *)
Definition calendar (t : T) : Prop :=
  let '(year, month, day) := Date t in
  let '(hour, min, sec) := Clock t in
  0 <= year <= int_max ∧ 1 <= month <= 12 ∧ 1 <= day <= 31 ∧
  0 <= hour <= 23 ∧ 0 <= min <= 59 ∧ 0 <= sec <= 59 ∧
  0 <= Nanosecond t <= 999999999.

(** The environment of a call answers with a timestamp inside the
    calendar, also once converted to UTC, and a line number that is not
    negative. *)
Definition wf_call (c : Call T) : Prop :=
  calendar (now c) ∧ calendar (UTC (now c)) ∧
  ∀ file line, caller c = Some (file, line) -> 0 <= line <= int_max.

Definition date_field (t : T) : bytes :=
  let '(year, month, day) := Date t in
  zero_padded 4 year ++ lit "/" ++ zero_padded 2 month ++ lit "/" ++ zero_padded 2 day.

Definition clock_field (t : T) : bytes :=
  let '(hour, min, sec) := Clock t in
  zero_padded 2 hour ++ lit ":" ++ zero_padded 2 min ++ lit ":" ++ zero_padded 2 sec.

Definition micro_field (t : T) : bytes := zero_padded 6 (Nanosecond t / 1000).

(** The timestamp that is formatted. *)
Definition shown (fl : Z) (t : T) : T := if has fl LUTC then UTC t else t.

(** The date and time part of the header as [formatHeader] builds it. *)
Definition datetime_part (fl : Z) (t : T) : bytes :=
  (if has fl Ldate then date_field (shown fl t) ++ lit " " else []) ++
  (if has fl Ltime || has fl Lmicroseconds
   then clock_field (shown fl t) ++
        (if has fl Lmicroseconds then lit "." ++ micro_field (shown fl t) else []) ++
        lit " "
   else []).

(** The date and time part as the specification words it: the time field
    under the time flag alone. *)
Definition datetime_part_spec (fl : Z) (t : T) : bytes :=
  (if has fl Ldate then date_field (shown fl t) ++ lit " " else []) ++
  (if has fl Ltime
   then clock_field (shown fl t) ++
        (if has fl Lmicroseconds then lit "." ++ micro_field (shown fl t) else []) ++
        lit " "
   else []).

(** The path that the short-file flag leaves of [file]: the base name
    when a ['/'] stands after the first character. *)
Definition short_name (file : bytes) : bytes :=
  if has_slash (tail file) then basename file else file.

(** The call-site part of the header as [formatHeader] builds it. *)
Definition callsite_part (fl : Z) (file : bytes) (line : Z) : bytes :=
  if has fl Lshortfile || has fl Llongfile
  then (if has fl Lshortfile then short_name file else file)
       ++ lit ":" ++ decimal line ++ lit ": "
  else [].

(** The call-site part as the specification words it. *)
Definition callsite_part_spec (fl : Z) (file : bytes) (line : Z) : bytes :=
  if has fl Lshortfile || has fl Llongfile
  then (if has fl Lshortfile then basename file else file)
       ++ lit ":" ++ decimal line ++ lit ": "
  else [].

Definition header (fl lv : Z) (t : T) (file : bytes) (line : Z) : bytes :=
  levelStringMap lv ++ datetime_part fl t ++ callsite_part fl file line.

(** The call site that [logging] passes to [formatHeader]. *)
Definition callsite_of (fl : Z) (c : Call T) : bytes * Z :=
  if has fl (Z.lor Lshortfile Llongfile)
  then match caller c with
       | Some site => site
       | None => (lit "unknown", 0)
       end
  else ([], 0).

(** The line of an admitted call. *)
Definition line_of (fl lv : Z) (c : Call T) : bytes :=
  header fl lv (now c) (fst (callsite_of fl c)) (snd (callsite_of fl c))
  ++ rendered c ++ (if lacks_newline (rendered c) then ["010"%char] else []).

End Header.

(** ** Records in a trace *)

(** The record that an effect hands to the channel or to the sink. *)
Definition record_of (e : event) : option bytes :=
  match e with
  | EvSend m => if cmd m =? write then Some (buf m) else None
  | EvWrite p => Some p
  | _ => None
  end.

Definition emitted (tr : list event) : list bytes := omap record_of tr.

(** The effects of an admitted call that delivers [line]. *)
Definition admitted_trace (fl : Z) (line : bytes) : list event :=
  [EvNow; EvLock]
  ++ (if has fl (Z.lor Lshortfile Llongfile) then [EvUnlock; EvCaller; EvLock] else [])
  ++ [EvSprintf;
      if Z.land fl Lblocking =? 0 then EvSend (LogMessage write line) else EvWrite line;
      EvUnlock].

(** A part of the header is empty or ends with a space. *)
Definition spaced (h : bytes) : Prop := h = [] ∨ ∃ x, h = x ++ [" "%char].

(** ** What the caller sends and what the server has done *)

Definition exit_command : logMessage := LogMessage exit [].

Definition is_write (m : logMessage) : bool := cmd m =? write.

(** The commands that a run of effects sends on the channel. *)
Definition sends (evs : list event) : list logMessage :=
  omap (fun e => match e with EvSend m => Some m | _ => None end) evs.

(** The threshold once the effects [evs] have run. *)
Definition level_after (evs : list event) (lvl : Z) : Z :=
  fold_left (fun lvl e => match e with EvSetLevel n => n | _ => lvl end) evs lvl.

(** The command in the hands of the server. *)
Definition held (w : option wstate) : list logMessage :=
  match w with
  | Some (WHold m) => [m]
  | _ => []
  end.

(** No write to the sink and no panic among the effects; [calm] also
    excludes the wait of [Close]. *)
Definition quiet (evs : list event) : bool :=
  forallb (fun e => match e with EvWrite _ | EvPanic => false | _ => true end) evs.

Definition calm (evs : list event) : bool :=
  forallb (fun e => match e with EvWrite _ | EvPanic | EvWait => false | _ => true end) evs.

(** The mutex effects of [evs] alternate, starting from a mutex that is
    held or not and ending with it released. *)
Fixpoint lock_ok (is_held : bool) (evs : list event) : bool :=
  match evs with
  | [] => negb is_held
  | EvLock :: evs => negb is_held && lock_ok true evs
  | EvUnlock :: evs => is_held && lock_ok false evs
  | _ :: evs => lock_ok is_held evs
  end.

Section Delivery.
Context {W T : Type} `{Writer W} `{TimeAPI T}.

(** The sink after the buffers [ps] were written to it in order. *)
Definition writes (w : W) (ps : list bytes) : W :=
  fold_left (fun w p => fst (Write w p)) ps w.

(** The records among commands. *)
Definition records (ms : list logMessage) : list bytes :=
  flat_map (fun m => if is_write m then [buf m] else []) ms.

(** The commands that the calls [cs], issued in order by one caller, send
    in asynchronous mode, from the threshold [lvl]. *)
Fixpoint script (lvl fl : Z) (cs : list (call T)) : list logMessage :=
  match cs with
  | [] => []
  | CLeveled lv c :: cs =>
      (if lvl >? lv then [] else [LogMessage write (line_of fl lv c)])
      ++ script lvl fl cs
  | CSetLogLevel n :: cs => script n fl cs
  | CClose :: cs => exit_command :: script lvl fl cs
  end.

(** A call with a well-formed environment; [plain] also excludes
    [Close]. *)
Definition wf_item (c : call T) : Prop :=
  match c with
  | CLeveled _ c => wf_call c
  | _ => True
  end.

Definition plain (c : call T) : Prop :=
  match c with
  | CLeveled _ c => wf_call c
  | CSetLogLevel _ => True
  | CClose => False
  end.

(** A bound on the moves that are left. *)
Definition measure (s : System W T) : nat :=
  30 * length (todo s) + 3 * length (pending s)
  + 2 * length (queue (ch (logger s)))
  + match worker s with Some (WHold _) => 1 | _ => 0 end.

(** *** The invariant of asynchronous delivery.

    [B] are the write commands of the calls before [Close]; with
    [closing], the caller then calls [Close] and goes on with [after]. *)
Section Invariant.
Variables (w0 : W) (fl cap : Z) (B : list logMessage).
Variables (closing : bool) (after : list (call T)).

Definition and_then : list (call T) := if closing then CClose :: after else [].

Definition common (s : System W T) : Prop :=
  crashed s = false ∧
  flags (logger s) = fl ∧
  capacity (ch (logger s)) = cap ∧
  writer (logger s) = writes w0 (records (handled s)) ∧
  lock_ok (lock (logger s)) (pending s) = true ∧
  match worker s with
  | Some WDone => wg (logger s) = 0 ∧ handled s = B ++ [exit_command]
  | Some _ => wg (logger s) = 1 ∧ forallb is_write (handled s) = true
  | None => False
  end.

Inductive phase (s : System W T) : Prop :=
  | ph_open (tb : list (call T)) :
      closed s = false ->
      todo s = tb ++ and_then ->
      Forall plain tb ->
      calm (pending s) = true ->
      handled s ++ held (worker s) ++ queue (ch (logger s)) ++ sends (pending s)
      ++ script (level_after (pending s) (level (logger s))) fl tb = B ->
      phase s
  | ph_send :
      closed s = false -> closing = true ->
      todo s = after ->
      pending s = [EvSend exit_command; EvWait] ->
      handled s ++ held (worker s) ++ queue (ch (logger s)) = B ->
      phase s
  | ph_wait :
      closed s = false -> closing = true ->
      todo s = after ->
      pending s = [EvWait] ->
      handled s ++ held (worker s) ++ queue (ch (logger s)) = B ++ [exit_command] ->
      phase s
  | ph_closed :
      closed s = true -> closing = true ->
      worker s = Some WDone ->
      quiet (pending s) = true ->
      Forall wf_item (todo s) ->
      phase s.

Definition Inv (s : System W T) : Prop := common s ∧ phase s.

End Invariant.

End Delivery.

(** The leveled calls of a caller and their lines. *)
Definition leveled {T : Type} (items : list (Z * Call T)) : list (call T) :=
  map (fun it => CLeveled (fst it) (snd it)) items.

Definition lines_of {T : Type} `{TimeAPI T} (fl : Z) (items : list (Z * Call T))
  : list bytes :=
  map (fun it => line_of fl (fst it) (snd it)) items.

(** The number of attempts to open the destination in a trace. *)
Definition open_attempts (tr : list event) : nat :=
  length (List.filter (fun e => match e with EvOpenFile _ => true | _ => false end) tr).

(** ** Environments typed as Go types them *)

Section IntTyped.
Context {T : Type} `{TimeAPI T}.

(** The readings of a timestamp are [int]s, whatever their values. *)
Definition int_stamp (t : T) : Prop :=
  let '(year, month, day) := Date t in
  let '(hour, min, sec) := Clock t in
  is_int year ∧ is_int month ∧ is_int day ∧
  is_int hour ∧ is_int min ∧ is_int sec ∧ is_int (Nanosecond t).

(** The environment of a call answers with values of the Go types. *)
Definition int_call (c : Call T) : Prop :=
  int_stamp (now c) ∧ int_stamp (UTC (now c)) ∧
  ∀ file line, caller c = Some (file, line) -> is_int line.

End IntTyped.

(** The number of newline characters in a line. *)
Definition newlines (s : bytes) : nat :=
  length (List.filter (fun c => Ascii.eqb c "010") s).

(** ** Synchronous delivery *)

(** The buffers that a run of effects writes to the sink. *)
Definition wrs (evs : list event) : list bytes :=
  omap (fun e => match e with EvWrite p => Some p | _ => None end) evs.

(** No send, no panic and no wait among the effects. *)
Definition still (evs : list event) : bool :=
  forallb (fun e => match e with EvSend _ | EvPanic | EvWait => false | _ => true end) evs.

Section SyncDelivery.
Context {W T : Type} `{Writer W} `{TimeAPI T}.

(** The lines that the calls [cs], issued in order by one caller, write in
    synchronous mode, from the threshold [lvl]. *)
Fixpoint sync_lines (lvl fl : Z) (cs : list (call T)) : list bytes :=
  match cs with
  | [] => []
  | CLeveled lv c :: cs =>
      (if lvl >? lv then [] else [line_of fl lv c]) ++ sync_lines lvl fl cs
  | CSetLogLevel n :: cs => sync_lines n fl cs
  | CClose :: cs => sync_lines lvl fl cs
  end.

(** The invariant of synchronous delivery of the lines [L]. *)
Definition InvS (w0 : W) (fl : Z) (L : list bytes) (s : System W T) : Prop :=
  crashed s = false ∧ flags (logger s) = fl ∧ worker s = None ∧
  queue (ch (logger s)) = [] ∧ handled s = [] ∧
  lock_ok (lock (logger s)) (pending s) = true ∧
  still (pending s) = true ∧
  Forall plain (todo s) ∧
  ∃ done, writer (logger s) = writes w0 done ∧
          done ++ wrs (pending s)
          ++ sync_lines (level_after (pending s) (level (logger s))) fl (todo s) = L.


End SyncDelivery.

(** ** [minMaxAvg] of the test file, at [T = int64] *)

(** One round of [for _, value := range array]. *)
Definition minMaxAvg_step (acc : Z * Z * Z) (value : Z) : Z * Z * Z :=
  let '(max, min, avg) := acc in
  (if max <? value then value else max,
   if min >? value then value else min,
   wrap (avg + value)).

(** [array[0]] panics on an empty slice; [len(array)] fits the type. *)
Definition minMaxAvg (array : list Z) : outcome (Z * Z * Z) :=
  match array with
  | [] => Panic
  | first :: _ =>
      let '(max, min, avg) := fold_left minMaxAvg_step array (first, first, 0) in
      Ok (min, max, Z.quot avg (Z.of_nat (length array)))
  end.

(** The sum of a slice, without wrap-around. *)
Definition total (array : list Z) : Z := fold_right Z.add 0 array.

(** ** Calls that no goroutine receives *)

Section NoReceiver.
Context {W T : Type} `{Writer W} `{TimeAPI T}.

(** The threshold after a call, and after the calls [cs]. *)
Definition next_level (lvl : Z) (c : call T) : Z :=
  match c with
  | CSetLogLevel n => n
  | _ => lvl
  end.

Definition threshold (lvl : Z) (cs : list (call T)) : Z := fold_left next_level cs lvl.

(** The command that a call sends on the channel: an admitted leveled
    call its line, in asynchronous mode; [Close] the terminate command, in
    either mode. *)
Definition sent (lvl fl : Z) (c : call T) : list logMessage :=
  match c with
  | CLeveled lv c =>
      if (lvl >? lv) || negb (Z.land fl Lblocking =? 0) then []
      else [LogMessage write (line_of fl lv c)]
  | CSetLogLevel _ => []
  | CClose => [exit_command]
  end.

Fixpoint outbox (lvl fl : Z) (cs : list (call T)) : list logMessage :=
  match cs with
  | [] => []
  | c :: cs => sent lvl fl c ++ outbox (next_level lvl c) fl cs
  end.

(** The lines that the calls write to the sink themselves: their lines in
    synchronous mode, none in asynchronous mode. *)
Definition inline (lvl fl : Z) (cs : list (call T)) : list bytes :=
  if Z.land fl Lblocking =? 0 then [] else sync_lines lvl fl cs.

(** The calls that return while nothing is received from the channel and
    its buffer has [room] free cells: the calls before the first one that
    has a command to send and finds no room. *)
Fixpoint returning (room : nat) (lvl fl : Z) (cs : list (call T)) : list (call T) :=
  match cs with
  | [] => []
  | c :: cs' =>
      match sent lvl fl c, room with
      | [], _ => c :: returning room (next_level lvl c) fl cs'
      | _ :: _, S room' => c :: returning room' (next_level lvl c) fl cs'
      | _ :: _, O => []
      end
  end.

(** Where the calls [cs] end when nothing is received from the channel,
    which holds [q] and has [room] free cells, and the sink is [w]: no
    goroutine can move; the calls that returned have left their commands
    in the channel and their lines in the sink; the caller has returned
    from every call, or it stands in the send of the first call that did
    not return. *)
Definition ends_in (w : W) (q : list logMessage) (lvl fl : Z) (room : nat)
    (cs : list (call T)) (s : System W T) : Prop :=
  (∀ sched, run sched s = s) ∧
  queue (ch (logger s)) = q ++ outbox lvl fl (returning room lvl fl cs) ∧
  writer (logger s) = writes w (inline lvl fl (returning room lvl fl cs)) ∧
  (returning room lvl fl cs = cs -> pending s = [] ∧ todo s = []) ∧
  (returning room lvl fl cs ≠ cs ->
   ∃ m p, pending s = EvSend m :: p ∧
          todo s = drop (S (length (returning room lvl fl cs))) cs).

(** The threshold of the logger follows the calls made so far. *)
Definition tracked (lvl : Z) (calls : list (call T)) (s : System W T) : Prop :=
  Forall wf_item (todo s) ∧
  ∃ past, calls = past ++ todo s ∧
          level_after (pending s) (level (logger s)) = threshold lvl past.

End NoReceiver.

(** * Proofs *)

(** ** Machine arithmetic *)

Lemma wrap_small (z : Z) : is_int z -> wrap z = z.
Proof.
  unfold is_int, int_min, int_max, wrap. intros Hz.
  rewrite Z.mod_small; lia.
Qed.

Lemma wrap_mod_256 (z : Z) : wrap z mod 256 = z mod 256.
Proof.
  unfold wrap.
  change (2 ^ 63) with 9223372036854775808.
  change (2 ^ 64) with 18446744073709551616.
  Z.div_mod_to_equations. lia.
Qed.

Lemma byte_of_int_wrap (z : Z) : byte_of_int (wrap z) = byte_of_int z.
Proof. unfold byte_of_int. now rewrite wrap_mod_256. Qed.

Lemma byte_of_int_wrap_sub (a b : Z) :
  byte_of_int (wrap (wrap a - wrap b)) = byte_of_int (a - b).
Proof.
  rewrite byte_of_int_wrap. unfold byte_of_int. f_equal. f_equal.
  rewrite Zminus_mod, !wrap_mod_256, <- Zminus_mod. reflexivity.
Qed.

Lemma byte_of_int_digit (d : Z) : 0 <= d <= 9 -> byte_of_int (48 + d) = digit d.
Proof.
  intros Hd. unfold byte_of_int, digit. rewrite Z.mod_small by lia. reflexivity.
Qed.

(** The byte that one iteration of [itoa]'s loop stores. *)
Lemma itoa_digit (i : Z) :
  0 <= i ->
  byte_of_int (wrap (wrap (48 + i) - wrap (Z.quot i 10 * 10))) = digit (i mod 10).
Proof.
  intros Hi. rewrite byte_of_int_wrap_sub, Z.quot_div_nonneg by lia.
  rewrite <- byte_of_int_digit by (pose proof (Z.mod_pos_bound i 10); lia).
  f_equal. rewrite (Z.div_mod i 10) at 1 by lia. lia.
Qed.

(** ** Decimal representations *)

Lemma decimal_fuel_enough (f1 f2 : nat) (n : Z) :
  0 <= n -> n < 10 ^ Z.of_nat (S f1) -> n < 10 ^ Z.of_nat (S f2) ->
  decimal_fuel (S f1) n = decimal_fuel (S f2) n.
Proof.
  revert f2 n. induction f1 as [|f1 IH]; intros f2 n Hn H1 H2.
  - change (10 ^ Z.of_nat 1) with 10 in H1. simpl.
    destruct (n <? 10) eqn:Hlt; [reflexivity|]. apply Z.ltb_ge in Hlt. lia.
  - cbn [decimal_fuel]. destruct (n <? 10) eqn:Hlt; [reflexivity|].
    apply Z.ltb_ge in Hlt.
    destruct f2 as [|f2]; [change (10 ^ Z.of_nat 1) with 10 in H2; lia|].
    f_equal.
    rewrite (Nat2Z.inj_succ (S f1)), Z.pow_succ_r in H1 by lia.
    rewrite (Nat2Z.inj_succ (S f2)), Z.pow_succ_r in H2 by lia.
    apply IH.
    + apply Z.div_pos; lia.
    + apply Z.div_lt_upper_bound; lia.
    + apply Z.div_lt_upper_bound; lia.
Qed.

Lemma pow10_gt_log2 (n : Z) : 0 <= n -> n < 10 ^ Z.of_nat (S (Z.to_nat (Z.log2 n))).
Proof.
  intros Hn. rewrite Nat2Z.inj_succ, Z2Nat.id by apply Z.log2_nonneg.
  destruct (Z.eq_dec n 0) as [->|Hnz]; [reflexivity|].
  assert (Hlog : n < 2 ^ Z.succ (Z.log2 n)) by (apply Z.log2_spec; lia).
  eapply Z.lt_le_trans; [exact Hlog|].
  apply Z.pow_le_mono_l. lia.
Qed.

Lemma decimal_eq (n : Z) :
  0 <= n ->
  decimal n = if n <? 10 then [digit n] else decimal (n / 10) ++ [digit (n mod 10)].
Proof.
  intros Hn. unfold decimal at 1.
  pose proof (pow10_gt_log2 n Hn) as Hb.
  destruct (n <? 10) eqn:Hlt.
  - cbn [decimal_fuel]. now rewrite Hlt.
  - apply Z.ltb_ge in Hlt.
    assert (Hlog : 3 <= Z.log2 n) by (apply Z.log2_le_pow2; simpl; lia).
    destruct (Z.to_nat (Z.log2 n)) as [|k] eqn:Hk; [lia|].
    cbn [decimal_fuel].
    destruct (n <? 10) eqn:Hlt'; [apply Z.ltb_lt in Hlt'; lia|].
    f_equal. unfold decimal.
    assert (Hq : 0 <= n / 10) by (apply Z.div_pos; lia).
    apply decimal_fuel_enough; [exact Hq| |apply pow10_gt_log2; exact Hq].
    rewrite (Nat2Z.inj_succ (S k)), Z.pow_succ_r in Hb by lia.
    apply Z.div_lt_upper_bound; lia.
Qed.

Lemma ndigits_small (n : Z) : 0 <= n < 10 -> ndigits n = 1.
Proof.
  intros Hn. unfold ndigits. rewrite decimal_eq by lia.
  destruct (n <? 10) eqn:Hlt; [reflexivity|]. apply Z.ltb_ge in Hlt. lia.
Qed.

Lemma ndigits_step (n : Z) : 10 <= n -> ndigits n = ndigits (n / 10) + 1.
Proof.
  intros Hn. unfold ndigits. rewrite (decimal_eq n) by lia.
  destruct (n <? 10) eqn:Hlt; [apply Z.ltb_lt in Hlt; lia|].
  rewrite length_app. simpl. lia.
Qed.

Lemma ndigits_pos (n : Z) : 0 <= n -> 1 <= ndigits n.
Proof.
  intros Hn. unfold ndigits. rewrite decimal_eq by lia.
  destruct (n <? 10); [simpl; lia|]. rewrite length_app. simpl. lia.
Qed.

(** A number below [10 ^ k] has at most [k] digits. *)
Lemma ndigits_bound (k : nat) : ∀ n, 0 <= n < 10 ^ Z.of_nat (S k) -> ndigits n <= Z.of_nat (S k).
Proof.
  induction k as [|k IH]; intros n Hn.
  - rewrite ndigits_small; [lia|]. change (10 ^ Z.of_nat 1) with 10 in Hn. lia.
  - destruct (Z_lt_dec n 10) as [Hlt|Hge].
    + rewrite ndigits_small by lia. lia.
    + rewrite ndigits_step by lia.
      rewrite (Nat2Z.inj_succ (S k)), Z.pow_succ_r in Hn by lia.
      assert (ndigits (n / 10) <= Z.of_nat (S k)); [|lia].
      apply IH. split; [apply Z.div_pos; lia|apply Z.div_lt_upper_bound; lia].
Qed.

Lemma ndigits_int (n : Z) : 0 <= n <= int_max -> ndigits n <= 19.
Proof.
  intros Hn. apply (ndigits_bound 18). unfold int_max in Hn.
  split; [lia|]. eapply Z.le_lt_trans; [apply Hn|]. reflexivity.
Qed.

(** A number with [k] digits is at least [10 ^ (k - 1)], unless it is 0. *)
Lemma ndigits_lower (k : nat) : ∀ n, 0 < n -> ndigits n = Z.of_nat (S k) -> 10 ^ Z.of_nat k <= n.
Proof.
  induction k as [|k IH]; intros n Hn Hk.
  - simpl. lia.
  - destruct (Z_lt_dec n 10) as [Hlt|Hge].
    + rewrite ndigits_small in Hk by lia. lia.
    + rewrite ndigits_step in Hk by lia.
      assert (Hq : 10 ^ Z.of_nat k <= n / 10).
      { apply IH; [apply Z.div_str_pos; lia|lia]. }
      rewrite Nat2Z.inj_succ, Z.pow_succ_r by lia.
      pose proof (Z.mul_div_le n 10). lia.
Qed.

Lemma zero_padded_length (wid n : Z) :
  0 <= n -> Z.of_nat (length (zero_padded wid n)) = Z.max (ndigits n) wid.
Proof.
  intros Hn. unfold zero_padded. rewrite length_app, length_replicate.
  fold (ndigits n) in *. pose proof (ndigits_pos n Hn).
  unfold ndigits in *. lia.
Qed.

Lemma zero_padded_step (wid i : Z) :
  0 <= i -> 10 <= i ∨ 1 < wid ->
  zero_padded wid i = zero_padded (wid - 1) (i / 10) ++ [digit (i mod 10)].
Proof.
  intros Hi Hc. unfold zero_padded.
  destruct (Z_lt_dec i 10) as [Hlt|Hge].
  - rewrite Z.div_small, Z.mod_small by lia.
    rewrite (ndigits_small i), (ndigits_small 0) by lia.
    rewrite (decimal_eq i), (decimal_eq 0) by lia.
    destruct (i <? 10) eqn:E; [|apply Z.ltb_ge in E; lia].
    replace (Z.to_nat (wid - 1)) with (S (Z.to_nat (wid - 1 - 1))) by lia.
    rewrite replicate_S_end, <- !app_assoc. reflexivity.
  - rewrite (ndigits_step i) by lia. rewrite (decimal_eq i) by lia.
    destruct (i <? 10) eqn:E; [apply Z.ltb_lt in E; lia|].
    rewrite app_assoc. do 3 f_equal. lia.
Qed.

Lemma zero_padded_stop (wid i : Z) :
  0 <= i < 10 -> wid <= 1 -> zero_padded wid i = [digit i].
Proof.
  intros Hi Hw. unfold zero_padded. rewrite ndigits_small by lia.
  rewrite decimal_eq by lia.
  destruct (i <? 10) eqn:E; [|apply Z.ltb_ge in E; lia].
  replace (Z.to_nat (wid - 1)) with 0%nat by lia. reflexivity.
Qed.

(** ** [itoa] *)

Lemma store_ok (b : bytes) (bp : Z) (x : ascii) :
  0 <= bp < Z.of_nat (length b) -> store b bp x = Ok (<[Z.to_nat bp := x]> b).
Proof.
  intros Hbp. unfold store.
  destruct (0 <=? bp) eqn:E1; [|apply Z.leb_gt in E1; lia].
  destruct (bp <? Z.of_nat (length b)) eqn:E2; [reflexivity|apply Z.ltb_ge in E2; lia].
Qed.


Lemma drop_store (b : bytes) (n : nat) (x : ascii) :
  (n < length b)%nat -> drop n (<[n := x]> b) = x :: drop (S n) b.
Proof.
  revert n. induction b as [|c b IH]; intros n Hn; simpl in Hn; [lia|].
  destruct n as [|n]; simpl; [now rewrite drop_0|].
  apply IH. lia.
Qed.

(** The loop writes the digits of [zero_padded wid i] but the first from
    [bp] downwards and leaves the first digit in [i]. *)
Lemma itoa_loop_ok (fuel : nat) : ∀ (b : bytes) (bp i wid : Z),
  0 <= i <= int_max -> int_min + ndigits i - 2 < wid <= int_max ->
  Z.of_nat (length (zero_padded wid i)) <= bp + 1 <= Z.of_nat (length b) ->
  Z.of_nat (length b) <= int_max ->
  (length (zero_padded wid i) <= fuel)%nat ->
  ∃ b' i',
    itoa_loop fuel b bp i wid
    = Ok (b', bp + 1 - Z.of_nat (length (zero_padded wid i)), i') ∧
    length b' = length b ∧ 0 <= i' <= 9 ∧
    digit i' :: drop (S (Z.to_nat (bp + 1 - Z.of_nat (length (zero_padded wid i))))) b'
    = zero_padded wid i ++ drop (Z.to_nat (bp + 1)) b.
Proof.
  induction fuel as [|fuel IH]; intros b bp i wid Hi Hw Hbp Hb Hfuel.
  - pose proof (zero_padded_length wid i (proj1 Hi)) as Hlen.
    pose proof (ndigits_pos i (proj1 Hi)). lia.
  - cbn [itoa_loop].
    destruct ((i >=? 10) || (wid >? 1)) eqn:Hcond.
    + assert (Hc : 10 <= i ∨ 1 < wid).
      { apply orb_true_iff in Hcond as [Hc|Hc]; [left|right]; lia. }
      pose proof (zero_padded_step wid i (proj1 Hi) Hc) as Hstep.
      assert (Hlen : length (zero_padded wid i)
                     = S (length (zero_padded (wid - 1) (i / 10)))).
      { rewrite Hstep, length_app. simpl. lia. }
      rewrite store_ok by lia. cbn [mbind outcome_bind].
      rewrite itoa_digit by lia.
      assert (Hnd : ndigits i = ndigits (i / 10) + 1 ∨ (i < 10 ∧ 1 < wid)).
      { destruct (Z_lt_dec i 10); [right; lia|left; apply ndigits_step; lia]. }
      pose proof (ndigits_pos (i / 10)) as Hpos.
      assert (Hmin : int_min < 0) by reflexivity.
      assert (Hq0 : 0 <= i / 10) by (apply Z.div_pos; lia).
      rewrite (wrap_small (wid - 1)) by (unfold is_int; lia).
      rewrite (wrap_small (bp - 1)) by (unfold is_int, int_min, int_max in *; lia).
      rewrite Z.quot_div_nonneg by lia.
      assert (Hq : 0 <= i / 10 <= int_max).
      { split; [apply Z.div_pos; lia|].
        pose proof (Z.mul_div_le i 10). pose proof (Z.div_pos i 10). lia. }
      assert (Hw' : int_min + ndigits (i / 10) - 2 < wid - 1 <= int_max).
      { destruct Hnd as [Hnd|[Hlt Hnd]]; [lia|].
        rewrite Z.div_small, ndigits_small by lia. lia. }
      pose proof (IH (<[Z.to_nat bp := digit (i mod 10)]> b) (bp - 1) (i / 10)
                     (wid - 1) Hq Hw') as IH'.
      rewrite length_insert in IH'.
      destruct IH' as (b' & i' & Hrun & Hlb & Hi' & Hout); [lia|lia|lia|].
      exists b', i'. rewrite Hrun, Hlb. rewrite Hlen.
      split; [do 3 f_equal; lia|]. split; [reflexivity|]. split; [exact Hi'|].
      replace (bp + 1 - Z.of_nat (S (length (zero_padded (wid - 1) (i / 10)))))
        with (bp - 1 + 1 - Z.of_nat (length (zero_padded (wid - 1) (i / 10)))) by lia.
      rewrite Hout. rewrite Hstep, <- app_assoc. f_equal.
      replace (bp - 1 + 1) with bp by lia.
      rewrite drop_store by lia. simpl. do 2 f_equal. lia.
    + apply orb_false_iff in Hcond as [Hc1 Hc2].
      assert (Hstop : zero_padded wid i = [digit i]) by (apply zero_padded_stop; lia).
      exists b, i. rewrite Hstop in *. simpl length in *.
      split; [do 3 f_equal; lia|]. split; [reflexivity|]. split; [lia|].
      simpl. do 2 f_equal. lia.
Qed.

(** The budget of [itoa] is never used up: the loop ends or panics within
    as many iterations as the scratch array has cells up to [bp]. *)
Lemma itoa_loop_fuel (fuel : nat) : ∀ (b : bytes) (bp i wid : Z),
  -1 <= bp < Z.of_nat fuel - 1 -> Z.of_nat fuel <= int_max ->
  itoa_loop fuel b bp i wid ≠ OutOfFuel.
Proof.
  induction fuel as [|fuel IH]; intros b bp i wid Hbp Hmax; [lia|].
  cbn [itoa_loop]. destruct ((i >=? 10) || (wid >? 1)); [|discriminate].
  unfold store.
  destruct ((0 <=? bp) && (bp <? Z.of_nat (length b))) eqn:Hin;
    cbn [mbind outcome_bind]; [|discriminate].
  apply andb_true_iff in Hin as [H0 _]. apply Z.leb_le in H0.
  rewrite (wrap_small (bp - 1)) by (unfold is_int, int_min, int_max in *; lia).
  apply IH; lia.
Qed.

Lemma itoa_terminates (buf : bytes) (i wid : Z) : itoa buf i wid ≠ OutOfFuel.
Proof.
  unfold itoa.
  pose proof (itoa_loop_fuel itoa_fuel scratch (Z.of_nat (length scratch) - 1) i wid) as Hf.
  destruct (itoa_loop itoa_fuel scratch (Z.of_nat (length scratch) - 1) i wid)
    as [[[b bp] i']| |]; cbn [mbind outcome_bind].
  - unfold store, slice_from.
    destruct ((0 <=? bp) && (bp <? Z.of_nat (length b))); cbn [mbind outcome_bind];
      [|discriminate].
    destruct ((0 <=? bp) && (bp <=? Z.of_nat (length _))); cbn [mbind outcome_bind];
      discriminate.
  - discriminate.
  - exfalso.
    apply Hf; [unfold itoa_fuel, scratch; simpl; lia
              |unfold itoa_fuel, int_max; simpl; lia|reflexivity].
Qed.

(** [itoa] on a number that is not negative and a width up to the size of
    the scratch array. *)
Lemma itoa_ok (buf : bytes) (i wid : Z) :
  0 <= i <= int_max -> int_min + ndigits i - 2 < wid <= 20 ->
  itoa buf i wid = Ok (buf ++ zero_padded wid i).
Proof.
  intros Hi Hw.
  pose proof (zero_padded_length wid i (proj1 Hi)) as Hlen.
  pose proof (ndigits_int i Hi) as Hnd. pose proof (ndigits_pos i (proj1 Hi)) as Hpos.
  assert (Hmax : 20 <= int_max) by (unfold int_max; lia).
  destruct (itoa_loop_ok itoa_fuel scratch (Z.of_nat (length scratch) - 1) i wid)
    as (b' & i' & Hrun & Hlb & Hi' & Hout);
    try (simpl length; unfold itoa_fuel; lia).
  unfold itoa. rewrite Hrun. cbn [mbind outcome_bind].
  change (Z.of_nat (length scratch) - 1 + 1) with 20 in *.
  change (length scratch) with 20%nat in Hlb.
  remember (20 - Z.of_nat (length (zero_padded wid i))) as bp eqn:Hbp.
  rewrite byte_of_int_wrap, byte_of_int_digit by lia.
  rewrite store_ok by lia. cbn [mbind outcome_bind].
  unfold slice_from. rewrite length_insert, Hlb.
  destruct (0 <=? bp) eqn:E1; [|apply Z.leb_gt in E1; lia].
  destruct (bp <=? Z.of_nat 20) eqn:E2; [|apply Z.leb_gt in E2; lia].
  cbn [andb mbind outcome_bind mret outcome_ret]. f_equal. f_equal.
  rewrite drop_store by lia. rewrite Hout.
  change (drop (Z.to_nat 20) scratch) with (@nil ascii).
  apply app_nil_r.
Qed.

(** The digits of [decimal] and [zero_padded] are digits and denote the
    number. *)
Lemma is_digit_digit (d : Z) : 0 <= d <= 9 -> is_digit (digit d) = true.
Proof.
  intros Hd. assert (Hc : d = 0 ∨ d = 1 ∨ d = 2 ∨ d = 3 ∨ d = 4 ∨ d = 5 ∨ d = 6
                          ∨ d = 7 ∨ d = 8 ∨ d = 9) by lia.
  repeat destruct Hc as [->|Hc]; try reflexivity. subst. reflexivity.
Qed.

Lemma value_digit (d : Z) : 0 <= d <= 9 -> Z.of_N (N_of_ascii (digit d)) - 48 = d.
Proof.
  intros Hd. assert (Hc : d = 0 ∨ d = 1 ∨ d = 2 ∨ d = 3 ∨ d = 4 ∨ d = 5 ∨ d = 6
                          ∨ d = 7 ∨ d = 8 ∨ d = 9) by lia.
  repeat destruct Hc as [->|Hc]; try reflexivity. subst. reflexivity.
Qed.

Lemma value_snoc (s : bytes) (c : ascii) :
  value (s ++ [c]) = 10 * value s + (Z.of_N (N_of_ascii c) - 48).
Proof. unfold value. rewrite fold_left_app. reflexivity. Qed.

Lemma value_zeros (k : nat) (s : bytes) : value (replicate k "0"%char ++ s) = value s.
Proof.
  unfold value. rewrite fold_left_app. f_equal.
  induction k as [|k IH]; [reflexivity|]. simpl. exact IH.
Qed.

Lemma decimal_digits (n : Z) :
  0 <= n -> Forall (fun c => is_digit c = true) (decimal n) ∧ value (decimal n) = n.
Proof.
  intros Hn. pose proof (pow10_gt_log2 n Hn) as Hb. revert Hb.
  generalize (S (Z.to_nat (Z.log2 n))) as k. intros k. revert n Hn.
  induction k as [|k IH]; intros n Hn Hb.
  - change (10 ^ Z.of_nat 0) with 1 in Hb. assert (n = 0) as -> by lia.
    split; [repeat constructor|reflexivity].
  - rewrite decimal_eq by lia. destruct (n <? 10) eqn:Hlt.
    + apply Z.ltb_lt in Hlt. split.
      * constructor; [apply is_digit_digit; lia|constructor].
      * unfold value. simpl. rewrite value_digit; lia.
    + apply Z.ltb_ge in Hlt.
      rewrite Nat2Z.inj_succ, Z.pow_succ_r in Hb by lia.
      pose proof (Z.mod_pos_bound n 10).
      destruct (IH (n / 10)) as [Hd Hv];
        [apply Z.div_pos; lia|apply Z.div_lt_upper_bound; lia|].
      split.
      * apply Forall_app. split; [exact Hd|].
        constructor; [apply is_digit_digit; lia|constructor].
      * rewrite value_snoc, Hv, value_digit by lia.
        rewrite (Z.div_mod n 10) at 3 by lia. reflexivity.
Qed.

Lemma zero_padded_digits (wid n : Z) :
  0 <= n ->
  Forall (fun c => is_digit c = true) (zero_padded wid n) ∧ value (zero_padded wid n) = n.
Proof.
  intros Hn. destruct (decimal_digits n Hn) as [Hd Hv]. unfold zero_padded. split.
  - apply Forall_app. split; [|exact Hd]. apply Forall_replicate. reflexivity.
  - now rewrite value_zeros.
Qed.

(** C10, as the code has it.  For every [int] [i >= 0] and every width
    [wid <= 20] from which the loop's [wid--] does not wrap around
    ([wid > MinInt64 + ndigits(i) - 2], so every [wid >= MinInt64 + 18]),
    [itoa] returns without a panic and within its loop budget, and appends
    exactly [max(ndigits(i), wid)] bytes: the decimal representation of
    [i], left-padded with ['0'] to width [wid], which is made of digits and
    reads back as [i].  This holds for the widths 4, 2, 6 and -1 that
    [formatHeader] passes. *)
Theorem itoa_appends_zero_padded_decimal (buf : bytes) (i wid : Z) :
  0 <= i <= int_max ->
  int_min + ndigits i - 2 < wid <= 20 ∨ In wid [4; 2; 6; -1] ->
  ∃ out,
    itoa buf i wid = Ok (buf ++ out) ∧
    Z.of_nat (length out) = Z.max (ndigits i) wid ∧
    out = zero_padded wid i ∧
    Forall (fun c => is_digit c = true) out ∧ value out = i.
Proof.
  intros Hi Hw.
  assert (Hw' : int_min + ndigits i - 2 < wid <= 20).
  { destruct Hw as [Hw|Hw]; [exact Hw|].
    pose proof (ndigits_int i Hi). pose proof (ndigits_pos i (proj1 Hi)).
    simpl in Hw. unfold int_min. lia. }
  exists (zero_padded wid i). split; [apply itoa_ok; assumption|].
  split; [apply zero_padded_length; lia|]. split; [reflexivity|].
  apply zero_padded_digits. lia.
Qed.

Lemma itoa_appends_zero_padded_decimal_witness :
  ∃ out,
    itoa (lit "at ") 2024 6 = Ok (lit "at " ++ out) ∧
    Z.of_nat (length out) = Z.max (ndigits 2024) 6 ∧
    out = zero_padded 6 2024 ∧
    Forall (fun c => is_digit c = true) out ∧ value out = 2024.
Proof.
  apply (itoa_appends_zero_padded_decimal (lit "at ") 2024 6).
  - unfold int_max. lia.
  - right. simpl. tauto.
Defined.

(** C10 as stated fails: for the width [MinInt64], which is at most 20, the
    decrement [wid--] wraps around to [MaxInt64], the loop runs on and the
    store below the scratch array panics. *)
Lemma itoa_min_width_panics :
  ¬ (∀ (buf : bytes) (i wid : Z),
       0 <= i <= int_max -> int_min <= wid <= 20 ->
       ∃ out, itoa buf i wid = Ok (buf ++ out) ∧
              Z.of_nat (length out) = Z.max (ndigits i) wid).
Proof.
  intros Hclaim.
  destruct (Hclaim [] 10 int_min) as (out & Hrun & _).
  - unfold int_max. lia.
  - unfold int_min. lia.
  - vm_compute in Hrun. discriminate Hrun.
Qed.

(** ** [formatHeader] *)

Lemma has_lor (fl a b : Z) : has fl (Z.lor a b) = has fl a || has fl b.
Proof.
  unfold has. rewrite Z.land_lor_distr_r, <- negb_andb. f_equal.
  destruct (Z.land fl a =? 0) eqn:Ea, (Z.land fl b =? 0) eqn:Eb; simpl;
    rewrite ?Z.eqb_eq, ?Z.eqb_neq in *; rewrite ?Z.lor_eq_0_iff; tauto.
Qed.

Lemma has_slash_app (a b : bytes) : has_slash (a ++ b) = has_slash a || has_slash b.
Proof. apply existsb_app. Qed.

Lemma basename_after_last_slash (pre post : bytes) :
  has_slash post = false -> basename (pre ++ "/"%char :: post) = post.
Proof.
  intros Hpost. induction pre as [|c pre IH]; simpl.
  - now rewrite Hpost.
  - rewrite has_slash_app. simpl. rewrite orb_true_r. exact IH.
Qed.

Lemma basename_no_slash (file : bytes) : has_slash file = false -> basename file = file.
Proof.
  destruct file as [|c rest]; [reflexivity|]. simpl.
  intros Hs. apply orb_false_iff in Hs as [Hc Hr]. now rewrite Hr, Hc.
Qed.

Lemma shortfile_loop_ok (file : bytes) (i : nat) :
  (i < length file)%nat -> has_slash (drop (S i) file) = false ->
  shortfile_loop file i
  = Ok (if has_slash (take i (tail file)) then basename file else file).
Proof.
  induction i as [|j IH]; intros Hi Hafter; [now rewrite take_0|].
  cbn [shortfile_loop].
  destruct (lookup_lt_is_Some_2 file (S j) Hi) as [c Hc]. rewrite Hc.
  assert (Htl : tail file !! j = Some c) by (destruct file; [discriminate|exact Hc]).
  rewrite (take_S_r _ _ _ Htl), has_slash_app. simpl. rewrite orb_false_r.
  destruct (Ascii.eqb c "/") eqn:Ec.
  - apply Ascii.eqb_eq in Ec. subst c. rewrite orb_true_r.
    unfold slice_from.
    destruct (0 <=? Z.of_nat (S j) + 1) eqn:E1; [|apply Z.leb_gt in E1; lia].
    destruct (Z.of_nat (S j) + 1 <=? Z.of_nat (length file)) eqn:E2;
      [|apply Z.leb_gt in E2; lia].
    cbn [andb]. f_equal.
    replace (Z.to_nat (Z.of_nat (S j) + 1)) with (S (S j)) by lia.
    rewrite <- (take_drop_middle file (S j) "/"%char Hc) at 2.
    symmetry. apply basename_after_last_slash. exact Hafter.
  - rewrite orb_false_r. apply IH; [lia|].
    rewrite (drop_S _ _ _ Hc). simpl. now rewrite Ec.
Qed.

Lemma shortfile_ok (file : bytes) : shortfile file = Ok (short_name file).
Proof.
  unfold shortfile, short_name. destruct file as [|c rest]; [reflexivity|].
  rewrite shortfile_loop_ok.
  - simpl length. simpl tail. f_equal.
    replace (Z.to_nat (Z.of_nat (S (length rest)) - 1)) with (length rest) by lia.
    now rewrite firstn_all.
  - simpl length. lia.
  - simpl length.
    replace (S (Z.to_nat (Z.of_nat (S (length rest)) - 1))) with (length (c :: rest))
      by (simpl; lia).
    now rewrite drop_all.
Qed.

Lemma zero_padded_unpadded (wid n : Z) : 0 <= n -> wid <= 1 -> zero_padded wid n = decimal n.
Proof.
  intros Hn Hw. unfold zero_padded. pose proof (ndigits_pos n Hn).
  replace (Z.to_nat (wid - ndigits n)) with 0%nat by lia. reflexivity.
Qed.

(** [itoa] at the call sites of [formatHeader]. *)
Lemma itoa_field (buf : bytes) (i wid : Z) :
  0 <= i <= int_max -> In wid [4; 2; 6; -1] ->
  itoa buf i wid = Ok (buf ++ zero_padded wid i).
Proof.
  intros Hi Hw. apply itoa_ok; [exact Hi|].
  pose proof (ndigits_int i Hi). simpl in Hw. unfold int_min. lia.
Qed.

Section HeaderProofs.
Context {W T : Type} `{TimeAPI T}.

(** [formatHeader] in closed form. *)
Lemma formatHeader_ok (logger : BasicLogger W) (buf : bytes) (lv : Z) (t : T)
    (file : bytes) (line : Z) :
  calendar (shown (flags logger) t) -> 0 <= line <= int_max ->
  formatHeader logger buf lv t file line
  = Ok (buf ++ header (flags logger) lv t file line).
Proof.
  intros Hcal Hline.
  assert (Hmax : 999999999 <= int_max) by (unfold int_max; lia).
  unfold formatHeader, header, datetime_part, callsite_part, date_field,
    clock_field, micro_field, calendar in *.
  rewrite !has_lor. fold (shown (flags logger) t).
  destruct (Date (shown (flags logger) t)) as [[year month] day].
  destruct (Clock (shown (flags logger) t)) as [[hour min] sec].
  destruct Hcal as (Hy & Hmo & Hd & Hh & Hmi & Hs & Hn).
  assert (Hus : 0 <= Nanosecond (shown (flags logger) t) / 1000 <= int_max).
  { split; [apply Z.div_pos; lia|].
    pose proof (Z.mul_div_le (Nanosecond (shown (flags logger) t)) 1000). lia. }
  rewrite shortfile_ok, Z.quot_div_nonneg by lia.
  destruct (has (flags logger) Ldate), (has (flags logger) Ltime),
    (has (flags logger) Lmicroseconds), (has (flags logger) Lshortfile),
    (has (flags logger) Llongfile);
    cbn [orb andb mbind outcome_bind mret outcome_ret];
    repeat (rewrite itoa_field by (simpl; first [lia|tauto]);
            cbn [mbind outcome_bind mret outcome_ret]);
    rewrite ?(zero_padded_unpadded (-1) line) by lia;
    unfold lit; simpl list_ascii_of_string;
    rewrite <- ?app_assoc; simpl; rewrite ?app_nil_r; reflexivity.
Qed.

End HeaderProofs.

(** ** The date and time fields (C5, C6) *)

Section DateTimeClaims.
Context {W T : Type} `{TimeAPI T}.

(** C5, as the code has it.  After the level tag, the header holds the
    date field [YYYY/MM/DD] and a space exactly when the date flag is
    set; then the time field [HH:MM:SS] exactly when the time flag or
    the microseconds flag is set, followed by ['.'] and six digits of
    microseconds exactly when the microseconds flag is set, and a space;
    all fields are read off the timestamp converted to UTC when the UTC
    flag is set, off the timestamp itself otherwise. *)
Theorem formatHeader_date_time_fields (logger : BasicLogger W) (buf : bytes)
    (lv : Z) (t : T) (file : bytes) (line : Z) :
  let fl := flags logger in
  let t' := if has fl LUTC then UTC t else t in
  calendar t' -> 0 <= line <= int_max ->
  formatHeader logger buf lv t file line
  = Ok (buf ++ levelStringMap lv
        ++ (if has fl Ldate then date_field t' ++ lit " " else [])
        ++ (if has fl Ltime || has fl Lmicroseconds
            then clock_field t'
                 ++ (if has fl Lmicroseconds then lit "." ++ micro_field t' else [])
                 ++ lit " "
            else [])
        ++ callsite_part fl file line).
Proof.
  intros fl t' Hcal Hline.
  rewrite (formatHeader_ok logger buf lv t file line Hcal Hline).
  unfold header, datetime_part. fold fl. fold (shown fl t).
  change (shown fl t) with t'. now rewrite <- !app_assoc.
Qed.

Lemma zero_padded_width (w : nat) (n : Z) :
  0 <= n < 10 ^ Z.of_nat (S w) ->
  length (zero_padded (Z.of_nat (S w)) n) = S w.
Proof.
  intros Hn. pose proof (zero_padded_length (Z.of_nat (S w)) n (proj1 Hn)) as Hl.
  pose proof (ndigits_bound w n Hn). lia.
Qed.

Lemma matches_app (l1 l2 s1 s2 : bytes) :
  matches l1 s1 = true -> matches l2 s2 = true -> matches (l1 ++ l2) (s1 ++ s2) = true.
Proof.
  revert s1. induction l1 as [|p l1 IH]; intros [|c s1] H1 H2;
    simpl in *; try discriminate; [exact H2|].
  apply andb_true_iff in H1 as [Hc H1]. rewrite Hc. simpl. now apply IH.
Qed.

Lemma matches_digits (l s : bytes) :
  Forall (fun p => is_letter p = true) l ->
  Forall (fun c => is_digit c = true) s ->
  length s = length l -> matches l s = true.
Proof.
  intros Hl. revert s. induction Hl as [|p l Hp Hl IH]; intros [|c s] Hs Hlen;
    simpl in *; try discriminate; [reflexivity|].
  inversion Hs; subst. rewrite Hp. apply andb_true_iff. split; [assumption|].
  apply IH; [assumption|lia].
Qed.

(** A number below [10 ^ w] fills a field of [w] letters. *)
Lemma matches_field (w : nat) (l : bytes) (n : Z) :
  length l = S w -> Forall (fun p => is_letter p = true) l ->
  0 <= n < 10 ^ Z.of_nat (S w) ->
  matches l (zero_padded (Z.of_nat (S w)) n) = true.
Proof.
  intros Hlen Hl Hn. apply matches_digits; [exact Hl| |].
  - apply zero_padded_digits. lia.
  - rewrite zero_padded_width by exact Hn. now rewrite Hlen.
Qed.

(** C6, as the code has it.  With the date, time and microseconds flags
    set and a timestamp whose year is between 0 and 9999, the date and
    time part of the header is exactly
    [YYYY/MM/DD HH:MM:SS.dddddd ]: 27 characters, every field of its
    fixed width and zero-padded. *)
Theorem formatHeader_fixed_layout (logger : BasicLogger W) (buf : bytes)
    (lv : Z) (t : T) (file : bytes) (line : Z) :
  let fl := flags logger in
  let t' := if has fl LUTC then UTC t else t in
  has fl Ldate = true -> has fl Ltime = true -> has fl Lmicroseconds = true ->
  calendar t' -> fst (fst (Date t')) <= 9999 -> 0 <= line <= int_max ->
  ∃ dt,
    formatHeader logger buf lv t file line
    = Ok (buf ++ levelStringMap lv ++ dt ++ callsite_part fl file line) ∧
    dt = date_field t' ++ lit " " ++ clock_field t' ++ lit "." ++ micro_field t'
         ++ lit " " ∧
    matches (lit "YYYY/MM/DD HH:MM:SS.dddddd ") dt = true ∧
    length dt = 27%nat.
Proof.
  intros fl t' Hd Ht Hm Hcal Hyear Hline.
  exists (date_field t' ++ lit " " ++ clock_field t' ++ lit "." ++ micro_field t'
          ++ lit " ").
  split.
  { rewrite (formatHeader_ok logger buf lv t file line Hcal Hline).
    unfold header, datetime_part. fold fl. fold (shown fl t).
    change (shown fl t) with t'. rewrite Hd, Ht, Hm. cbn [orb].
    now rewrite <- !app_assoc. }
  split; [reflexivity|].
  unfold calendar, date_field, clock_field, micro_field in *.
  destruct (Date t') as [[year month] day]. destruct (Clock t') as [[hour min] sec].
  simpl in Hyear. destruct Hcal as (Hy & Hmo & Hda & Hh & Hmi & Hs & Hn).
  assert (Hus : 0 <= Nanosecond t' / 1000 < 10 ^ 6).
  { split; [apply Z.div_pos; lia|apply Z.div_lt_upper_bound; lia]. }
  assert (F4 : ∀ n, 0 <= n < 10 ^ 4 -> matches (lit "YYYY") (zero_padded 4 n) = true).
  { intros n Hr. apply (matches_field 3); [reflexivity|repeat constructor|exact Hr]. }
  assert (F2 : ∀ l n, length l = 2%nat -> Forall (fun p => is_letter p = true) l ->
                      0 <= n < 10 ^ 2 -> matches l (zero_padded 2 n) = true).
  { intros l n Hl Hf Hr. apply (matches_field 1); assumption. }
  assert (F6 : ∀ n, 0 <= n < 10 ^ 6 -> matches (lit "dddddd") (zero_padded 6 n) = true).
  { intros n Hr. apply (matches_field 5); [reflexivity|repeat constructor|exact Hr]. }
  split.
  - change (lit "YYYY/MM/DD HH:MM:SS.dddddd ")
      with ((lit "YYYY" ++ lit "/" ++ lit "MM" ++ lit "/" ++ lit "DD") ++ lit " "
            ++ (lit "HH" ++ lit ":" ++ lit "MM" ++ lit ":" ++ lit "SS") ++ lit "."
            ++ lit "dddddd" ++ lit " ").
    repeat first
      [ apply matches_app
      | apply F4; lia | apply F6; lia
      | apply F2; [reflexivity|repeat constructor|lia]
      | reflexivity ].
  - assert (L4 : ∀ n, 0 <= n < 10 ^ 4 -> length (zero_padded 4 n) = 4%nat)
      by (intros n Hr; apply (zero_padded_width 3 n Hr)).
    assert (L2 : ∀ n, 0 <= n < 10 ^ 2 -> length (zero_padded 2 n) = 2%nat)
      by (intros n Hr; apply (zero_padded_width 1 n Hr)).
    assert (L6 : ∀ n, 0 <= n < 10 ^ 6 -> length (zero_padded 6 n) = 6%nat)
      by (intros n Hr; apply (zero_padded_width 5 n Hr)).
    rewrite !length_app, L4, !L2, L6 by lia. reflexivity.
Qed.

End DateTimeClaims.

(** A concrete timestamp lies in the calendar. *)
Ltac calendar_tac := vm_compute; repeat split; intro; discriminate.

Lemma formatHeader_date_time_fields_witness :
  formatHeader (Sample.logger_with (Z.lor Lmicroseconds LUTC) 2) (lit "> ") Info
    Sample.ts (lit "/home/dev/app/main.go") 42
  = Ok (lit "> [INFO]  18:04:05.000006 ").
Proof.
  refine (eq_trans (formatHeader_date_time_fields
                      (Sample.logger_with (Z.lor Lmicroseconds LUTC) 2) (lit "> ")
                      Info Sample.ts (lit "/home/dev/app/main.go") 42 _ _) _).
  - calendar_tac.
  - unfold int_max. lia.
  - vm_compute. reflexivity.
Defined.

(** C5 as stated fails: with the microseconds flag alone the time flag is
    not set, and the header still carries the time field. *)
Lemma formatHeader_time_without_time_flag :
  ¬ (∀ (logger : BasicLogger Sample.Tape) (lv : Z) (t : Sample.Stamp)
       (file : bytes) (line : Z),
       calendar (shown (flags logger) t) -> 0 <= line <= int_max ->
       formatHeader logger [] lv t file line
       = Ok (levelStringMap lv ++ datetime_part_spec (flags logger) t
             ++ callsite_part (flags logger) file line)).
Proof.
  intros Hclaim.
  assert (Hrun : formatHeader (Sample.logger_with Lmicroseconds 2) [] Info
                   Sample.ts [] 0 = Ok (lit "[INFO]  03:04:05.000006 "))
    by (vm_compute; reflexivity).
  rewrite Hclaim in Hrun; [|calendar_tac|unfold int_max; lia].
  vm_compute in Hrun. discriminate Hrun.
Qed.

Lemma formatHeader_fixed_layout_witness :
  ∃ dt,
    formatHeader (Sample.logger_with (Z.lor LstdFlags Lmicroseconds) 2) [] Warn
      Sample.ts [] 0
    = Ok ([] ++ levelStringMap Warn ++ dt
          ++ callsite_part (Z.lor LstdFlags Lmicroseconds) [] 0) ∧
    dt = date_field Sample.ts ++ lit " " ++ clock_field Sample.ts ++ lit "."
         ++ micro_field Sample.ts ++ lit " " ∧
    matches (lit "YYYY/MM/DD HH:MM:SS.dddddd ") dt = true ∧
    length dt = 27%nat.
Proof.
  apply (formatHeader_fixed_layout
           (Sample.logger_with (Z.lor LstdFlags Lmicroseconds) 2) [] Warn
           Sample.ts [] 0).
  - reflexivity.
  - reflexivity.
  - reflexivity.
  - calendar_tac.
  - simpl. lia.
  - unfold int_max. lia.
Defined.

(** C6 as stated fails: a timestamp in the year 10000 lies in the calendar
    and its date takes five digits for the year. *)
Lemma formatHeader_year_10000 :
  ¬ (∀ (logger : BasicLogger Sample.Tape) (lv : Z) (t : Sample.Stamp)
       (file : bytes) (line : Z),
       has (flags logger) Ldate = true -> has (flags logger) Ltime = true ->
       has (flags logger) Lmicroseconds = true ->
       calendar (shown (flags logger) t) -> 0 <= line <= int_max ->
       ∃ dt,
         formatHeader logger [] lv t file line
         = Ok (levelStringMap lv ++ dt ++ callsite_part (flags logger) file line) ∧
         matches (lit "YYYY/MM/DD HH:MM:SS.dddddd ") dt = true).
Proof.
  intros Hclaim.
  destruct (Hclaim (Sample.logger_with (Z.lor LstdFlags Lmicroseconds) 2) Info
              Sample.far_ts [] 0) as (dt & Hrun & Hdt);
    try reflexivity; [calendar_tac|unfold int_max; lia|].
  assert (Hcode : formatHeader (Sample.logger_with (Z.lor LstdFlags Lmicroseconds) 2)
                    [] Info Sample.far_ts [] 0
                  = Ok (levelStringMap Info ++ lit "10000/01/02 03:04:05.000006 " ++ []))
    by (vm_compute; reflexivity).
  rewrite Hcode in Hrun. injection Hrun as Hrun.
  change (callsite_part (Z.lor LstdFlags Lmicroseconds) [] 0) with (@nil ascii) in Hrun.
  rewrite app_nil_r in Hrun. subst dt.
  vm_compute in Hdt. discriminate Hdt.
Qed.

(** ** The call site (C7) *)

(** C7 at its failing input.  For the path [/main.go], whose only ['/'] is
    its first character, the short-file flag leaves the path as it is:
    the loop [for i := len(file) - 1; i > 0; i--] never looks at index 0.
    The base name, the suffix after the last ['/'], is [main.go]. *)
Theorem formatHeader_shortfile_skips_index_0 :
  formatHeader (Sample.logger_with Lshortfile 2) [] Info Sample.ts (lit "/main.go") 12
  = Ok (lit "[INFO]  /main.go:12: ") ∧
  basename (lit "/main.go") = lit "main.go" ∧
  levelStringMap Info ++ callsite_part_spec Lshortfile (lit "/main.go") 12
  = lit "[INFO]  main.go:12: ".
Proof. repeat split; vm_compute; reflexivity. Qed.

(** ** [logging]: the level gate and the line (C3, C4) *)

Section LoggingProofs.
Context {W T : Type} `{Writer W} `{TimeAPI T}.

Lemma logging_rejected (logger : BasicLogger W) (lv : Z) (c : Call T) :
  lv < level logger -> logging logger lv c = MkProg [] (Ok tt).
Proof.
  intros Hlt. unfold logging.
  destruct (level logger >? lv) eqn:E; [reflexivity|lia].
Qed.

Lemma wf_call_shown (fl : Z) (c : Call T) : wf_call c -> calendar (shown fl (now c)).
Proof. intros (Ht & Hu & _). unfold shown. now destruct (has fl LUTC). Qed.

Lemma wf_call_line (fl : Z) (c : Call T) :
  wf_call c -> 0 <= snd (callsite_of fl c) <= int_max.
Proof.
  intros (_ & _ & Hl). unfold callsite_of.
  destruct (has fl (Z.lor Lshortfile Llongfile)); [|simpl; unfold int_max; lia].
  destruct (caller c) as [[file line]|] eqn:Hc; [exact (Hl file line eq_refl)|].
  simpl. unfold int_max. lia.
Qed.

Lemma logging_admitted (logger : BasicLogger W) (lv : Z) (c : Call T) :
  level logger <= lv -> wf_call c ->
  logging logger lv c
  = MkProg (admitted_trace (flags logger) (line_of (flags logger) lv c)) (Ok tt).
Proof.
  intros Hle Hwf. unfold logging.
  destruct (level logger >? lv) eqn:E; [lia|clear E].
  pose proof (wf_call_shown (flags logger) c Hwf) as Hcal.
  pose proof (wf_call_line (flags logger) c Hwf) as Hline.
  pose proof (formatHeader_ok logger [] lv (now c) (fst (callsite_of (flags logger) c))
                (snd (callsite_of (flags logger) c)) Hcal Hline) as Hh.
  unfold line_of, admitted_trace, callsite_of in *.
  destruct (has (flags logger) (Z.lor Lshortfile Llongfile));
    [destruct (caller c) as [[file line]|]|];
    cbn [fst snd] in Hh |- *;
    unfold defer, ask, emit, lift;
    cbn [mbind prog_bind mret prog_ret trace result];
    rewrite Hh; cbn [mbind prog_bind mret prog_ret trace result app];
    destruct (lacks_newline (rendered c)), (Z.land (flags logger) Lblocking =? 0);
    cbn [mbind prog_bind mret prog_ret trace result app];
    rewrite <- ?app_assoc, ?app_nil_r; reflexivity.
Qed.

Lemma emitted_admitted (fl : Z) (line : bytes) : emitted (admitted_trace fl line) = [line].
Proof.
  unfold admitted_trace, emitted.
  destruct (has fl (Z.lor Lshortfile Llongfile)), (Z.land fl Lblocking =? 0);
    reflexivity.
Qed.

End LoggingProofs.

(** Trailing newlines. *)
Lemma leading_newlines_app (a b : bytes) :
  leading_newlines b = 0%nat -> leading_newlines (a ++ b) = leading_newlines a.
Proof.
  intros Hb. induction a as [|c a IH]; simpl; [exact Hb|].
  destruct (Ascii.eqb c "010"); [now rewrite IH|reflexivity].
Qed.

Lemma trailing_newlines_app (a b : bytes) :
  trailing_newlines a = 0%nat -> trailing_newlines (a ++ b) = trailing_newlines b.
Proof.
  intros Ha. unfold trailing_newlines in *. rewrite rev_app_distr.
  now apply leading_newlines_app.
Qed.

Lemma trailing_newlines_snoc (a : bytes) (c : ascii) :
  trailing_newlines (a ++ [c])
  = if Ascii.eqb c "010" then S (trailing_newlines a) else 0%nat.
Proof. unfold trailing_newlines. rewrite rev_app_distr. reflexivity. Qed.

Lemma spaced_trailing (h : bytes) : spaced h -> trailing_newlines h = 0%nat.
Proof.
  intros [->|[x ->]]; [reflexivity|]. now rewrite trailing_newlines_snoc.
Qed.

Lemma spaced_app (a b : bytes) : spaced a -> spaced b -> spaced (a ++ b).
Proof.
  intros Ha [->|[x ->]]; [now rewrite app_nil_r|].
  right. exists (a ++ x). now rewrite app_assoc.
Qed.

Lemma spaced_snoc (x : bytes) (s : string) : spaced (x ++ lit s ++ lit " ").
Proof. right. exists (x ++ lit s). now rewrite <- app_assoc. Qed.

Section LineProofs.
Context {W T : Type} `{Writer W} `{TimeAPI T}.

Lemma header_spaced (fl lv : Z) (t : T) (file : bytes) (line : Z) :
  spaced (header fl lv t file line).
Proof.
  unfold header. apply spaced_app; [|apply spaced_app].
  - destruct lv as [|p|p]; try (left; reflexivity);
      try (do 3 (try (destruct p as [p|p|]; try (left; reflexivity))));
      right;
      first [ exists (lit "[TRACE]"); reflexivity
            | exists (lit "[DEBUG]"); reflexivity
            | exists (lit "[INFO] "); reflexivity
            | exists (lit "[WARN] "); reflexivity
            | exists (lit "[ERROR]"); reflexivity ].
  - unfold datetime_part. apply spaced_app.
    + destruct (has fl Ldate); [|now left]. right. now exists (date_field (shown fl t)).
    + destruct (has fl Ltime || has fl Lmicroseconds); [|now left].
      right.
      exists (clock_field (shown fl t)
              ++ (if has fl Lmicroseconds then lit "." ++ micro_field (shown fl t)
                  else [])).
      rewrite <- !app_assoc. reflexivity.
  - unfold callsite_part.
    destruct (has fl Lshortfile || has fl Llongfile); [|now left].
    right.
    exists ((if has fl Lshortfile then short_name file else file)
            ++ lit ":" ++ decimal line ++ [":"%char]).
    rewrite <- !app_assoc. reflexivity.
Qed.

Lemma lacks_newline_spec (s : bytes) :
  lacks_newline s = true ↔ s = [] ∨ ∃ x c, s = x ++ [c] ∧ c ≠ "010"%char.
Proof.
  unfold lacks_newline. destruct s as [|c0 s0] using rev_ind.
  - simpl. split; [now left|reflexivity].
  - rewrite last_snoc. split.
    + intros Hc. right. exists s0, c0. split; [reflexivity|].
      intros ->. discriminate Hc.
    + intros [Hnil|(x & c & Heq & Hc)]; [now destruct s0|].
      apply app_inj_tail in Heq as [_ ->].
      destruct (Ascii.eqb c "010") eqn:E; [apply Ascii.eqb_eq in E; contradiction|].
      reflexivity.
Qed.

(** The line of an admitted call: after the header and the message, one
    newline when the message lacks one. *)
Lemma line_of_newlines (fl lv : Z) (c : Call T) :
  last (line_of fl lv c) = Some "010"%char ∧
  trailing_newlines (line_of fl lv c) = Nat.max 1 (trailing_newlines (rendered c)).
Proof.
  unfold line_of.
  pose proof (spaced_trailing _ (header_spaced fl lv (now c) (fst (callsite_of fl c))
                                   (snd (callsite_of fl c)))) as Hh.
  set (h := header fl lv (now c) (fst (callsite_of fl c)) (snd (callsite_of fl c))) in *.
  rewrite trailing_newlines_app by exact Hh.
  unfold lacks_newline.
  destruct (rendered c) as [|c0 s0] using rev_ind.
  - simpl. split; [apply last_snoc|reflexivity].
  - rewrite last_snoc. destruct (Ascii.eqb c0 "010") eqn:E; simpl negb; cbv iota.
    + apply Ascii.eqb_eq in E. subst c0. rewrite app_nil_r, app_assoc.
      split; [apply last_snoc|]. rewrite trailing_newlines_snoc. simpl. lia.
    + rewrite !app_assoc. split; [apply last_snoc|].
      rewrite !trailing_newlines_snoc, E. reflexivity.
Qed.

(** C3.  A leveled call below the threshold returns with no effect at
    all: no timestamp, no call site, no formatting, nothing sent or
    written, and the caller's step only consumes the call.  A call is
    admitted, that is, delivers a record, exactly when its level is at
    least the threshold, which is what [shouldLog] decides, under the
    order Trace < Debug < Info < Warn < Error. *)
Theorem level_gate (l : BasicLogger W) (lv : Z) (c : Call T) :
  wf_call c ->
  (lv < level l ->
   logging l lv c = MkProg [] (Ok tt) ∧
   ∀ s cs, logger s = l -> pending s = [] -> crashed s = false ->
           todo s = CLeveled lv c :: cs ->
           step CallerG s = Some (set_todo s cs)) ∧
  (emitted (trace (logging l lv c)) ≠ [] ↔ level l <= lv) ∧
  (shouldLog (level l) lv = true ↔ level l <= lv) ∧
  Trace < Debug ∧ Debug < Info ∧ Info < Warn ∧ Warn < Error.
Proof.
  intros Hwf. split; [|split; [|split]].
  - intros Hlt. split; [now apply logging_rejected|].
    intros s cs <- Hp Hc Ht. unfold step, caller_step, call_events.
    rewrite Hc, Hp, Ht, logging_rejected by assumption.
    destruct s; simpl in *; subst; reflexivity.
  - split.
    + intros Hne. destruct (Z_lt_dec lv (level l)) as [Hlt|]; [|lia].
      rewrite logging_rejected in Hne by assumption. now contradiction Hne.
    + intros Hle. rewrite logging_admitted by assumption.
      simpl trace. now rewrite emitted_admitted.
  - unfold shouldLog. lia.
  - repeat split; reflexivity.
Qed.

(** C4, as the code has it.  The line of an admitted call is the header,
    the rendered message and one newline exactly when the message is
    empty or does not end with a newline; so the line always ends with a
    newline, a second one is never appended, and the line ends with
    exactly one newline when the message ends with at most one (it ends
    with as many as the message when the message ends with more). *)
Theorem line_ends_with_newline (logger : BasicLogger W) (lv : Z) (c : Call T) :
  level logger <= lv -> wf_call c ->
  ∃ h line,
    formatHeader logger [] lv (now c) (fst (callsite_of (flags logger) c))
      (snd (callsite_of (flags logger) c)) = Ok h ∧
    emitted (trace (logging logger lv c)) = [line] ∧
    line = h ++ rendered c ++ (if lacks_newline (rendered c) then ["010"%char] else []) ∧
    (lacks_newline (rendered c) = true ↔
     rendered c = [] ∨ ∃ x a, rendered c = x ++ [a] ∧ a ≠ "010"%char) ∧
    last line = Some "010"%char ∧
    trailing_newlines line = Nat.max 1 (trailing_newlines (rendered c)).
Proof.
  intros Hle Hwf.
  exists (header (flags logger) lv (now c) (fst (callsite_of (flags logger) c))
            (snd (callsite_of (flags logger) c))), (line_of (flags logger) lv c).
  split.
  { rewrite formatHeader_ok;
      [reflexivity|now apply wf_call_shown|now apply wf_call_line]. }
  split; [rewrite logging_admitted by assumption; apply emitted_admitted|].
  split; [reflexivity|]. split; [apply lacks_newline_spec|].
  apply line_of_newlines.
Qed.

End LineProofs.

Lemma utter_wf (s : bytes) : wf_call (Sample.utter s).
Proof.
  split; [calendar_tac|split; [calendar_tac|]].
  intros file line Heq. injection Heq as _ <-. unfold int_max. lia.
Qed.

Lemma level_gate_witness :
  logging (Sample.logger_with LstdFlags 2) Debug (Sample.say "cache miss")
  = MkProg [] (Ok tt) ∧
  emitted (trace (logging (Sample.logger_with LstdFlags 2) Warn (Sample.say "disk full")))
  ≠ [].
Proof.
  pose proof (level_gate (Sample.logger_with LstdFlags 2) Debug (Sample.say "cache miss")
                (utter_wf _)) as (Hrej & _).
  pose proof (level_gate (Sample.logger_with LstdFlags 2) Warn (Sample.say "disk full")
                (utter_wf _)) as (_ & Hadm & _).
  split.
  - apply Hrej. reflexivity.
  - apply Hadm. vm_compute. discriminate.
Defined.

Lemma line_ends_with_newline_witness :
  ∃ h line,
    formatHeader (Sample.logger_with LstdFlags 2) [] Warn (now (Sample.say "disk full"))
      (fst (callsite_of LstdFlags (Sample.say "disk full")))
      (snd (callsite_of LstdFlags (Sample.say "disk full"))) = Ok h ∧
    emitted (trace (logging (Sample.logger_with LstdFlags 2) Warn (Sample.say "disk full")))
    = [line] ∧
    line = h ++ rendered (Sample.say "disk full")
           ++ (if lacks_newline (rendered (Sample.say "disk full"))
               then ["010"%char] else []) ∧
    (lacks_newline (rendered (Sample.say "disk full")) = true ↔
     rendered (Sample.say "disk full") = [] ∨
     ∃ x a, rendered (Sample.say "disk full") = x ++ [a] ∧ a ≠ "010"%char) ∧
    last line = Some "010"%char ∧
    trailing_newlines line
    = Nat.max 1 (trailing_newlines (rendered (Sample.say "disk full"))).
Proof.
  apply (line_ends_with_newline (Sample.logger_with LstdFlags 2) Warn
           (Sample.say "disk full")).
  - vm_compute. discriminate.
  - apply utter_wf.
Defined.

(** C4 as stated fails: a message that ends with two newlines is delivered
    as it is, and the line ends with two newlines. *)
Lemma line_with_two_newlines :
  ¬ (∀ (l : BasicLogger Sample.Tape) (lv : Z) (c : Call Sample.Stamp),
       level l <= lv -> wf_call c ->
       ∀ line, In line (emitted (trace (logging l lv c))) ->
               trailing_newlines line = 1%nat).
Proof.
  intros Hclaim.
  specialize (Hclaim (Sample.logger_with 0 2) Info
                (Sample.utter (lit "done" ++ ["010"%char; "010"%char]))).
  specialize (Hclaim ltac:(vm_compute; discriminate) (utter_wf _)
                (lit "[INFO]  done" ++ ["010"%char; "010"%char])).
  assert (Hin : In (lit "[INFO]  done" ++ ["010"%char; "010"%char])
                  (emitted (trace (logging (Sample.logger_with 0 2) Info
                     (Sample.utter (lit "done" ++ ["010"%char; "010"%char]))))))
    by (vm_compute; left; reflexivity).
  specialize (Hclaim Hin). vm_compute in Hclaim. discriminate Hclaim.
Qed.

(** ** Asynchronous delivery (C1, C2) *)

(** Lists of write commands with one other command. *)
Lemma is_write_elem (B h q : list logMessage) (m : logMessage) :
  forallb is_write B = true -> h ++ m :: q = B -> is_write m = true.
Proof.
  intros HB Heq. rewrite forallb_forall in HB. apply HB.
  rewrite <- Heq. apply in_or_app. right. now left.
Qed.

Lemma first_other_command (B h q : list logMessage) (m x : logMessage) :
  forallb is_write B = true -> is_write m = false ->
  h ++ m :: q = B ++ [x] -> h = B ∧ m = x ∧ q = [].
Proof.
  intros HB Hm. revert B HB. induction h as [|a h IH]; intros [|b B] HB Heq;
    simpl in *.
  - injection Heq as -> ->. auto.
  - injection Heq as <- _. apply andb_true_iff in HB as [Hb _]. congruence.
  - injection Heq as _ Heq. now destruct h.
  - injection Heq as -> Heq. apply andb_true_iff in HB as [_ HB].
    destruct (IH B HB Heq) as (-> & -> & ->). auto.
Qed.

Lemma sends_app (a b : list event) : sends (a ++ b) = sends a ++ sends b.
Proof. apply omap_app. Qed.

Lemma forallb_snoc {A : Type} (f : A -> bool) (l : list A) (x : A) :
  forallb f (l ++ [x]) = forallb f l && f x.
Proof. rewrite forallb_app. simpl. now rewrite andb_true_r. Qed.

Section DeliveryProofs.
Context {W T : Type} `{Writer W} `{TimeAPI T}.

Lemma writes_snoc (w : W) (ps : list bytes) (p : bytes) :
  writes w (ps ++ [p]) = fst (Write (writes w ps) p).
Proof. unfold writes. now rewrite fold_left_app. Qed.

Lemma records_snoc (ms : list logMessage) (m : logMessage) :
  records (ms ++ [m]) = records ms ++ (if is_write m then [buf m] else []).
Proof.
  unfold records. rewrite flat_map_app. simpl. now rewrite app_nil_r.
Qed.

Lemma records_writes (B : list logMessage) :
  forallb is_write B = true -> records B = map buf B.
Proof.
  unfold records. induction B as [|b B IH]; [reflexivity|]. simpl.
  intros Hb. apply andb_true_iff in Hb as [Hb HB]. rewrite Hb. simpl.
  f_equal. now apply IH.
Qed.

(** The effects of the calls in asynchronous mode. *)
Lemma admitted_trace_async (fl : Z) (line : bytes) :
  Z.land fl Lblocking = 0 ->
  calm (admitted_trace fl line) = true ∧
  lock_ok false (admitted_trace fl line) = true ∧
  (length (admitted_trace fl line) <= 8)%nat ∧
  sends (admitted_trace fl line) = [LogMessage write line] ∧
  ∀ lvl, level_after (admitted_trace fl line) lvl = lvl.
Proof.
  intros Hfl. unfold admitted_trace. rewrite Hfl.
  change (0 =? 0) with true. cbv iota.
  destruct (has fl (Z.lor Lshortfile Llongfile));
    (split; [reflexivity|split; [reflexivity|split; [simpl length; lia|]]]);
    (split; [reflexivity|intros lvl; reflexivity]).
Qed.

Lemma call_events_leveled (l : BasicLogger W) (lv : Z) (c : Call T) :
  wf_call c ->
  call_events l (CLeveled lv c)
  = if level l >? lv then [] else admitted_trace (flags l) (line_of (flags l) lv c).
Proof.
  intros Hwf. unfold call_events. destruct (level l >? lv) eqn:E.
  - rewrite logging_rejected by lia. reflexivity.
  - rewrite logging_admitted by (assumption || lia). reflexivity.
Qed.

Lemma calm_quiet (evs : list event) : calm evs = true -> quiet evs = true.
Proof.
  unfold calm, quiet. induction evs as [|e evs IH]; [reflexivity|]. simpl.
  intros He. apply andb_true_iff in He as [He Hevs]. rewrite IH by assumption.
  now destruct e.
Qed.

Lemma call_events_plain (l : BasicLogger W) (c : call T) (tb : list (call T)) :
  Z.land (flags l) Lblocking = 0 -> plain c ->
  calm (call_events l c) = true ∧
  lock_ok false (call_events l c) = true ∧
  (length (call_events l c) <= 8)%nat ∧
  sends (call_events l c)
  ++ script (level_after (call_events l c) (level l)) (flags l) tb
  = script (level l) (flags l) (c :: tb).
Proof.
  intros Hfl Hc. destruct c as [lv c|n|]; [| |contradiction Hc].
  - rewrite call_events_leveled by exact Hc. cbn [script].
    destruct (level l >? lv); [simpl; repeat split; lia|].
    destruct (admitted_trace_async (flags l) (line_of (flags l) lv c) Hfl)
      as (Hcalm & Hlock & Hlen & Hsends & Hlvl).
    rewrite Hsends, Hlvl. auto.
  - simpl. repeat split; lia.
Qed.

Lemma call_events_wf (l : BasicLogger W) (c : call T) :
  Z.land (flags l) Lblocking = 0 -> wf_item c ->
  quiet (call_events l c) = true ∧
  lock_ok false (call_events l c) = true ∧
  (length (call_events l c) <= 8)%nat.
Proof.
  intros Hfl Hc. destruct c as [lv c|n|].
  - destruct (call_events_plain l (CLeveled lv c) [] Hfl Hc) as (Hcalm & Hlock & Hlen & _).
    auto using calm_quiet.
  - simpl. repeat split; lia.
  - simpl. repeat split; lia.
Qed.

End DeliveryProofs.

Section Preservation.
Context {W T : Type} `{Writer W} `{TimeAPI T}.
Variables (w0 : W) (fl cap : Z) (B : list logMessage).
Variables (closing : bool) (after : list (call T)).
Hypothesis Hasync : Z.land fl Lblocking = 0.
Hypothesis Hcap : 0 <= cap.
Hypothesis HB : forallb is_write B = true.
Hypothesis Hafter : Forall wf_item after.

Local Abbreviation Inv := (Inv w0 fl cap B closing after).
Local Abbreviation phase := (phase fl B closing after).

(** Splitting a state and its invariant into their parts. *)
Ltac open_state s Hinv :=
  destruct s as [[lvl fl' wr [q cp] lk g] wk p t h cl cr];
  destruct Hinv as [(Hcr & Hfl & Hcp & Hwr & Hlk & Hwk) Hph];
  simpl in Hcr, Hfl, Hcp, Hwr, Hlk, Hwk; subst cr fl' cp.

Lemma server_preserves (s s' : System W T) :
  Inv s -> step ServerG s = Some s' -> Inv s' ∧ (measure s' < measure s)%nat.
Proof.
  intros Hinv Hstep. open_state s Hinv.
  unfold step, server in Hstep. simpl in Hstep.
  destruct wk as [[|m|]|]; try discriminate Hstep.
  - (* the receive *)
    destruct q as [|m q]; [discriminate Hstep|]. injection Hstep as <-.
    split; [|unfold measure; simpl; lia].
    split; [unfold common; simpl; tauto|].
    destruct Hph as [tb Hcl Htodo Hplain Hcalm Heq|Hcl Hc Htodo Hp Heq
                     |Hcl Hc Htodo Hp Heq|Hcl Hc Hw Hq Ht]; simpl in *.
    + now apply (ph_open _ _ _ _ _ tb).
    + now apply ph_send.
    + now apply ph_wait.
    + discriminate Hw.
  - (* the command in hand *)
    destruct Hwk as [Hg Hh]. subst g. simpl in Hstep.
    destruct (cmd m =? write) eqn:Hm.
    + injection Hstep as <-. split; [|unfold measure; simpl; lia].
      split.
      * unfold common; simpl. repeat split; try assumption.
        -- rewrite records_snoc, Hwr. unfold is_write. rewrite Hm.
           rewrite writes_snoc. reflexivity.
        -- rewrite forallb_snoc, Hh. exact Hm.
      * destruct Hph as [tb Hcl Htodo Hplain Hcalm Heq|Hcl Hc Htodo Hp Heq
                         |Hcl Hc Htodo Hp Heq|Hcl Hc Hw Hq Ht]; simpl in *.
        -- apply (ph_open _ _ _ _ _ tb); simpl; try assumption.
           now rewrite <- app_assoc.
        -- apply ph_send; simpl; try assumption. now rewrite <- app_assoc.
        -- apply ph_wait; simpl; try assumption. now rewrite <- app_assoc.
        -- discriminate Hw.
    + injection Hstep as <-.
      destruct Hph as [tb Hcl Htodo Hplain Hcalm Heq|Hcl Hc Htodo Hp Heq
                       |Hcl Hc Htodo Hp Heq|Hcl Hc Hw Hq Ht]; simpl in *.
      * apply is_write_elem in Heq; [|exact HB]. unfold is_write in Heq. congruence.
      * apply is_write_elem in Heq; [|exact HB]. unfold is_write in Heq. congruence.
      * apply first_other_command in Heq as (-> & -> & ->); [|exact HB|exact Hm].
        split; [|unfold measure; simpl; lia].
        split.
        -- unfold common; simpl. repeat split; try assumption.
           rewrite records_snoc, Hwr. unfold is_write. rewrite Hm.
           now rewrite app_nil_r.
        -- apply ph_wait; simpl; try assumption. now rewrite app_nil_r.
      * discriminate Hw.
Qed.

(** An effect that moves no command, leaves the threshold alone and is
    neither a write, a panic nor a wait keeps the phase. *)
Lemma phase_skip (l l' : BasicLogger W) (wk : option wstate) (e : event)
    (p : list event) (t : list (call T)) (h : list logMessage) (cl : bool) :
  sends [e] = [] -> (∀ n, level_after [e] n = n) -> calm [e] = true ->
  level l' = level l -> queue (ch l') = queue (ch l) ->
  phase (MkSystem l wk (e :: p) t h cl false) ->
  phase (MkSystem l' wk p t h cl false).
Proof.
  intros Hs Hl Hc Hlv Hq Hph.
  assert (Hsp : sends (e :: p) = sends p)
    by (change (e :: p) with ([e] ++ p); rewrite sends_app, Hs; reflexivity).
  destruct Hph as [tb Hcl Htodo Hplain Hcalm Heq|Hcl Hcg Htodo Hp Heq
                   |Hcl Hcg Htodo Hp Heq|Hcl Hcg Hw Hq' Ht]; simpl in *.
  - apply (ph_open _ _ _ _ _ tb); simpl; try assumption.
    + apply andb_true_iff in Hcalm as [_ Hcalm]. exact Hcalm.
    + rewrite Hq, Hlv. rewrite Hsp in Heq.
      unfold level_after in *. simpl in Heq. specialize (Hl (level l)).
      simpl in Hl. rewrite Hl in Heq. exact Heq.
  - injection Hp as -> _. discriminate Hs.
  - injection Hp as -> _. discriminate Hc.
  - apply ph_closed; simpl; try assumption.
    apply andb_true_iff in Hq' as [_ Hq']. exact Hq'.
Qed.

Lemma caller_preserves (s s' : System W T) :
  Inv s -> step CallerG s = Some s' -> Inv s' ∧ (measure s' < measure s)%nat.
Proof.
  intros Hinv Hstep. open_state s Hinv.
  unfold step, caller_step in Hstep. simpl in Hstep.
  destruct p as [|e p].
  - (* the caller enters its next call *)
    destruct t as [|c cs]; [discriminate Hstep|]. injection Hstep as <-.
    simpl in Hlk. apply negb_true_iff in Hlk. subst lk.
    destruct Hph as [tb Hcl Htodo Hplain Hcalm Heq|Hcl Hcg Htodo Hp Heq
                     |Hcl Hcg Htodo Hp Heq|Hcl Hcg Hw Hq Ht]; simpl in *;
      try discriminate Hp.
    + destruct tb as [|c' tb].
      * unfold and_then in Htodo. destruct closing; [|discriminate Htodo].
        injection Htodo as -> ->.
        split; [|unfold measure; simpl; lia].
        split; [unfold common; simpl; tauto|].
        apply ph_send; simpl; try assumption; try reflexivity.
        now rewrite !app_nil_r in Heq.
      * injection Htodo as <- ->.
        pose proof (Forall_inv Hplain) as Hc.
        pose proof (Forall_inv_tail Hplain) as Htb.
        match goal with
        | |- context [call_events ?l c] =>
            destruct (call_events_plain l c tb Hasync Hc)
              as (Hcalm' & Hlock' & Hlen' & Hscript)
        end.
        simpl in Hscript.
        split; [|unfold measure; simpl; rewrite length_app; lia].
        split; [unfold common; simpl; tauto|].
        apply (ph_open _ _ _ _ _ tb); simpl; try assumption; try reflexivity.
        rewrite Hscript. exact Heq.
    + pose proof (Forall_inv Ht) as Hc. pose proof (Forall_inv_tail Ht) as Hcs.
      match goal with
      | |- context [call_events ?l c] =>
          destruct (call_events_wf l c Hasync Hc) as (Hquiet' & Hlock' & Hlen')
      end.
      split; [|unfold measure; simpl; lia].
      split; [unfold common; simpl; tauto|].
      apply ph_closed; simpl; assumption.
  - (* the caller performs an effect *)
    assert (Hskip : ∀ l', level l' = lvl -> flags l' = fl -> writer l' = wr ->
              queue (ch l') = q -> capacity (ch l') = cap -> wg l' = g ->
              lock_ok (lock l') p = true ->
              sends [e] = [] -> (∀ n, level_after [e] n = n) -> calm [e] = true ->
              Inv (MkSystem l' wk p t h cl false) ∧
              (measure (MkSystem l' wk p t h cl false)
               < measure (MkSystem (MkLogger lvl fl wr (Chan q cap) lk g) wk
                                   (e :: p) t h cl false))%nat).
    { intros l' Hlv Hfl' Hwr' Hq' Hcp' Hg' Hlk' Hs He Hc.
      split; [|unfold measure; simpl; rewrite Hq'; lia].
      split.
      - unfold common; simpl. rewrite Hfl', Hcp', Hwr', Hg'. tauto.
      - eapply phase_skip; [exact Hs|exact He|exact Hc| | |exact Hph]; simpl;
          assumption. }
    destruct e; simpl in Hstep, Hlk.
    + injection Hstep as <-. now apply Hskip.
    + injection Hstep as <-. now apply Hskip.
    + injection Hstep as <-. now apply Hskip.
    + injection Hstep as <-. now apply Hskip.
    + (* Lock *)
      destruct lk; [discriminate Hstep|]. injection Hstep as <-.
      now apply Hskip.
    + (* Unlock *)
      destruct lk; [|discriminate Hlk]. injection Hstep as <-.
      now apply Hskip.
    + injection Hstep as <-. now apply Hskip.
    + injection Hstep as <-. now apply Hskip.
    + (* the send *)
      clear Hskip.
      destruct (Z.of_nat (length q) <? cap) eqn:Hroom; simpl in Hstep.
      * injection Hstep as <-.
        split; [|unfold measure; simpl; rewrite length_app; simpl; lia].
        split; [unfold common; simpl; tauto|].
        destruct Hph as [tb Hcl Htodo Hplain Hcalm Heq|Hcl Hcg Htodo Hp Heq
                         |Hcl Hcg Htodo Hp Heq|Hcl Hcg Hw Hq Ht]; simpl in *;
          try discriminate Hp.
        -- apply (ph_open _ _ _ _ _ tb); simpl; try assumption.
           rewrite <- Heq, <- !app_assoc. reflexivity.
        -- injection Hp as -> ->. apply ph_wait; simpl; try assumption; try reflexivity.
           rewrite <- Heq, <- !app_assoc. reflexivity.
        -- apply ph_closed; simpl; assumption.
      * destruct q as [|m' q]; [|discriminate Hstep].
        destruct wk as [[|m'|]|]; try discriminate Hstep.
        injection Hstep as <-.
        split; [|unfold measure; simpl; lia].
        split; [unfold common; simpl; tauto|].
        destruct Hph as [tb Hcl Htodo Hplain Hcalm Heq|Hcl Hcg Htodo Hp Heq
                         |Hcl Hcg Htodo Hp Heq|Hcl Hcg Hw Hq Ht]; simpl in *;
          try discriminate Hp; try discriminate Hw.
        -- apply (ph_open _ _ _ _ _ tb); simpl; try assumption.
        -- injection Hp as -> ->. apply ph_wait; simpl; try assumption; try reflexivity.
           rewrite app_nil_r in Heq. now rewrite Heq.
    + (* a write to the sink: none in asynchronous mode *)
      destruct Hph as [tb Hcl Htodo Hplain Hcalm Heq|Hcl Hcg Htodo Hp Heq
                       |Hcl Hcg Htodo Hp Heq|Hcl Hcg Hw Hq Ht]; simpl in *;
        discriminate.
    + (* SetLogLevel *)
      clear Hskip. injection Hstep as <-.
      split; [|unfold measure; simpl; lia].
      split; [unfold common; simpl; tauto|].
      destruct Hph as [tb Hcl Htodo Hplain Hcalm Heq|Hcl Hcg Htodo Hp Heq
                       |Hcl Hcg Htodo Hp Heq|Hcl Hcg Hw Hq Ht]; simpl in *;
        try discriminate Hp.
      * now apply (ph_open _ _ _ _ _ tb).
      * now apply ph_closed.
    + (* the wait of Close *)
      clear Hskip. destruct (g =? 0) eqn:Hg; [|discriminate Hstep].
      apply Z.eqb_eq in Hg. subst g. injection Hstep as <-.
      split; [|unfold measure; simpl; lia].
      split; [unfold common; simpl; tauto|].
      destruct Hph as [tb Hcl Htodo Hplain Hcalm Heq|Hcl Hcg Htodo Hp Heq
                       |Hcl Hcg Htodo Hp Heq|Hcl Hcg Hw Hq Ht]; simpl in *;
        try discriminate.
      * injection Hp as ->. subst t.
        destruct wk as [[|m'|]|]; try (destruct Hwk; discriminate); try contradiction.
        now apply ph_closed.
      * now apply ph_closed.
    + (* a panic: none *)
      destruct Hph as [tb Hcl Htodo Hplain Hcalm Heq|Hcl Hcg Htodo Hp Heq
                       |Hcl Hcg Htodo Hp Heq|Hcl Hcg Hw Hq Ht]; simpl in *;
        discriminate.
Qed.

Lemma moves_preserve (s s' : System W T) :
  Inv s -> moves s s' -> Inv s' ∧ (measure s' < measure s)%nat.
Proof.
  intros Hinv [[|] Hstep]; [now apply caller_preserves|now apply server_preserves].
Qed.

Lemma reachable_Inv (s0 s : System W T) : Inv s0 -> reachable s0 s -> Inv s.
Proof.
  intros Hinv Hreach. induction Hreach as [|s s' _ IH Hmove]; [exact Hinv|].
  exact (proj1 (moves_preserve s s' IH Hmove)).
Qed.

(** Before [Close] has returned some goroutine can move, unless the
    caller has no [Close] to call and every command has been handled. *)
Lemma progress (s : System W T) :
  Inv s -> closed s = false ->
  (∃ s', moves s s') ∨
  (closing = false ∧ pending s = [] ∧ todo s = [] ∧ handled s = B).
Proof.
  intros Hinv Hopen. open_state s Hinv. simpl in Hopen. subst cl.
  assert (Hserver : ∀ s1, server (MkSystem (MkLogger lvl fl wr (Chan q cap) lk g)
                                    wk p t h false false) = Some s1 ->
                          ∃ s', moves (MkSystem (MkLogger lvl fl wr (Chan q cap) lk g)
                                         wk p t h false false) s').
  { intros s1 Hs1. exists s1, ServerG. exact Hs1. }
  assert (Hcaller : ∀ s1, caller_step (MkSystem (MkLogger lvl fl wr (Chan q cap) lk g)
                                         wk p t h false false) = Some s1 ->
                          ∃ s', moves (MkSystem (MkLogger lvl fl wr (Chan q cap) lk g)
                                         wk p t h false false) s').
  { intros s1 Hs1. exists s1, CallerG. exact Hs1. }
  assert (Hlen : ∀ x y : list logMessage, (B ++ x) ++ y = B -> x = []).
  { intros x y Hxy. apply (f_equal length) in Hxy. rewrite !length_app in Hxy.
    destruct x; [reflexivity|simpl in Hxy; lia]. }
  destruct wk as [[|m|]|]; [| | |contradiction Hwk].
  - (* the server stands at its receive *)
    destruct q as [|m q]; [|left; eapply Hserver; reflexivity].
    destruct Hwk as [Hg Hh].
    destruct p as [|e p].
    + destruct t as [|c cs]; [|left; eapply Hcaller; reflexivity].
      destruct Hph as [tb Hcl Htodo Hplain Hcalm Heq|Hcl Hcg Htodo Hp Heq
                       |Hcl Hcg Htodo Hp Heq|Hcl Hcg Hw Hq Ht]; simpl in *;
        try discriminate.
      right. destruct tb; [|discriminate Htodo]. simpl in Htodo.
      unfold and_then in Htodo. destruct closing; [discriminate Htodo|].
      rewrite !app_nil_r in Heq. auto.
    + destruct e; simpl in Hlk;
        try (left; eapply Hcaller; reflexivity).
      * destruct lk; [discriminate Hlk|]. left. eapply Hcaller. reflexivity.
      * destruct lk; left; eapply Hcaller; reflexivity.
      * left. destruct cap; eapply Hcaller; reflexivity.
      * destruct Hph as [tb Hcl Htodo Hplain Hcalm Heq|Hcl Hcg Htodo Hp Heq
                         |Hcl Hcg Htodo Hp Heq|Hcl Hcg Hw Hq Ht]; simpl in *;
          try discriminate.
        rewrite !app_nil_r in Heq. subst h.
        rewrite forallb_snoc in Hh. apply andb_true_iff in Hh as [_ Hh].
        discriminate Hh.
  - (* the server holds a command *)
    left. destruct Hwk as [-> _]. unfold server in Hserver. simpl in Hserver.
    destruct (cmd m =? write); eapply Hserver; reflexivity.
  - (* the server has left its loop *)
    destruct Hwk as [-> ->].
    destruct Hph as [tb Hcl Htodo Hplain Hcalm Heq|Hcl Hcg Htodo Hp Heq
                     |Hcl Hcg Htodo Hp Heq|Hcl Hcg Hw Hq Ht]; simpl in *;
      try discriminate.
    + apply (Hlen [exit_command]) in Heq. discriminate Heq.
    + apply (Hlen [exit_command]) in Heq. discriminate Heq.
    + left. subst p. eapply Hcaller. reflexivity.
Qed.

End Preservation.

(** Progress and a decreasing measure make a goal inevitable. *)
Lemma inevitably_by_measure {W T : Type} `{Writer W} `{TimeAPI T}
    (I P : System W T -> Prop) :
  (∀ s s', I s -> moves s s' -> I s' ∧ (measure s' < measure s)%nat) ->
  (∀ s, I s -> P s ∨ ∃ s', moves s s') ->
  ∀ s, I s -> inevitably P s.
Proof.
  intros Hstep Hprog s. remember (measure s) as n eqn:Hn. revert s Hn.
  induction n as [n IH] using lt_wf_ind. intros s -> Hs.
  destruct (Hprog s Hs) as [HP|Hmove]; [now apply inev_now|].
  apply inev_later; [exact Hmove|].
  intros s' Hs'. destruct (Hstep s s' Hs Hs') as [HI Hlt].
  exact (IH (measure s') Hlt s' eq_refl HI).
Qed.

(** [make] returns a channel only for a size within the range of the
    runtime and with the memory granted. *)
Lemma make_chan_Ok {F W : Type} (host : Host F W) (n : Z) (c : chan) :
  make_chan host n = Ok c ->
  c = Chan [] n ∧ 0 <= n ∧ logMessage_size * n <= maxAlloc - hchanSize ∧
  runtime_alloc host (hchanSize + logMessage_size * n) = true.
Proof.
  unfold make_chan. intros Hc.
  destruct (n <? 0) eqn:Hneg; [discriminate Hc|].
  destruct (maxAlloc - hchanSize <? logMessage_size * n) eqn:Hbig; [discriminate Hc|].
  destruct (runtime_alloc host (hchanSize + logMessage_size * n)) eqn:Hmem;
    [|discriminate Hc].
  injection Hc as <-. apply Z.ltb_ge in Hneg, Hbig. auto.
Qed.

Section DeliveryClaims.
Context {F W T : Type} `{Writer W} `{TimeAPI T}.

(** What [NewLogger] leaves behind in asynchronous mode. *)
Lemma boot_async (host : Host F W) (path : bytes) (lvl cap fl : Z)
    (calls : list (call T)) (s0 : System W T) :
  Z.land fl Lblocking = 0 ->
  boot (NewLogger host path lvl cap fl) calls = Some s0 ->
  0 <= cap ∧
  ∃ w0, s0 = MkSystem (MkLogger lvl fl w0 (Chan [] cap) false 1)
                      (Some WIdle) [] calls [] false false.
Proof.
  intros Hfl Hboot. unfold boot, NewLogger in Hboot.
  unfold ask, emit, lift in Hboot.
  destruct (os_OpenFile host path) as [f|]; [|discriminate Hboot].
  destruct (make_chan host cap) as [c| |] eqn:Hmk; try discriminate Hboot.
  apply make_chan_Ok in Hmk as (-> & Hcap & _).
  rewrite Hfl in Hboot. simpl in Hboot. injection Hboot as <-.
  split; [lia|]. eexists. reflexivity.
Qed.

Lemma script_plain (lvl fl : Z) (cs : list (call T)) :
  Forall plain cs -> forallb is_write (script lvl fl cs) = true.
Proof.
  intros Hcs. revert lvl. induction Hcs as [|c cs Hc _ IH]; intros lvl;
    [reflexivity|].
  destruct c as [lv c|n|]; [| |contradiction Hc]; simpl.
  - destruct (lvl >? lv); simpl; apply IH.
  - apply IH.
Qed.

Lemma script_leveled (lvl fl : Z) (items : list (Z * Call T)) :
  Forall (fun it => lvl <= fst it ∧ wf_call (snd it)) items ->
  script lvl fl (leveled items) = map (LogMessage write) (lines_of fl items) ∧
  Forall plain (leveled items).
Proof.
  intros Hit. induction Hit as [|[lv c] items [Hlv Hwf] _ [IH1 IH2]];
    [split; [reflexivity|constructor]|].
  simpl in *. split; [|constructor; assumption].
  destruct (lvl >? lv) eqn:E; [lia|]. simpl. now rewrite IH1.
Qed.

Lemma records_of_lines (ls : list bytes) : records (map (LogMessage write) ls) = ls.
Proof. induction ls as [|l ls IH]; [reflexivity|]. simpl. now rewrite IH. Qed.

Lemma Inv_start (w0 : W) (lvl fl cap : Z) (closing : bool)
    (before after : list (call T)) :
  Forall plain before ->
  Inv w0 fl cap (script lvl fl before) closing after
      (MkSystem (MkLogger lvl fl w0 (Chan [] cap) false 1) (Some WIdle) []
                (before ++ and_then closing after) [] false false).
Proof.
  intros Hb. split.
  - unfold common. simpl. tauto.
  - apply (ph_open _ _ _ _ _ before); simpl; try reflexivity; try assumption.
Qed.

Lemma prefix_take {A : Type} (h r l : list A) : h ++ r = l -> h = take (length h) l.
Proof. intros <-. now rewrite take_app_length. Qed.

(** C1.  In asynchronous mode, for one caller that issues [N] leveled
    calls which all pass the level gate, the server writes the [N]
    formatted lines to the sink in the order of the calls: at every
    moment of every execution the sink holds the first [k] lines,
    written in that order, and every execution reaches the state in
    which all [N] lines are written. *)
Theorem fifo_delivery (host : Host F W) (path : bytes) (lvl cap fl : Z)
    (items : list (Z * Call T)) (s0 : System W T) :
  Z.land fl Lblocking = 0 ->
  boot (NewLogger host path lvl cap fl) (leveled items) = Some s0 ->
  Forall (fun it => lvl <= fst it ∧ wf_call (snd it)) items ->
  length (lines_of fl items) = length items ∧
  Forall (fun it => emitted (trace (logging (logger s0) (fst it) (snd it)))
                    = [line_of fl (fst it) (snd it)]) items ∧
  (∀ s, reachable s0 s ->
        ∃ k, handled s = map (LogMessage write) (take k (lines_of fl items)) ∧
             writer (logger s)
             = writes (writer (logger s0)) (take k (lines_of fl items))) ∧
  inevitably (fun s => handled s = map (LogMessage write) (lines_of fl items) ∧
                       writer (logger s)
                       = writes (writer (logger s0)) (lines_of fl items)) s0.
Proof.
  intros Hfl Hboot Hitems.
  destruct (boot_async host path lvl cap fl _ s0 Hfl Hboot) as [Hcap [w0 ->]].
  destruct (script_leveled lvl fl items Hitems) as [Hscript Hplain].
  pose proof (script_plain lvl fl _ Hplain) as HB.
  pose proof (Inv_start w0 lvl fl cap false (leveled items) [] Hplain) as Hinv.
  simpl and_then in Hinv. rewrite app_nil_r in Hinv. rewrite Hscript in Hinv, HB.
  assert (Hafter : Forall (@wf_item T _) []) by constructor.
  split; [unfold lines_of; apply length_map|]. split.
  { eapply Forall_impl; [exact Hitems|]. intros [lv c] [Hlv Hwf]. simpl in *.
    rewrite logging_admitted by assumption. apply emitted_admitted. }
  split.
  - intros s Hreach.
    pose proof (reachable_Inv w0 fl cap _ false [] Hfl HB Hafter _ s Hinv Hreach)
      as [(_ & _ & _ & Hwr & _) Hph].
    destruct Hph as [tb Hcl Htodo Hpl Hcalm Heq|? Hc|? Hc|? Hc]; try discriminate Hc.
    apply prefix_take in Heq. rewrite <- fmap_take in Heq.
    exists (length (handled s)). split; [exact Heq|].
    simpl. rewrite Hwr. rewrite Heq at 1. now rewrite records_of_lines.
  - apply (inevitably_by_measure
             (Inv w0 fl cap (map (LogMessage write) (lines_of fl items)) false [])).
    + intros s s'. now apply moves_preserve.
    + intros s Hs. pose proof Hs as [(_ & _ & _ & Hwr & _) Hph].
      assert (Hopen : closed s = false).
      { destruct Hph as [tb Hcl|Hcl|Hcl|? Hc]; try assumption. discriminate Hc. }
      destruct (progress w0 fl cap _ false [] Hcap s Hs Hopen)
        as [Hmove|(_ & _ & _ & Hh)]; [now right|].
      left. split; [exact Hh|]. simpl. rewrite Hwr, Hh.
      now rewrite records_of_lines.
    + exact Hinv.
Qed.

(** C2.  In asynchronous mode [Close] sends the terminate command and
    returns once the server has left its loop.  The server handles the
    commands in the order in which they were sent, the terminate command
    last; so when [Close] has returned, every record that the calls
    before it enqueued is in the sink, in order, and neither the sink
    nor the server's history changes afterwards.  [Close] does return
    in every execution. *)
Theorem close_drains (host : Host F W) (path : bytes) (lvl cap fl : Z)
    (before after : list (call T)) (s0 : System W T) :
  Z.land fl Lblocking = 0 ->
  boot (NewLogger host path lvl cap fl) (before ++ CClose :: after) = Some s0 ->
  Forall plain before -> Forall wf_item after ->
  forallb is_write (script lvl fl before) = true ∧
  (∀ s, reachable s0 s ->
        (∃ k, handled s = take k (script lvl fl before ++ [exit_command])) ∧
        writer (logger s) = writes (writer (logger s0)) (records (handled s)) ∧
        (closed s = true ->
         worker s = Some WDone ∧
         handled s = script lvl fl before ++ [exit_command] ∧
         writer (logger s)
         = writes (writer (logger s0)) (map buf (script lvl fl before)))) ∧
  inevitably (fun s => closed s = true) s0.
Proof.
  intros Hfl Hboot Hbefore Hafter.
  destruct (boot_async host path lvl cap fl _ s0 Hfl Hboot) as [Hcap [w0 ->]].
  pose proof (script_plain lvl fl _ Hbefore) as HB.
  pose proof (Inv_start w0 lvl fl cap true before after Hbefore) as Hinv.
  simpl and_then in Hinv.
  split; [exact HB|]. split.
  - intros s Hreach.
    pose proof (reachable_Inv w0 fl cap _ true after Hfl HB Hafter _ s Hinv Hreach)
      as [(_ & _ & _ & Hwr & _ & Hwk) Hph].
    split; [|split; [exact Hwr|]].
    + destruct Hph as [tb Hcl Htodo Hpl Hcalm Heq|Hcl Hc Htodo Hp Heq
                       |Hcl Hc Htodo Hp Heq|Hcl Hc Hw Hq Ht].
      * exists (length (handled s)). rewrite <- Heq, <- !app_assoc.
        now rewrite take_app_length.
      * exists (length (handled s)). rewrite <- Heq, <- !app_assoc.
        now rewrite take_app_length.
      * exists (length (handled s)). rewrite <- Heq.
        now rewrite take_app_length.
      * rewrite Hw in Hwk. destruct Hwk as [_ ->].
        exists (length (script lvl fl before ++ [exit_command])).
        now rewrite firstn_all.
    + intros Hcl.
      destruct Hph as [tb Hcl'|Hcl'|Hcl'|_ _ Hw _ _]; try congruence.
      rewrite Hw in Hwk. destruct Hwk as [_ Hh].
      split; [exact Hw|]. split; [exact Hh|].
      rewrite Hwr, Hh, records_snoc, app_nil_r.
      now rewrite records_writes.
  - apply (inevitably_by_measure (Inv w0 fl cap (script lvl fl before) true after)).
    + intros s s'. now apply moves_preserve.
    + intros s Hs. destruct (closed s) eqn:Hcl; [now left|].
      destruct (progress w0 fl cap _ true after Hcap s Hs Hcl) as [Hmove|[Hc _]];
        [now right|discriminate Hc].
    + exact Hinv.
Qed.

End DeliveryClaims.

Lemma fifo_delivery_witness :
  length (lines_of LstdFlags Sample.items) = length Sample.items ∧
  Forall (fun it => emitted (trace (logging
                      (logger (Sample.started LstdFlags 2 (leveled Sample.items)))
                      (fst it) (snd it)))
                    = [line_of LstdFlags (fst it) (snd it)]) Sample.items ∧
  (∀ s, reachable (Sample.started LstdFlags 2 (leveled Sample.items)) s ->
        ∃ k, handled s = map (LogMessage write) (take k (lines_of LstdFlags Sample.items)) ∧
             writer (logger s)
             = writes (writer (logger (Sample.started LstdFlags 2 (leveled Sample.items))))
                      (take k (lines_of LstdFlags Sample.items))) ∧
  inevitably
    (fun s => handled s = map (LogMessage write) (lines_of LstdFlags Sample.items) ∧
              writer (logger s)
              = writes (writer (logger (Sample.started LstdFlags 2 (leveled Sample.items))))
                       (lines_of LstdFlags Sample.items))
    (Sample.started LstdFlags 2 (leveled Sample.items)).
Proof.
  apply (fifo_delivery Sample.host (lit "/var/log/app.log") Info 2 LstdFlags
           Sample.items (Sample.started LstdFlags 2 (leveled Sample.items))).
  - reflexivity.
  - vm_compute. reflexivity.
  - unfold Sample.items.
    repeat (apply List.Forall_cons;
            [split; [vm_compute; discriminate|apply utter_wf]|]).
    apply List.Forall_nil.
Defined.

Lemma close_drains_witness :
  forallb is_write (script Info LstdFlags (leveled Sample.items)) = true ∧
  (∀ s, reachable (Sample.started LstdFlags 0
                     (leveled Sample.items ++ CClose :: [CLeveled Error (Sample.say "late")])) s ->
        (∃ k, handled s
              = take k (script Info LstdFlags (leveled Sample.items) ++ [exit_command])) ∧
        writer (logger s)
        = writes (writer (logger (Sample.started LstdFlags 0
                     (leveled Sample.items ++ CClose :: [CLeveled Error (Sample.say "late")]))))
                 (records (handled s)) ∧
        (closed s = true ->
         worker s = Some WDone ∧
         handled s = script Info LstdFlags (leveled Sample.items) ++ [exit_command] ∧
         writer (logger s)
         = writes (writer (logger (Sample.started LstdFlags 0
                     (leveled Sample.items ++ CClose :: [CLeveled Error (Sample.say "late")]))))
                  (map buf (script Info LstdFlags (leveled Sample.items))))) ∧
  inevitably (fun s => closed s = true)
    (Sample.started LstdFlags 0
       (leveled Sample.items ++ CClose :: [CLeveled Error (Sample.say "late")])).
Proof.
  apply (close_drains Sample.host (lit "/var/log/app.log") Info 0 LstdFlags
           (leveled Sample.items) [CLeveled Error (Sample.say "late")]
           (Sample.started LstdFlags 0
              (leveled Sample.items ++ CClose :: [CLeveled Error (Sample.say "late")]))).
  - reflexivity.
  - vm_compute. reflexivity.
  - cbv [leveled Sample.items map fst snd].
    repeat (apply List.Forall_cons; [apply utter_wf|]). apply List.Forall_nil.
  - apply List.Forall_cons; [apply utter_wf|apply List.Forall_nil].
Defined.

(** ** [Close] in synchronous mode (C8) *)

Lemma run_stuck {W T : Type} `{Writer W} `{TimeAPI T} (s : System W T) :
  (∀ a, step a s = None) -> ∀ sched, run sched s = s.
Proof.
  intros Hstuck sched. induction sched as [|a sched IH]; [reflexivity|].
  simpl. now rewrite Hstuck.
Qed.

(** C8 at its failing inputs.  [Close] tests no flag: in synchronous mode,
    where [NewLogger] started no server, it still sends the terminate
    command on the channel.  With [bufferSize = 0] no receiver ever comes
    and [Close] never returns, under any schedule; with [bufferSize = 1]
    it returns and leaves the terminate command in the channel. *)
Theorem Close_in_sync_mode_sends_on_channel :
  ∃ s0 s1 : System Sample.Tape Sample.Stamp,
    boot (NewLogger Sample.host (lit "/var/log/app.log") Info 0 Lblocking) [CClose]
    = Some s0 ∧
    worker s0 = None ∧
    (∀ sched, closed (run sched s0) = false ∧
              (pending (run sched s0) = [] ∨
               pending (run sched s0) = [EvSend exit_command; EvWait])) ∧
    boot (NewLogger Sample.host (lit "/var/log/app.log") Info 1 Lblocking) [CClose]
    = Some s1 ∧
    worker s1 = None ∧ queue (ch (logger s1)) = [] ∧
    closed (run [CallerG; CallerG; CallerG] s1) = true ∧
    queue (ch (logger (run [CallerG; CallerG; CallerG] s1))) = [exit_command].
Proof.
  exists (MkSystem (Sample.logger_with Lblocking 0) None [] [CClose] [] false false),
         (MkSystem (Sample.logger_with Lblocking 1) None [] [CClose] [] false false).
  split; [vm_compute; reflexivity|]. split; [reflexivity|].
  split; [|repeat split; vm_compute; reflexivity].
  set (s0 := MkSystem (Sample.logger_with Lblocking 0) None [] [CClose] [] false false).
  set (s1 := MkSystem (T := Sample.Stamp) (Sample.logger_with Lblocking 0) None
                      [EvSend exit_command; EvWait] [] [] false false).
  assert (Hs1 : ∀ a, step a s1 = None) by (intros [|]; vm_compute; reflexivity).
  assert (Hc : step CallerG s0 = Some s1) by (vm_compute; reflexivity).
  assert (Hs : step ServerG s0 = None) by (vm_compute; reflexivity).
  intros sched. induction sched as [|[|] sched IH]; cbn [run].
  - split; [reflexivity|now left].
  - rewrite Hc. change (default s0 (Some s1)) with s1.
    rewrite (run_stuck s1 Hs1). split; [reflexivity|now right].
  - rewrite Hs. exact IH.
Qed.

(** ** Errors (C9) *)

Section ErrorClaims.
Context {F W T : Type} `{Writer W} `{TimeAPI T}.

(** C9.  [NewLogger] returns an error, and then no logger, exactly when
    the destination cannot be opened, and it tries to open it once.  When
    the destination opens, no error is returned: [NewLogger] returns the
    logger or panics in [make], and it returns the logger when the buffer
    size is within the range that [make] accepts and the memory for the
    channel is there.  After that no leveled call fails: a call returns
    normally whatever the sink does, because the result of [Write] is
    dropped both by the caller in synchronous mode and by the server,
    which goes back to its receive after a failed write as after a good
    one. *)
Theorem errors_only_from_NewLogger (host : Host F W) (path : bytes)
    (lvl cap fl : Z) (l : BasicLogger W) (lv : Z) (c : Call T) :
  wf_call c ->
  (os_OpenFile host path = None ↔
   ∃ e, result (NewLogger host path lvl cap fl) = Ok (None, Some e)) ∧
  (∀ r e, result (NewLogger host path lvl cap fl) = Ok (r, Some e) -> r = None) ∧
  (os_OpenFile host path ≠ None ->
   result (NewLogger host path lvl cap fl) = Panic ∨
   ∃ l0, result (NewLogger host path lvl cap fl) = Ok (Some l0, None)) ∧
  (os_OpenFile host path ≠ None ->
   0 <= cap -> logMessage_size * cap <= maxAlloc - hchanSize ->
   runtime_alloc host (hchanSize + logMessage_size * cap) = true ->
   ∃ l0, result (NewLogger host path lvl cap fl) = Ok (Some l0, None)) ∧
  open_attempts (trace (NewLogger host path lvl cap fl)) = 1%nat ∧
  result (logging l lv c) = Ok tt ∧
  (∀ (s : System W T) p rest,
     pending s = EvWrite p :: rest -> crashed s = false ->
     step CallerG s
     = Some (set_pending (set_logger s (set_writer (logger s)
                                          (fst (Write (writer (logger s)) p)))) rest)) ∧
  (∀ (s : System W T) m,
     worker s = Some (WHold m) -> cmd m = write -> crashed s = false ->
     ∃ s', step ServerG s = Some s' ∧ worker s' = Some WIdle ∧ crashed s' = false ∧
           writer (logger s') = fst (Write (writer (logger s)) (buf m))).
Proof.
  intros Hwf.
  assert (Hnew : ∀ f, os_OpenFile host path = Some f ->
            result (NewLogger host path lvl cap fl) = Panic
            ∧ make_chan host cap = Panic ∨
            ∃ l0, result (NewLogger host path lvl cap fl) = Ok (Some l0, None)).
  { intros f Hf. unfold NewLogger, ask, emit, lift. rewrite Hf.
    destruct (make_chan host cap) as [c0| |] eqn:Hmk.
    - right. destruct (Z.land fl Lblocking =? 0); eexists; reflexivity.
    - left. split; reflexivity.
    - exfalso. unfold make_chan in Hmk.
      destruct ((cap <? 0) || (maxAlloc - hchanSize <? logMessage_size * cap));
        [discriminate Hmk|].
      destruct (runtime_alloc host (hchanSize + logMessage_size * cap));
        discriminate Hmk. }
  split; [|split; [|split; [|split; [|split; [|split; [|split]]]]]].
  - split.
    + intros Hnone. eexists. unfold NewLogger, ask. rewrite Hnone. reflexivity.
    + intros [e He]. destruct (os_OpenFile host path) as [f|] eqn:Hf; [|reflexivity].
      destruct (Hnew f eq_refl) as [[Hp _]|[l0 Hl0]]; congruence.
  - intros r e Hr. destruct (os_OpenFile host path) as [f|] eqn:Hf.
    + destruct (Hnew f eq_refl) as [[Hp _]|[l0 Hl0]]; congruence.
    + unfold NewLogger, ask in Hr. rewrite Hf in Hr. simpl in Hr. congruence.
  - intros Hopen. destruct (os_OpenFile host path) as [f|] eqn:Hf; [|contradiction].
    destruct (Hnew f eq_refl) as [[Hp _]|Hl0]; [now left|now right].
  - intros Hopen Hcap Hfit Hmem.
    destruct (os_OpenFile host path) as [f|] eqn:Hf; [|contradiction].
    destruct (Hnew f eq_refl) as [[_ Hmk]|Hl0]; [|exact Hl0].
    unfold make_chan in Hmk. rewrite Hmem in Hmk.
    destruct (cap <? 0) eqn:Hneg; [apply Z.ltb_lt in Hneg; lia|].
    destruct (maxAlloc - hchanSize <? logMessage_size * cap) eqn:Hbig;
      [apply Z.ltb_lt in Hbig; lia|discriminate Hmk].
  - unfold NewLogger, ask, emit, lift.
    destruct (os_OpenFile host path) as [f|]; [|reflexivity].
    destruct (make_chan host cap) as [c0| |]; try reflexivity.
    destruct (Z.land fl Lblocking =? 0); reflexivity.
  - destruct (Z_lt_dec lv (level l)).
    + now rewrite logging_rejected.
    + rewrite logging_admitted by (assumption || lia). reflexivity.
  - intros s p rest Hp Hc. unfold step, caller_step. rewrite Hc, Hp. reflexivity.
  - intros s m Hw Hm Hc. unfold step, server. rewrite Hc, Hw, Hm.
    eexists. split; [reflexivity|]. simpl. auto.
Qed.

End ErrorClaims.

Lemma errors_only_from_NewLogger_witness :
  result (NewLogger Sample.broken_host (lit "/etc/app.log") Info 4 Lblocking)
  = Ok (None, Some (errors_New (lit "file creation fail"))) ∧
  (∃ l0, result (NewLogger Sample.broken_host (lit "/var/log/app.log") Info 4 Lblocking)
         = Ok (Some l0, None)) ∧
  result (logging (MkLogger Info Lblocking Sample.broken (Chan [] 4) false 0) Error
            (Sample.say "disk full")) = Ok tt.
Proof.
  pose proof (errors_only_from_NewLogger Sample.broken_host (lit "/etc/app.log") Info 4
                Lblocking (MkLogger Info Lblocking Sample.broken (Chan [] 4) false 0)
                Error (Sample.say "disk full") (utter_wf _))
    as ([Hfail _] & _ & _ & _ & _ & Hcall & _).
  pose proof (errors_only_from_NewLogger Sample.broken_host (lit "/var/log/app.log")
                Info 4 Lblocking
                (MkLogger Info Lblocking Sample.broken (Chan [] 4) false 0)
                Error (Sample.say "disk full") (utter_wf _))
    as (_ & _ & _ & Hok & _).
  split; [|split].
  - destruct (Hfail ltac:(vm_compute; reflexivity)) as [e He].
    vm_compute. reflexivity.
  - apply Hok; [vm_compute; discriminate|lia|vm_compute; discriminate|reflexivity].
  - exact Hcall.
Defined.

(** * Further properties of the code *)

(** ** [itoa] on any [int] *)

Lemma quot_int (i d : Z) : is_int i -> 1 <= d -> is_int (Z.quot i d).
Proof.
  unfold is_int, int_min, int_max. intros Hi Hd.
  destruct (Z_lt_dec i 0) as [Hneg|Hpos].
  - rewrite <- (Z.opp_involutive i), Z.quot_opp_l by lia.
    rewrite Z.quot_div_nonneg by lia.
    pose proof (Z.div_pos (- i) d). pose proof (Z.div_le_upper_bound (- i) d (- i)).
    assert (- i <= d * - i) by nia. lia.
  - rewrite Z.quot_div_nonneg by lia.
    pose proof (Z.div_pos i d). pose proof (Z.div_le_upper_bound i d i).
    assert (i <= d * i) by nia. lia.
Qed.

Lemma quot10_small (i : Z) : i < 10 -> Z.quot i 10 <= 0.
Proof.
  intros Hi. destruct (Z_lt_dec i 0) as [Hneg|Hpos].
  - rewrite <- (Z.opp_involutive i), Z.quot_opp_l by lia.
    rewrite Z.quot_div_nonneg by lia. pose proof (Z.div_pos (- i) 10). lia.
  - rewrite Z.quot_div_nonneg, Z.div_small by lia. lia.
Qed.

(** Below 10 the loop only pads: it runs [wid - 1] times. *)
Lemma itoa_loop_pads (fuel : nat) : ∀ (b : bytes) (bp i wid : Z),
  is_int i -> i < 10 -> wid <= 20 ->
  Z.max 0 (wid - 1) <= bp < Z.of_nat (length b) -> Z.of_nat (length b) <= 20 ->
  Z.max 0 (wid - 1) <= Z.of_nat fuel ->
  ∃ b' i',
    itoa_loop fuel b bp i wid = Ok (b', bp - Z.max 0 (wid - 1), i') ∧
    length b' = length b.
Proof.
  induction fuel as [|fuel IH]; intros b bp i wid Hi Hlt Hw Hbp Hb Hfuel.
  - simpl. destruct (i >=? 10) eqn:E1; [lia|]. destruct (wid >? 1) eqn:E2; [lia|].
    exists b, i. simpl. split; [do 3 f_equal; lia|reflexivity].
  - cbn [itoa_loop]. destruct (i >=? 10) eqn:E1; [lia|].
    destruct (wid >? 1) eqn:E2; cbn [orb].
    + rewrite store_ok by lia. cbn [mbind outcome_bind].
      rewrite (wrap_small (wid - 1)) by (unfold is_int, int_min, int_max; lia).
      rewrite (wrap_small (bp - 1)) by (unfold is_int, int_min, int_max; lia).
      pose proof (quot_int i 10 Hi ltac:(lia)) as Hq. pose proof (quot10_small i Hlt).
      destruct (IH (<[Z.to_nat bp := byte_of_int
                        (wrap (wrap (48 + i) - wrap (Z.quot i 10 * 10)))]> b)
                   (bp - 1) (Z.quot i 10) (wid - 1))
        as (b' & i' & Hrun & Hlen); rewrite ?length_insert; try lia; try assumption.
      exists b', i'. rewrite Hrun. rewrite length_insert in Hlen.
      split; [do 3 f_equal; lia|exact Hlen].
    + exists b, i. split; [do 3 f_equal; lia|reflexivity].
Qed.

Lemma itoa_any_int (buf : bytes) (i wid : Z) :
  is_int i -> In wid [4; 2; 6; -1] ->
  ∃ out, itoa buf i wid = Ok (buf ++ out) ∧ (1 <= length out <= 19)%nat.
Proof.
  intros Hi Hw. destruct (Z_lt_dec i 10) as [Hlt|Hge].
  - assert (Hwid : wid <= 6) by (simpl in Hw; lia).
    destruct (itoa_loop_pads itoa_fuel scratch (Z.of_nat (length scratch) - 1) i wid)
      as (b' & i' & Hrun & Hlen); try assumption;
      try (simpl length; unfold itoa_fuel; lia).
    unfold itoa. rewrite Hrun. cbn [mbind outcome_bind].
    change (length scratch) with 20%nat in *.
    remember (Z.of_nat 20 - 1 - Z.max 0 (wid - 1)) as bp eqn:Hbp.
    rewrite store_ok by lia. cbn [mbind outcome_bind].
    unfold slice_from. rewrite length_insert, Hlen.
    destruct (0 <=? bp) eqn:E1; [|apply Z.leb_gt in E1; lia].
    destruct (bp <=? Z.of_nat 20) eqn:E2; [|apply Z.leb_gt in E2; lia].
    cbn [andb mbind outcome_bind mret outcome_ret]. eexists. split; [reflexivity|].
    rewrite length_drop, length_insert, Hlen. lia.
  - assert (Hi' : 0 <= i <= int_max) by (unfold is_int in Hi; lia).
    exists (zero_padded wid i). split; [now apply itoa_field|].
    pose proof (zero_padded_length wid i (proj1 Hi')) as Hl.
    pose proof (ndigits_int i Hi'). pose proof (ndigits_pos i (proj1 Hi')).
    simpl in Hw. lia.
Qed.

(** X1.  At the widths that [formatHeader] passes, [itoa] returns for
    every [int], negative ones included, without a panic: it keeps the
    buffer and appends between 1 and 19 bytes. *)
Theorem itoa_total_at_call_sites (buf : bytes) (i wid : Z) :
  is_int i -> In wid [4; 2; 6; -1] ->
  ∃ out, itoa buf i wid = Ok (buf ++ out) ∧ (1 <= length out <= 19)%nat.
Proof. exact (itoa_any_int buf i wid). Qed.

Lemma itoa_total_at_call_sites_witness :
  ∃ out, itoa (lit "year ") (-44) 4 = Ok (lit "year " ++ out) ∧ (1 <= length out <= 19)%nat.
Proof.
  apply (itoa_total_at_call_sites (lit "year ") (-44) 4).
  - unfold is_int, int_min, int_max. lia.
  - simpl. tauto.
Defined.

(** ** [formatHeader] and [logging] on any environment *)

Section TotalProofs.
Context {W T : Type} `{Writer W} `{TimeAPI T}.

Lemma formatHeader_any_int (logger : BasicLogger W) (buf : bytes) (lv : Z) (t : T)
    (file : bytes) (line : Z) :
  int_stamp (shown (flags logger) t) -> is_int line ->
  ∃ h, formatHeader logger buf lv t file line = Ok (buf ++ h).
Proof.
  intros Hst Hline. unfold formatHeader, int_stamp in *.
  rewrite !has_lor. fold (shown (flags logger) t).
  destruct (Date (shown (flags logger) t)) as [[year month] day].
  destruct (Clock (shown (flags logger) t)) as [[hour min] sec].
  destruct Hst as (Hy & Hmo & Hd & Hh & Hmi & Hs & Hn).
  pose proof (quot_int _ 1000 Hn ltac:(lia)) as Hus.
  rewrite shortfile_ok.
  destruct (has (flags logger) Ldate), (has (flags logger) Ltime),
    (has (flags logger) Lmicroseconds), (has (flags logger) Lshortfile),
    (has (flags logger) Llongfile);
    cbn [orb andb mbind outcome_bind mret outcome_ret];
    repeat (match goal with
            | |- context [itoa ?b ?i ?w] =>
                let o := fresh "o" in
                let Ho := fresh "Ho" in
                destruct (itoa_any_int b i w) as (o & Ho & _);
                [assumption|simpl; tauto|rewrite Ho];
                cbn [mbind outcome_bind mret outcome_ret]
            end);
    rewrite <- ?app_assoc; eexists; reflexivity.
Qed.

(** X2.  [formatHeader] never panics and only appends: for every
    timestamp, whatever its field values (a negative year, a month of
    zero), every path and every line number, it returns the buffer it was
    given followed by the header. *)
Theorem formatHeader_total (logger : BasicLogger W) (buf : bytes) (lv : Z) (t : T)
    (file : bytes) (line : Z) :
  int_stamp (shown (flags logger) t) -> is_int line ->
  ∃ h, formatHeader logger buf lv t file line = Ok (buf ++ h).
Proof. exact (formatHeader_any_int logger buf lv t file line). Qed.

Lemma int_call_shown (fl : Z) (c : Call T) : int_call c -> int_stamp (shown fl (now c)).
Proof. intros (Ht & Hu & _). unfold shown. now destruct (has fl LUTC). Qed.

Lemma int_call_line (fl : Z) (c : Call T) : int_call c -> is_int (snd (callsite_of fl c)).
Proof.
  intros (_ & _ & Hl). unfold callsite_of.
  assert (H0' : is_int 0) by (unfold is_int, int_min, int_max; lia).
  destruct (has fl (Z.lor Lshortfile Llongfile)); [|exact H0'].
  destruct (caller c) as [[file line]|] eqn:Hc; [exact (Hl file line eq_refl)|exact H0'].
Qed.

(** X3.  A leveled call never panics, whatever the clock and the stack
    answer: it returns normally, and an admitted call delivers exactly
    one record, which is the header followed by the message and the
    newline that the message lacks. *)
Theorem logging_total (logger : BasicLogger W) (lv : Z) (c : Call T) :
  int_call c ->
  result (logging logger lv c) = Ok tt ∧
  (level logger <= lv ->
   ∃ h, formatHeader logger [] lv (now c) (fst (callsite_of (flags logger) c))
          (snd (callsite_of (flags logger) c)) = Ok h ∧
        emitted (trace (logging logger lv c))
        = [h ++ rendered c ++ (if lacks_newline (rendered c) then ["010"%char] else [])]).
Proof.
  intros Hint.
  destruct (formatHeader_any_int logger [] lv (now c) (fst (callsite_of (flags logger) c))
              (snd (callsite_of (flags logger) c)) (int_call_shown _ c Hint)
              (int_call_line _ c Hint)) as [h Hh].
  simpl in Hh. unfold logging, callsite_of in *.
  destruct (level logger >? lv) eqn:Hgate; [split; [reflexivity|lia]|].
  destruct (has (flags logger) (Z.lor Lshortfile Llongfile));
    [destruct (caller c) as [[file line]|]|];
    cbn [fst snd] in Hh |- *;
    unfold defer, ask, emit, lift;
    cbn [mbind prog_bind mret prog_ret trace result];
    rewrite Hh; cbn [mbind prog_bind mret prog_ret trace result app];
    destruct (lacks_newline (rendered c)), (Z.land (flags logger) Lblocking =? 0);
    cbn [mbind prog_bind mret prog_ret trace result app];
    (split; [reflexivity|intros _; exists h; split; [reflexivity|]]);
    unfold emitted; simpl; rewrite <- ?app_assoc, ?app_nil_r; reflexivity.
Qed.

End TotalProofs.

Ltac int_tac := vm_compute; repeat split; intro; discriminate.

Lemma formatHeader_total_witness :
  ∃ h, formatHeader (Sample.logger_with (Z.lor LstdFlags Lmicroseconds) 2) (lit "> ")
         Info Sample.odd_ts [] (-7) = Ok (lit "> " ++ h).
Proof.
  apply (formatHeader_total (Sample.logger_with (Z.lor LstdFlags Lmicroseconds) 2)
           (lit "> ") Info Sample.odd_ts [] (-7)).
  - int_tac.
  - int_tac.
Defined.

Lemma odd_call_int : int_call (MkCall (lit "x") Sample.odd_ts (Some (lit "a.go", 3))).
Proof.
  split; [int_tac|split; [int_tac|]].
  intros file line Heq. injection Heq as _ <-. int_tac.
Qed.

Lemma logging_total_witness :
  result (logging (Sample.logger_with LstdFlags 2) Warn
            (MkCall (lit "x") Sample.odd_ts (Some (lit "a.go", 3)))) = Ok tt.
Proof.
  apply (logging_total (Sample.logger_with LstdFlags 2) Warn
           (MkCall (lit "x") Sample.odd_ts (Some (lit "a.go", 3))) odd_call_int).
Defined.

(** ** Numbers without padding, paths, level tags *)






Lemma basename_no_slash_left (file : bytes) : has_slash (basename file) = false.
Proof.
  induction file as [|c rest IH]; [reflexivity|]. simpl.
  destruct (has_slash rest) eqn:Hr; [exact IH|].
  destruct (Ascii.eqb c "/") eqn:Hc; [exact Hr|]. simpl. now rewrite Hc, Hr.
Qed.

Lemma basename_suffix (file : bytes) : ∃ pre, file = pre ++ basename file.
Proof.
  induction file as [|c rest [pre IH]]; [now exists []|]. simpl.
  destruct (has_slash rest); [exists (c :: pre); simpl; now f_equal|].
  destruct (Ascii.eqb c "/"); [now exists [c]|now exists []].
Qed.

(** X5.  The short-file scan never panics and returns a suffix of the
    path: the base name, free of ['/'], when the path has a ['/'] after
    its first character, and the path itself otherwise; the result still
    holds a ['/'] exactly for a path that starts with its only ['/']. *)
Theorem shortfile_result (file : bytes) :
  ∃ r, shortfile file = Ok r ∧
       (∃ pre, file = pre ++ r) ∧
       r = (if has_slash (tail file) then basename file else file) ∧
       has_slash r = negb (has_slash (tail file)) && has_slash (take 1 file).
Proof.
  exists (short_name file). split; [apply shortfile_ok|]. unfold short_name.
  destruct (has_slash (tail file)) eqn:Ht.
  - split; [apply basename_suffix|]. split; [reflexivity|].
    apply basename_no_slash_left.
  - split; [now exists []|]. split; [reflexivity|].
    destruct file as [|c rest]; [reflexivity|]. simpl in *. rewrite Ht.
    now rewrite !orb_false_r.
Qed.

(** X6.  The five level tags are eight bytes wide, open with ['['] and
    end with a space, and differ from one another, so the tag of a line
    determines its level; any other level has the empty tag. *)
Theorem level_tags (a b : Z) :
  (0 <= a <= 4 ->
   length (levelStringMap a) = 8%nat ∧ head (levelStringMap a) = Some "["%char ∧
   last (levelStringMap a) = Some " "%char) ∧
  (a < 0 ∨ 4 < a -> levelStringMap a = []) ∧
  (0 <= a <= 4 -> 0 <= b <= 4 -> levelStringMap a = levelStringMap b -> a = b).
Proof.
  assert (Hcases : ∀ x, 0 <= x <= 4 -> x = 0 ∨ x = 1 ∨ x = 2 ∨ x = 3 ∨ x = 4)
    by (intros; lia).
  split; [|split].
  - intros Ha. destruct (Hcases a Ha) as [->|[->|[->|[->| ->]]]];
      repeat split; reflexivity.
  - intros Ha. destruct a as [|p|p]; [lia| |reflexivity].
    do 3 (try (destruct p as [p|p|]; try reflexivity; try lia)).
  - intros Ha Hb.
    destruct (Hcases a Ha) as [->|[->|[->|[->| ->]]]];
      destruct (Hcases b Hb) as [->|[->|[->|[->| ->]]]];
      intros Heq; try reflexivity; vm_compute in Heq; discriminate Heq.
Qed.

Lemma level_tags_witness :
  length (levelStringMap Warn) = 8%nat ∧ levelStringMap 7 = [] ∧
  (levelStringMap Info = levelStringMap Info -> Info = Info).
Proof.
  pose proof (level_tags Warn Warn) as (Hw & _ & _).
  pose proof (level_tags 7 7) as (_ & He & _).
  pose proof (level_tags Info Info) as (_ & _ & Hi).
  split; [|split].
  - apply Hw. vm_compute. split; discriminate.
  - apply He. right. reflexivity.
  - apply Hi; vm_compute; split; discriminate.
Defined.

(** ** One record, one line *)

Lemma newlines_app (a b : bytes) : newlines (a ++ b) = (newlines a + newlines b)%nat.
Proof. unfold newlines. now rewrite List.filter_app, length_app. Qed.

Lemma newlines_digits (s : bytes) :
  Forall (fun c => is_digit c = true) s -> newlines s = 0%nat.
Proof.
  intros Hs. induction Hs as [|c s Hc _ IH]; [reflexivity|].
  unfold newlines in *. simpl. destruct (Ascii.eqb c "010") eqn:E; [|exact IH].
  apply Ascii.eqb_eq in E. subst c. discriminate Hc.
Qed.

Lemma newlines_tag (lv : Z) : newlines (levelStringMap lv) = 0%nat.
Proof.
  destruct lv as [|p|p]; try reflexivity.
  do 3 (try (destruct p as [p|p|]; try reflexivity)).
Qed.

Lemma newlines_suffix (pre r : bytes) : newlines (pre ++ r) = 0%nat -> newlines r = 0%nat.
Proof. rewrite newlines_app. lia. Qed.

Section LineShape.
Context {W T : Type} `{Writer W} `{TimeAPI T}.

Lemma newlines_header (fl lv : Z) (t : T) (file : bytes) (line : Z) :
  calendar (shown fl t) -> 0 <= line -> newlines file = 0%nat ->
  newlines (header fl lv t file line) = 0%nat.
Proof.
  intros Hcal Hline Hfile.
  assert (Hz : ∀ w n, 0 <= n -> newlines (zero_padded w n) = 0%nat).
  { intros w n Hn. apply newlines_digits. now apply zero_padded_digits. }
  assert (Hshort : newlines (short_name file) = 0%nat).
  { unfold short_name. destruct (has_slash (tail file)); [|exact Hfile].
    destruct (basename_suffix file) as [pre Hpre]. rewrite Hpre in Hfile.
    exact (newlines_suffix _ _ Hfile). }
  unfold header, datetime_part, callsite_part, date_field, clock_field, micro_field,
    calendar in *.
  destruct (Date (shown fl t)) as [[year month] day].
  destruct (Clock (shown fl t)) as [[hour min] sec].
  destruct Hcal as (Hy & Hmo & Hd & Hh & Hmi & Hs & Hn).
  assert (Hus : 0 <= Nanosecond (shown fl t) / 1000) by (apply Z.div_pos; lia).
  rewrite !newlines_app, newlines_tag.
  destruct (has fl Ldate), (has fl Ltime), (has fl Lmicroseconds),
    (has fl Lshortfile), (has fl Llongfile); cbn [orb];
    rewrite ?newlines_app, ?Hz, ?Hshort, ?Hfile by lia;
    rewrite ?(newlines_digits (decimal line)) by (apply decimal_digits; lia);
    reflexivity.
Qed.

(** X7.  A record is one line when its message is: for an admitted call
    whose source path holds no newline, the header holds none, so the
    delivered line has the newlines of the message plus the one that
    [logging] appends when the message lacks it; a message without any
    newline gives a line with exactly one, its last byte. *)
Theorem record_is_one_line (l : BasicLogger W) (lv : Z) (c : Call T) :
  level l <= lv -> wf_call c ->
  (∀ file n, caller c = Some (file, n) -> newlines file = 0%nat) ->
  ∃ line,
    emitted (trace (logging l lv c)) = [line] ∧
    newlines line
    = (newlines (rendered c) + (if lacks_newline (rendered c) then 1 else 0))%nat ∧
    (newlines (rendered c) = 0%nat -> newlines line = 1%nat ∧ last line = Some "010"%char).
Proof.
  intros Hle Hwf Hpath. exists (line_of (flags l) lv c).
  split; [rewrite logging_admitted by assumption; apply emitted_admitted|].
  assert (Hh : newlines (header (flags l) lv (now c) (fst (callsite_of (flags l) c))
                           (snd (callsite_of (flags l) c))) = 0%nat).
  { apply newlines_header.
    - now apply wf_call_shown.
    - now apply wf_call_line.
    - unfold callsite_of. destruct (has (flags l) (Z.lor Lshortfile Llongfile));
        [|reflexivity].
      destruct (caller c) as [[file n]|] eqn:Hc; [exact (Hpath file n eq_refl)|reflexivity]. }
  assert (Hcount : newlines (line_of (flags l) lv c)
                   = (newlines (rendered c)
                      + (if lacks_newline (rendered c) then 1 else 0))%nat).
  { unfold line_of. rewrite !newlines_app, Hh.
    destruct (lacks_newline (rendered c)); reflexivity. }
  split; [exact Hcount|]. intros Hmsg. split; [|apply line_of_newlines].
  rewrite Hcount, Hmsg. unfold lacks_newline.
  destruct (rendered c) as [|a s] using rev_ind; [reflexivity|].
  rewrite last_snoc. rewrite newlines_app in Hmsg. unfold newlines in Hmsg at 2.
  simpl in Hmsg. destruct (Ascii.eqb a "010"); [simpl in Hmsg; lia|reflexivity].
Qed.

(** X8.  When [runtime.Caller] fails and a call-site flag is set, the call
    is still delivered, with the call site [unknown:0: ] under the short
    and under the long flag. *)
Theorem unknown_call_site (l : BasicLogger W) (lv : Z) (c : Call T) :
  level l <= lv -> wf_call c -> caller c = None ->
  has (flags l) Lshortfile || has (flags l) Llongfile = true ->
  emitted (trace (logging l lv c))
  = [levelStringMap lv ++ datetime_part (flags l) (now c) ++ lit "unknown:0: "
     ++ rendered c ++ (if lacks_newline (rendered c) then ["010"%char] else [])].
Proof.
  intros Hle Hwf Hc Hfl. rewrite logging_admitted by assumption.
  cbn [trace]. rewrite emitted_admitted. unfold line_of, header, callsite_of, callsite_part.
  rewrite has_lor, Hfl, Hc. cbn [fst snd].
  change (short_name (lit "unknown")) with (lit "unknown").
  change (decimal 0) with (lit "0").
  destruct (has (flags l) Lshortfile); rewrite <- !app_assoc; reflexivity.
Qed.

(** X9.  A flag that is not set keeps its input out of the header: with
    no date, time or microseconds flag the header does not depend on the
    timestamp (the UTC flag alone changes nothing), with no call-site
    flag it does not depend on the path and the line, and with none of
    the five it is the level tag alone. *)
Theorem formatHeader_unselected (l : BasicLogger W) (buf : bytes) (lv : Z)
    (t t' : T) (file file' : bytes) (line line' : Z) :
  (has (flags l) Ldate || has (flags l) Ltime || has (flags l) Lmicroseconds = false ->
   formatHeader l buf lv t file line = formatHeader l buf lv t' file line) ∧
  (has (flags l) Lshortfile || has (flags l) Llongfile = false ->
   formatHeader l buf lv t file line = formatHeader l buf lv t file' line') ∧
  (has (flags l) Ldate || has (flags l) Ltime || has (flags l) Lmicroseconds = false ->
   has (flags l) Lshortfile || has (flags l) Llongfile = false ->
   formatHeader l buf lv t file line = Ok (buf ++ levelStringMap lv)).
Proof.
  unfold formatHeader. rewrite !has_lor.
  split; [|split].
  - intros Hdt. rewrite orb_assoc, Hdt. reflexivity.
  - intros Hcs. now rewrite Hcs.
  - intros Hdt Hcs. rewrite orb_assoc, Hdt, Hcs. reflexivity.
Qed.

(** X10.  [logging] keeps the mutex discipline on every path, also when
    formatting panics: its Lock and Unlock effects alternate from a free
    mutex and leave it free.  It hands over at most one record, and it
    asks [runtime.Caller] exactly when the call passes the gate and a
    call-site flag is set. *)
Theorem logging_lock_discipline (l : BasicLogger W) (lv : Z) (c : Call T) :
  lock_ok false (trace (logging l lv c)) = true ∧
  (length (emitted (trace (logging l lv c))) <= 1)%nat ∧
  existsb (fun e => match e with EvCaller => true | _ => false end)
          (trace (logging l lv c))
  = negb (level l >? lv) && has (flags l) (Z.lor Lshortfile Llongfile).
Proof.
  unfold logging. destruct (level l >? lv); [repeat split; simpl; lia|].
  destruct (has (flags l) (Z.lor Lshortfile Llongfile));
    [destruct (caller c) as [[file line]|]|];
    unfold defer, ask, emit, lift;
    cbn [mbind prog_bind mret prog_ret trace result];
    match goal with
    | |- context [formatHeader ?a ?b ?x ?y ?z ?w] =>
        destruct (formatHeader a b x y z w)
    end;
    cbn [mbind prog_bind mret prog_ret trace result app];
    try (destruct (lacks_newline (rendered c)));
    try (destruct (Z.land (flags l) Lblocking =? 0));
    cbn [mbind prog_bind mret prog_ret trace result app];
    repeat split; simpl; lia.
Qed.

End LineShape.

Lemma record_is_one_line_witness :
  ∃ line,
    emitted (trace (logging (Sample.logger_with (Z.lor LstdFlags Lshortfile) 2) Warn
                      (Sample.say "slow request"))) = [line] ∧
    newlines line
    = (newlines (rendered (Sample.say "slow request"))
       + (if lacks_newline (rendered (Sample.say "slow request")) then 1 else 0))%nat ∧
    (newlines (rendered (Sample.say "slow request")) = 0%nat ->
     newlines line = 1%nat ∧ last line = Some "010"%char).
Proof.
  apply (record_is_one_line (Sample.logger_with (Z.lor LstdFlags Lshortfile) 2) Warn
           (Sample.say "slow request")).
  - vm_compute. discriminate.
  - apply utter_wf.
  - intros file n Heq. injection Heq as <- _. reflexivity.
Defined.

Lemma lost_wf (s : string) : wf_call (Sample.lost s).
Proof.
  split; [calendar_tac|split; [calendar_tac|]].
  intros file line Heq. discriminate Heq.
Qed.

Lemma unknown_call_site_witness :
  emitted (trace (logging (Sample.logger_with Llongfile 2) Error (Sample.lost "boom")))
  = [lit "[ERROR] unknown:0: boom" ++ ["010"%char]].
Proof.
  refine (eq_trans (unknown_call_site (Sample.logger_with Llongfile 2) Error
                      (Sample.lost "boom") _ (lost_wf _) _ _) _).
  - vm_compute. discriminate.
  - reflexivity.
  - reflexivity.
  - vm_compute. reflexivity.
Defined.

Lemma formatHeader_unselected_witness :
  formatHeader (Sample.logger_with LUTC 2) [] Info Sample.ts (lit "a.go") 1
  = formatHeader (Sample.logger_with LUTC 2) [] Info Sample.odd_ts (lit "a.go") 1 ∧
  formatHeader (Sample.logger_with LUTC 2) [] Info Sample.ts (lit "a.go") 1
  = Ok ([] ++ levelStringMap Info).
Proof.
  pose proof (formatHeader_unselected (Sample.logger_with LUTC 2) [] Info Sample.ts
                Sample.odd_ts (lit "a.go") (lit "a.go") 1 1) as (Ht & _ & Hall).
  split; [apply Ht; reflexivity|apply Hall; reflexivity].
Defined.

(** ** What every execution keeps *)

Section Frame.
Context {F W T : Type} `{Writer W} `{TimeAPI T}.

(** What [NewLogger] leaves behind, in either mode. *)
Lemma boot_any (host : Host F W) (path : bytes) (lvl cap fl : Z)
    (calls : list (call T)) (s0 : System W T) :
  boot (NewLogger host path lvl cap fl) calls = Some s0 ->
  0 <= cap ∧
  ∃ w0, s0 = MkSystem (MkLogger lvl fl w0 (Chan [] cap) false
                                (if Z.land fl Lblocking =? 0 then 1 else 0))
                      (if Z.land fl Lblocking =? 0 then Some WIdle else None)
                      [] calls [] false false.
Proof.
  intros Hboot. unfold boot, NewLogger in Hboot.
  unfold ask, emit, lift in Hboot.
  destruct (os_OpenFile host path) as [f|]; [|discriminate Hboot].
  destruct (make_chan host cap) as [c| |] eqn:Hmk; try discriminate Hboot.
  apply make_chan_Ok in Hmk as (-> & Hcap & _).
  destruct (Z.land fl Lblocking =? 0); simpl in Hboot; injection Hboot as <-;
    (split; [lia|eexists; reflexivity]).
Qed.



(** X13.  [SetLogLevel] followed by [GetLogLevel] reads the new threshold;
    the call takes no lock, touches neither sink nor channel, and from
    then on a leveled call delivers a record exactly when its level is at
    least the new threshold. *)
Theorem SetLogLevel_then_GetLogLevel (s : System W T) (n : Z) (cs : list (call T)) :
  crashed s = false -> pending s = [] -> todo s = CSetLogLevel n :: cs ->
  run [CallerG; CallerG] s
  = set_todo (set_logger s (set_level (logger s) n)) cs ∧
  GetLogLevel (logger (run [CallerG; CallerG] s)) = n ∧
  trace (SetLogLevel (logger s) n) = [EvSetLevel n] ∧
  ∀ lv c, wf_call c ->
    (emitted (call_events (logger (run [CallerG; CallerG] s)) (CLeveled lv c)) ≠ []
     ↔ n <= lv).
Proof.
  intros Hc Hp Ht.
  assert (Hrun : run [CallerG; CallerG] s
                 = set_todo (set_logger s (set_level (logger s) n)) cs).
  { destruct s as [l wk p t h cl cr]. simpl in Hc, Hp, Ht. subst cr p t. reflexivity. }
  rewrite Hrun. split; [reflexivity|]. split; [reflexivity|]. split; [reflexivity|].
  intros lv c Hwf. rewrite call_events_leveled by exact Hwf. simpl.
  destruct (n >? lv) eqn:E.
  - split; [intros Hne; now contradiction Hne|lia].
  - rewrite emitted_admitted. split; [lia|discriminate].
Qed.

End Frame.


Lemma SetLogLevel_then_GetLogLevel_witness :
  GetLogLevel (logger (run [CallerG; CallerG]
                 (Sample.started LstdFlags 2 [CSetLogLevel Error]))) = Error.
Proof.
  apply (SetLogLevel_then_GetLogLevel
           (Sample.started LstdFlags 2 [CSetLogLevel Error]) Error []); reflexivity.
Defined.

(** ** Synchronous delivery *)

Section SyncProofs.
Context {F W T : Type} `{Writer W} `{TimeAPI T}.

Lemma admitted_trace_sync (fl : Z) (line : bytes) :
  Z.land fl Lblocking ≠ 0 ->
  still (admitted_trace fl line) = true ∧
  lock_ok false (admitted_trace fl line) = true ∧
  (length (admitted_trace fl line) <= 8)%nat ∧
  wrs (admitted_trace fl line) = [line] ∧
  ∀ lvl, level_after (admitted_trace fl line) lvl = lvl.
Proof.
  intros Hfl. apply Z.eqb_neq in Hfl. unfold admitted_trace. rewrite Hfl.
  destruct (has fl (Z.lor Lshortfile Llongfile));
    (split; [reflexivity|split; [reflexivity|split; [simpl length; lia|]]]);
    (split; [reflexivity|intros lvl; reflexivity]).
Qed.

Lemma call_events_plain_sync (l : BasicLogger W) (c : call T) (tb : list (call T)) :
  Z.land (flags l) Lblocking ≠ 0 -> plain c ->
  still (call_events l c) = true ∧
  lock_ok false (call_events l c) = true ∧
  (length (call_events l c) <= 8)%nat ∧
  wrs (call_events l c)
  ++ sync_lines (level_after (call_events l c) (level l)) (flags l) tb
  = sync_lines (level l) (flags l) (c :: tb).
Proof.
  intros Hfl Hc. destruct c as [lv c|n|]; [| |contradiction Hc].
  - rewrite call_events_leveled by exact Hc. cbn [sync_lines].
    destruct (level l >? lv); [simpl; repeat split; lia|].
    destruct (admitted_trace_sync (flags l) (line_of (flags l) lv c) Hfl)
      as (Hstill & Hlock & Hlen & Hwrs & Hlvl).
    rewrite Hwrs, Hlvl. auto.
  - simpl. repeat split; lia.
Qed.

Lemma wrs_cons (e : event) (p : list event) : wrs (e :: p) = wrs [e] ++ wrs p.
Proof. change (e :: p) with ([e] ++ p). apply omap_app. Qed.

Section SyncInvariant.
Variables (w0 : W) (fl : Z) (L : list bytes).
Hypothesis Hsync : Z.land fl Lblocking ≠ 0.

Lemma sync_caller_step (s s' : System W T) :
  InvS w0 fl L s -> step CallerG s = Some s' ->
  InvS w0 fl L s' ∧ (measure s' < measure s)%nat.
Proof.
  intros (Hcr & Hfl & Hwk & Hq & Hh & Hlk & Hst & Htd & done & Hwr & Heq) Hstep.
  destruct s as [[lvl fl' wr [q cp] lk g] wk p t h cl cr]. simpl in *.
  subst cr fl' wk q h. unfold step, caller_step in Hstep. simpl in Hstep.
  destruct p as [|e p].
  - destruct t as [|c cs]; [discriminate Hstep|]. injection Hstep as <-.
    apply negb_true_iff in Hlk. subst lk.
    pose proof (Forall_inv Htd) as Hc. pose proof (Forall_inv_tail Htd) as Hcs.
    match goal with
    | |- context [call_events ?l c] =>
        destruct (call_events_plain_sync l c cs Hsync Hc)
          as (Hstill & Hlock & Hlen & Hlines)
    end.
    simpl in Hlines.
    split; [|unfold measure; simpl; lia].
    unfold InvS. simpl. repeat split; try assumption.
    exists done. split; [exact Hwr|]. rewrite Hlines. exact Heq.
  - rewrite (wrs_cons e p) in Heq.
    destruct e; simpl in Hstep, Hlk, Hst, Heq; try discriminate Hst;
      try (injection Hstep as <-; split; [|unfold measure; simpl; lia];
           unfold InvS; simpl; repeat split; try assumption;
           exists done; split; assumption).
    + destruct lk; [discriminate Hstep|]. injection Hstep as <-.
      split; [|unfold measure; simpl; lia].
      unfold InvS; simpl; repeat split; try assumption.
      exists done; split; assumption.
    + destruct lk; [|discriminate Hlk]. injection Hstep as <-.
      split; [|unfold measure; simpl; lia].
      unfold InvS; simpl; repeat split; try assumption.
      exists done; split; assumption.
    + injection Hstep as <-. split; [|unfold measure; simpl; lia].
      unfold InvS; simpl; repeat split; try assumption.
      exists (done ++ [p0]). split; [now rewrite writes_snoc, Hwr|].
      rewrite <- Heq, <- app_assoc. reflexivity.
Qed.

Lemma sync_moves (s s' : System W T) :
  InvS w0 fl L s -> moves s s' -> InvS w0 fl L s' ∧ (measure s' < measure s)%nat.
Proof.
  intros Hinv [[|] Hstep]; [now apply sync_caller_step|].
  destruct Hinv as (_ & _ & Hwk & _). unfold step, server in Hstep.
  rewrite Hwk in Hstep. destruct (crashed s); discriminate Hstep.
Qed.

Lemma sync_progress (s : System W T) :
  InvS w0 fl L s ->
  (pending s = [] ∧ todo s = [] ∧ writer (logger s) = writes w0 L) ∨
  ∃ s', moves s s'.
Proof.
  intros (Hcr & Hfl & Hwk & Hq & Hh & Hlk & Hst & Htd & done & Hwr & Heq).
  destruct s as [[lvl fl' wr [q cp] lk g] wk p t h cl cr]. simpl in *.
  subst cr fl' wk q h.
  assert (Hcaller : ∀ s1, caller_step (MkSystem (MkLogger lvl fl wr (Chan [] cp) lk g)
                                         None p t [] cl false) = Some s1 ->
                          ∃ s', moves (MkSystem (MkLogger lvl fl wr (Chan [] cp) lk g)
                                         None p t [] cl false) s').
  { intros s1 Hs1. exists s1, CallerG. exact Hs1. }
  destruct p as [|e p].
  - destruct t as [|c cs]; [|right; eapply Hcaller; reflexivity].
    left. simpl in Heq. rewrite app_nil_r in Heq. subst done. auto.
  - right. destruct e; simpl in Hlk, Hst; try discriminate Hst;
      try (eapply Hcaller; reflexivity).
    + destruct lk; [discriminate Hlk|]. eapply Hcaller. reflexivity.
    + destruct lk; eapply Hcaller; reflexivity.
Qed.

Lemma sync_reachable (s0 s : System W T) :
  InvS w0 fl L s0 -> reachable s0 s -> InvS w0 fl L s.
Proof.
  intros Hinv Hreach. induction Hreach as [|s s' _ IH Hmove]; [exact Hinv|].
  exact (proj1 (sync_moves s s' IH Hmove)).
Qed.

End SyncInvariant.

(** X14.  In synchronous mode, for one caller that issues leveled calls
    and [SetLogLevel] calls, the caller itself writes each admitted line,
    in the order of the calls: at every moment the sink holds the first
    [k] lines, the channel stays empty, no server exists and nothing is
    handled by one, and every execution ends with all lines written. *)
Theorem sync_delivery (host : Host F W) (path : bytes) (lvl cap fl : Z)
    (calls : list (call T)) (s0 : System W T) :
  Z.land fl Lblocking ≠ 0 ->
  boot (NewLogger host path lvl cap fl) calls = Some s0 ->
  Forall plain calls ->
  (∀ s, reachable s0 s ->
        worker s = None ∧ queue (ch (logger s)) = [] ∧ handled s = [] ∧
        ∃ k, writer (logger s)
             = writes (writer (logger s0)) (take k (sync_lines lvl fl calls))) ∧
  inevitably (fun s => pending s = [] ∧ todo s = [] ∧
                       writer (logger s)
                       = writes (writer (logger s0)) (sync_lines lvl fl calls)) s0.
Proof.
  intros Hfl Hboot Hcalls.
  destruct (boot_any host path lvl cap fl calls s0 Hboot) as [Hcap [w0 ->]].
  pose proof Hfl as Hfl'. apply Z.eqb_neq in Hfl'. rewrite Hfl'. simpl writer.
  assert (Hinv : InvS w0 fl (sync_lines lvl fl calls)
                   (MkSystem (MkLogger lvl fl w0 (Chan [] cap) false 0) None []
                             calls [] false false)).
  { unfold InvS. simpl. repeat split; try assumption. now exists []. }
  split.
  - intros s Hreach.
    destruct (sync_reachable w0 fl _ Hfl _ s Hinv Hreach)
      as (_ & _ & Hwk & Hq & Hh & _ & _ & _ & done & Hwr & Heq).
    repeat split; try assumption.
    exists (length done). rewrite <- Heq, take_app_length. exact Hwr.
  - apply (inevitably_by_measure (InvS w0 fl (sync_lines lvl fl calls))).
    + intros s s'. now apply (sync_moves w0 fl _ Hfl).
    + intros s Hs. now apply (sync_progress w0 fl).
    + exact Hinv.
Qed.

End SyncProofs.

Lemma sync_delivery_witness :
  (∀ s, reachable (MkSystem (Sample.logger_with (Z.lor Lblocking Ldate) 4) None []
                            (leveled Sample.items) [] false false) s ->
        worker s = None ∧ queue (ch (logger s)) = [] ∧ handled s = [] ∧
        ∃ k, writer (logger s)
             = writes [] (take k (sync_lines Info (Z.lor Lblocking Ldate)
                                     (leveled Sample.items)))) ∧
  inevitably (fun s => pending s = [] ∧ todo s = [] ∧
                       writer (logger s)
                       = writes [] (sync_lines Info (Z.lor Lblocking Ldate)
                                      (leveled Sample.items)))
    (MkSystem (Sample.logger_with (Z.lor Lblocking Ldate) 4) None []
              (leveled Sample.items) [] false false).
Proof.
  apply (sync_delivery Sample.host (lit "/var/log/app.log") Info 4
           (Z.lor Lblocking Ldate) (leveled Sample.items)
           (MkSystem (Sample.logger_with (Z.lor Lblocking Ldate) 4) None []
                     (leveled Sample.items) [] false false)).
  - vm_compute. discriminate.
  - vm_compute. reflexivity.
  - cbv [leveled Sample.items map fst snd].
    repeat (apply List.Forall_cons; [apply utter_wf|]). apply List.Forall_nil.
Defined.

(** ** [minMaxAvg] *)

Lemma minMaxAvg_fold (l : list Z) : ∀ mx mn sm,
  let r := fold_left minMaxAvg_step l (mx, mn, sm) in
  (fst (fst r) = mx ∨ In (fst (fst r)) l) ∧ mx <= fst (fst r) ∧
  (snd (fst r) = mn ∨ In (snd (fst r)) l) ∧ snd (fst r) <= mn ∧
  (∀ x, In x l -> snd (fst r) <= x <= fst (fst r)) ∧
  (0 <= sm -> Forall (fun x => 0 <= x) l -> sm + total l <= int_max ->
   snd r = sm + total l).
Proof.
  induction l as [|v l IH]; intros mx mn sm; cbn zeta.
  - simpl. repeat split; auto; try lia; try (intros x []).
  - cbn [fold_left minMaxAvg_step].
    destruct (IH (if mx <? v then v else mx) (if mn >? v then v else mn)
                 (wrap (sm + v))) as (Hmx & Hmxle & Hmn & Hmnle & Hall & Hsum).
    cbn zeta in *.
    set (r := fold_left minMaxAvg_step l
                (if mx <? v then v else mx, if mn >? v then v else mn, wrap (sm + v)))
      in *.
    assert (Hup : mx <= (if mx <? v then v else mx) ∧ v <= (if mx <? v then v else mx))
      by (destruct (mx <? v) eqn:E; lia).
    assert (Hdn : (if mn >? v then v else mn) <= mn ∧ (if mn >? v then v else mn) <= v)
      by (destruct (mn >? v) eqn:E; lia).
    split; [|split; [lia|split; [|split; [lia|split]]]].
    + destruct Hmx as [Hmx|Hmx]; [|right; now right].
      rewrite Hmx. destruct (mx <? v); [right; now left|now left].
    + destruct Hmn as [Hmn|Hmn]; [|right; now right].
      rewrite Hmn. destruct (mn >? v); [right; now left|now left].
    + intros x [<-|Hx]; [lia|now apply Hall].
    + intros Hsm Hl Hle. pose proof (Forall_inv Hl) as Hv.
      pose proof (Forall_inv_tail Hl) as Hl'. simpl in Hle.
      assert (Ht : 0 <= total l).
      { clear - Hl'. induction Hl' as [|x l Hx _ IHl]; simpl; lia. }
      rewrite Hsum; rewrite ?wrap_small;
        unfold is_int, int_min in *; simpl; try assumption; lia.
Qed.

Lemma total_bounds (l : list Z) (lo hi : Z) :
  (∀ x, In x l -> lo <= x <= hi) ->
  Z.of_nat (length l) * lo <= total l <= Z.of_nat (length l) * hi.
Proof.
  induction l as [|v l IH]; intros Hb; [simpl; lia|].
  assert (Hv : lo <= v <= hi) by (apply Hb; now left).
  assert (Hl : ∀ x, In x l -> lo <= x <= hi) by (intros x Hx; apply Hb; now right).
  specialize (IH Hl). simpl total. rewrite length_cons, Nat2Z.inj_succ. lia.
Qed.

(** X15.  [minMaxAvg] panics on an empty slice; on any other it returns
    a minimum and a maximum that are elements of the slice and bound
    every element. *)
Theorem minMaxAvg_min_max (array : list Z) :
  minMaxAvg [] = Panic ∧
  (array ≠ [] ->
   ∃ mn mx avg, minMaxAvg array = Ok (mn, mx, avg) ∧
                In mn array ∧ In mx array ∧
                ∀ x, In x array -> mn <= x <= mx).
Proof.
  split; [reflexivity|]. intros Hne. destruct array as [|a0 rest]; [contradiction|].
  unfold minMaxAvg.
  destruct (minMaxAvg_fold (a0 :: rest) a0 a0 0) as (Hmx & _ & Hmn & _ & Hall & _).
  cbn zeta in *.
  destruct (fold_left minMaxAvg_step (a0 :: rest) (a0, a0, 0)) as [[mx mn] sm].
  simpl fst in *. simpl snd in *.
  exists mn, mx, (Z.quot sm (Z.of_nat (length (a0 :: rest)))).
  split; [reflexivity|]. split; [|split; [|exact Hall]].
  - destruct Hmn as [->|Hmn]; [now left|exact Hmn].
  - destruct Hmx as [->|Hmx]; [now left|exact Hmx].
Qed.

(** X16.  When the elements are not negative and their sum fits an
    [int64], as for the elapsed milliseconds of the benchmarks, the
    average that [minMaxAvg] returns is the sum divided by the length,
    rounded down, and lies between the minimum and the maximum. *)
Theorem minMaxAvg_average (array : list Z) :
  array ≠ [] -> Forall (fun x => 0 <= x) array -> total array <= int_max ->
  ∃ mn mx, minMaxAvg array
           = Ok (mn, mx, total array / Z.of_nat (length array)) ∧
           mn <= total array / Z.of_nat (length array) <= mx.
Proof.
  intros Hne Hpos Hfit. destruct array as [|a0 rest]; [contradiction|].
  unfold minMaxAvg.
  destruct (minMaxAvg_fold (a0 :: rest) a0 a0 0) as (_ & _ & _ & _ & Hall & Hsum).
  cbn zeta in *.
  destruct (fold_left minMaxAvg_step (a0 :: rest) (a0, a0, 0)) as [[mx mn] sm].
  simpl fst in *. simpl snd in *.
  rewrite Hsum by (assumption || lia). rewrite Z.add_0_l.
  assert (Ht : 0 <= total (a0 :: rest)).
  { clear - Hpos. induction Hpos as [|x l Hx _ IHl]; simpl; lia. }
  assert (Hlen : 0 < Z.of_nat (length (a0 :: rest))) by (simpl length; lia).
  rewrite Z.quot_div_nonneg by lia.
  exists mn, mx. split; [reflexivity|].
  pose proof (total_bounds (a0 :: rest) mn mx Hall) as [Hlo Hhi].
  split; [apply Z.div_le_lower_bound; lia|apply Z.div_le_upper_bound; lia].
Qed.

Lemma minMaxAvg_min_max_witness :
  ∃ mn mx avg, minMaxAvg [31; 12; 47] = Ok (mn, mx, avg) ∧
               In mn [31; 12; 47] ∧ In mx [31; 12; 47] ∧
               ∀ x, In x [31; 12; 47] -> mn <= x <= mx.
Proof.
  apply (minMaxAvg_min_max [31; 12; 47]). discriminate.
Defined.

Lemma minMaxAvg_average_witness :
  ∃ mn mx, minMaxAvg [31; 12; 47] = Ok (mn, mx, total [31; 12; 47] / Z.of_nat 3) ∧
           mn <= total [31; 12; 47] / Z.of_nat 3 <= mx.
Proof.
  apply (minMaxAvg_average [31; 12; 47]).
  - discriminate.
  - repeat (apply List.Forall_cons; [lia|]). apply List.Forall_nil.
  - vm_compute. discriminate.
Defined.

(** ** Calls that no goroutine receives *)

Section NoReceiverProofs.
Context {F W T : Type} `{Writer W} `{TimeAPI T}.

(** Without a server at its receive only the caller moves. *)
Lemma inev_caller (P : System W T -> Prop) (s s1 : System W T) :
  worker s = None ∨ worker s = Some WDone ->
  step CallerG s = Some s1 -> inevitably P s1 -> inevitably P s.
Proof.
  intros Hw Hstep Hinev. apply inev_later; [exists s1, CallerG; exact Hstep|].
  intros s' [[|] Hs'].
  - rewrite Hstep in Hs'. injection Hs' as <-. exact Hinev.
  - unfold step, server in Hs'. destruct (crashed s); [discriminate Hs'|].
    destruct Hw as [Hw|Hw]; rewrite Hw in Hs'; discriminate Hs'.
Qed.

Lemma rest_no_receiver (s : System W T) :
  worker s = None ∨ worker s = Some WDone ->
  step CallerG s = None -> ∀ sched, run sched s = s.
Proof.
  intros Hw Hc. apply run_stuck. intros [|]; [exact Hc|].
  unfold step, server. destruct (crashed s); [reflexivity|].
  destruct Hw as [-> | ->]; reflexivity.
Qed.

Lemma inevitably_mono (P Q : System W T -> Prop) (s : System W T) :
  (∀ s, P s -> Q s) -> inevitably P s -> inevitably Q s.
Proof.
  intros HPQ Hinev. induction Hinev as [s HP|s Hmove _ IH].
  - apply inev_now. now apply HPQ.
  - apply inev_later; assumption.
Qed.

Lemma inline_nil (lvl fl : Z) : inline lvl fl (@nil (call T)) = [].
Proof. unfold inline. now destruct (Z.land fl Lblocking =? 0). Qed.

Lemma inline_cons (lvl fl : Z) (c : call T) (cs : list (call T)) :
  inline lvl fl (c :: cs) = inline lvl fl [c] ++ inline (next_level lvl c) fl cs.
Proof.
  unfold inline. destruct (Z.land fl Lblocking =? 0); [reflexivity|].
  destruct c as [lv c|n|]; simpl; rewrite ?app_nil_r; reflexivity.
Qed.

Lemma writes_app (w : W) (a b : list bytes) : writes w (a ++ b) = writes (writes w a) b.
Proof. unfold writes. apply fold_left_app. Qed.

(** The end of the calls [c :: cs] from the end of [cs], when [c] returns. *)
Lemma ends_in_returned (w : W) (q : list logMessage) (lvl fl : Z) (room room' : nat)
    (c : call T) (cs : list (call T)) (s : System W T) :
  returning room lvl fl (c :: cs) = c :: returning room' (next_level lvl c) fl cs ->
  ends_in (writes w (inline lvl fl [c])) (q ++ sent lvl fl c) (next_level lvl c) fl
          room' cs s ->
  ends_in w q lvl fl room (c :: cs) s.
Proof.
  unfold ends_in. intros Hret (Hrest & Hq & Hw & Hall & Hblock). rewrite Hret.
  split; [exact Hrest|]. split; [|split; [|split]].
  - rewrite Hq. cbn [outbox]. now rewrite app_assoc.
  - rewrite inline_cons, writes_app. exact Hw.
  - intros Heq. injection Heq as Heq. now apply Hall.
  - intros Hne. destruct Hblock as (m & p & Hp & Ht); [congruence|].
    exists m, p. split; [exact Hp|exact Ht].
Qed.

(** The end of the calls [c :: cs] when [c] blocks in its send. *)
Lemma ends_in_blocked (w : W) (q : list logMessage) (lvl fl : Z) (room : nat)
    (c : call T) (cs : list (call T)) (s : System W T) (m : logMessage) (p : list event) :
  returning room lvl fl (c :: cs) = [] ->
  worker s = None ∨ worker s = Some WDone -> step CallerG s = None ->
  queue (ch (logger s)) = q -> writer (logger s) = w ->
  pending s = EvSend m :: p -> todo s = cs ->
  ends_in w q lvl fl room (c :: cs) s.
Proof.
  unfold ends_in. intros Hret Hwk Hstep Hq Hw Hp Ht. rewrite Hret.
  split; [now apply rest_no_receiver|]. split; [|split; [|split]].
  - now rewrite app_nil_r.
  - now rewrite inline_nil.
  - discriminate.
  - intros _. exists m, p. split; [exact Hp|]. simpl. now rewrite drop_0.
Qed.

Lemma step_send_room (l : BasicLogger W) (wk : option wstate) (m : logMessage)
    (p : list event) (t : list (call T)) (h : list logMessage) (cl : bool) :
  Z.of_nat (length (queue (ch l))) < capacity (ch l) ->
  step CallerG (MkSystem l wk (EvSend m :: p) t h cl false)
  = Some (MkSystem (set_queue l (queue (ch l) ++ [m])) wk p t h cl false).
Proof.
  intros Hroom. unfold step, caller_step. simpl.
  destruct (Z.of_nat (length (queue (ch l))) <? capacity (ch l)) eqn:E;
    [reflexivity|apply Z.ltb_ge in E; lia].
Qed.

Lemma step_send_full (l : BasicLogger W) (wk : option wstate) (m : logMessage)
    (p : list event) (t : list (call T)) (h : list logMessage) (cl : bool) :
  wk = None ∨ wk = Some WDone ->
  capacity (ch l) <= Z.of_nat (length (queue (ch l))) ->
  step CallerG (MkSystem l wk (EvSend m :: p) t h cl false) = None.
Proof.
  intros Hwk Hfull. unfold step, caller_step. simpl.
  destruct (Z.of_nat (length (queue (ch l))) <? capacity (ch l)) eqn:E;
    [apply Z.ltb_lt in E; lia|].
  destruct (queue (ch l)); [|reflexivity]. destruct Hwk as [-> | ->]; reflexivity.
Qed.

(** One move of the caller, computed. *)
Ltac tidy_state :=
  cbv beta iota delta
      [set_todo set_pending set_logger set_closed set_lock set_level set_queue
       set_worker write_sink set_writer logger worker pending todo handled closed
       crashed level flags writer ch lock wg queue capacity].

Ltac caller_moves Hwk :=
  eapply inev_caller; [exact Hwk|reflexivity|]; tidy_state.

Ltac caller_sends Hwk :=
  eapply inev_caller;
    [exact Hwk|apply step_send_room; cbv [queue capacity ch]; lia|]; tidy_state.

(** The calls of a caller when nothing is received from the channel: one
    call after the other returns, its command left in the buffer or its
    line written to the sink, until a call finds the buffer full. *)
Lemma no_receiver_run (cs : list (call T)) :
  ∀ (lvl fl : Z) (wr : W) (q : list logMessage) (cp : Z) (wk : option wstate)
    (h : list logMessage) (cl : bool),
  wk = None ∨ wk = Some WDone -> Forall wf_item cs -> Z.of_nat (length q) <= cp ->
  inevitably (ends_in wr q lvl fl (Z.to_nat (cp - Z.of_nat (length q))) cs)
    (MkSystem (MkLogger lvl fl wr (Chan q cp) false 0) wk [] cs h cl false).
Proof.
  induction cs as [|c cs IH]; intros lvl fl wr q cp wk h cl Hwk Hwf Hq.
  - apply inev_now. unfold ends_in. cbn [returning outbox].
    rewrite inline_nil, app_nil_r.
    split; [apply rest_no_receiver; [exact Hwk|reflexivity]|].
    repeat split; try reflexivity. intros Hne. contradiction.
  - pose proof (Forall_inv Hwf) as Hc. pose proof (Forall_inv_tail Hwf) as Hcs.
    assert (Hsilent : ∀ wr' cl',
              sent lvl fl c = [] -> wr' = writes wr (inline lvl fl [c]) ->
              inevitably
                (ends_in wr q lvl fl (Z.to_nat (cp - Z.of_nat (length q))) (c :: cs))
                (MkSystem (MkLogger (next_level lvl c) fl wr' (Chan q cp) false 0)
                          wk [] cs h cl' false)).
    { intros wr' cl' Hs ->.
      eapply inevitably_mono;
        [|apply (IH (next_level lvl c) fl _ q cp wk h cl' Hwk Hcs Hq)].
      intros s Hs'. eapply ends_in_returned;
        [cbn [returning]; rewrite Hs; reflexivity|].
      rewrite Hs, app_nil_r. exact Hs'. }
    assert (Hsend : ∀ m cl',
              sent lvl fl c = [m] -> inline lvl fl [c] = [] ->
              Z.of_nat (length q) < cp ->
              inevitably
                (ends_in wr q lvl fl (Z.to_nat (cp - Z.of_nat (length q))) (c :: cs))
                (MkSystem (MkLogger (next_level lvl c) fl wr (Chan (q ++ [m]) cp) false 0)
                          wk [] cs h cl' false)).
    { intros m cl' Hs Hi Hroom.
      assert (Hlen : Z.of_nat (length (q ++ [m])) = Z.of_nat (length q) + 1)
        by (rewrite length_app; simpl; lia).
      eapply inevitably_mono;
        [|apply (IH (next_level lvl c) fl wr (q ++ [m]) cp wk h cl' Hwk Hcs); lia].
      intros s Hs'.
      eapply (ends_in_returned _ _ _ _ _ (Z.to_nat (cp - Z.of_nat (length (q ++ [m]))))).
      - replace (Z.to_nat (cp - Z.of_nat (length q)))
          with (S (Z.to_nat (cp - Z.of_nat (length (q ++ [m]))))) by lia.
        cbn [returning]. rewrite Hs. reflexivity.
      - rewrite Hs, Hi. exact Hs'. }
    assert (Hblocked : ∀ m p lk cl',
              sent lvl fl c = [m] -> cp <= Z.of_nat (length q) ->
              inevitably
                (ends_in wr q lvl fl (Z.to_nat (cp - Z.of_nat (length q))) (c :: cs))
                (MkSystem (MkLogger lvl fl wr (Chan q cp) lk 0) wk (EvSend m :: p)
                          cs h cl' false)).
    { intros m p lk cl' Hs Hfull. apply inev_now.
      eapply ends_in_blocked;
        [|exact Hwk|apply step_send_full; [exact Hwk|simpl; lia]|reflexivity..].
      replace (Z.to_nat (cp - Z.of_nat (length q))) with O by lia.
      cbn [returning]. rewrite Hs. reflexivity. }
    destruct c as [lv c|n|].
    + caller_moves Hwk. rewrite call_events_leveled by exact Hc. tidy_state.
      destruct (lvl >? lv) eqn:Hgate.
      * apply Hsilent; unfold inline; simpl; rewrite Hgate;
          [|destruct (Z.land fl Lblocking =? 0)]; reflexivity.
      * unfold admitted_trace.
        destruct (Z.land fl Lblocking =? 0) eqn:Hmode;
          destruct (has fl (Z.lor Lshortfile Llongfile)); cbn [app].
        -- do 6 caller_moves Hwk.
           destruct (Z_lt_dec (Z.of_nat (length q)) cp) as [Hroom|Hfull].
           ++ caller_sends Hwk. caller_moves Hwk.
              apply Hsend; [| |exact Hroom]; unfold inline; simpl;
                rewrite ?Hgate, Hmode; reflexivity.
           ++ apply Hblocked; [|lia]. simpl. rewrite Hgate, Hmode. reflexivity.
        -- do 3 caller_moves Hwk.
           destruct (Z_lt_dec (Z.of_nat (length q)) cp) as [Hroom|Hfull].
           ++ caller_sends Hwk. caller_moves Hwk.
              apply Hsend; [| |exact Hroom]; unfold inline; simpl;
                rewrite ?Hgate, Hmode; reflexivity.
           ++ apply Hblocked; [|lia]. simpl. rewrite Hgate, Hmode. reflexivity.
        -- do 8 caller_moves Hwk.
           apply Hsilent; unfold inline; simpl; rewrite ?Hgate, Hmode;
             rewrite ?orb_true_r; reflexivity.
        -- do 5 caller_moves Hwk.
           apply Hsilent; unfold inline; simpl; rewrite ?Hgate, Hmode;
             rewrite ?orb_true_r; reflexivity.
    + do 2 caller_moves Hwk.
      apply Hsilent; [reflexivity|]. unfold inline.
      destruct (Z.land fl Lblocking =? 0); reflexivity.
    + caller_moves Hwk.
      destruct (Z_lt_dec (Z.of_nat (length q)) cp) as [Hroom|Hfull].
      * caller_sends Hwk. caller_moves Hwk.
        apply Hsend; [reflexivity| |exact Hroom]. unfold inline.
        destruct (Z.land fl Lblocking =? 0); reflexivity.
      * apply Hblocked; [reflexivity|lia].
Qed.

End NoReceiverProofs.

(** The threshold is what the calls made so far have set. *)
Section Threshold.
Context {W T : Type} `{Writer W} `{TimeAPI T}.

Lemma threshold_snoc (lvl : Z) (cs : list (call T)) (c : call T) :
  threshold lvl (cs ++ [c]) = next_level (threshold lvl cs) c.
Proof. unfold threshold. now rewrite fold_left_app. Qed.

Lemma level_after_admitted (fl : Z) (line : bytes) (lvl : Z) :
  level_after (admitted_trace fl line) lvl = lvl.
Proof.
  unfold admitted_trace.
  destruct (has fl (Z.lor Lshortfile Llongfile)), (Z.land fl Lblocking =? 0); reflexivity.
Qed.

Lemma level_after_call (l : BasicLogger W) (c : call T) :
  wf_item c -> level_after (call_events l c) (level l) = next_level (level l) c.
Proof.
  intros Hc. destruct c as [lv c|n|]; [|reflexivity|reflexivity].
  rewrite call_events_leveled by exact Hc.
  destruct (level l >? lv); [reflexivity|apply level_after_admitted].
Qed.

Lemma tracked_moves (lvl : Z) (calls : list (call T)) (s s' : System W T) :
  tracked lvl calls s -> moves s s' -> tracked lvl calls s'.
Proof.
  intros (Hwf & past & Hcalls & Hlvl) [a Hstep].
  destruct s as [[lv0 fl wr [q cp] lk g] wk p t h cl cr]. simpl in *.
  unfold step in Hstep. simpl in Hstep. destruct cr; [discriminate Hstep|].
  destruct a.
  - unfold caller_step in Hstep. simpl in Hstep. destruct p as [|e p].
    + destruct t as [|c cs]; [discriminate Hstep|]. injection Hstep as <-.
      split; [exact (Forall_inv_tail Hwf)|]. exists (past ++ [c]). simpl. split.
      * rewrite <- app_assoc. exact Hcalls.
      * rewrite threshold_snoc, <- Hlvl.
        apply (level_after_call (MkLogger lv0 fl wr (Chan q cp) lk g) c (Forall_inv Hwf)).
    + assert (Hkeep : ∀ l' : BasicLogger W, level l' = lv0 ->
                (∀ n, level_after [e] n = n) ->
                tracked lvl calls (MkSystem l' wk p t h cl false)).
      { intros l' Hl' He. split; [exact Hwf|]. exists past. simpl.
        split; [exact Hcalls|]. rewrite Hl', <- Hlvl.
        change (level_after (e :: p) lv0) with (level_after p (level_after [e] lv0)).
        now rewrite He. }
      destruct e; simpl in Hstep;
        try (injection Hstep as <-; apply Hkeep; [reflexivity|intros n'; reflexivity]).
      * destruct lk; [discriminate Hstep|]. injection Hstep as <-.
        apply Hkeep; [reflexivity|intros n'; reflexivity].
      * destruct lk; injection Hstep as <-; (split; [exact Hwf|]); exists past;
          (split; [exact Hcalls|exact Hlvl]).
      * destruct (Z.of_nat (length q) <? cp); simpl in Hstep.
        -- injection Hstep as <-. apply Hkeep; [reflexivity|intros n'; reflexivity].
        -- destruct q; [|discriminate Hstep].
           destruct wk as [[|m'|]|]; try discriminate Hstep. injection Hstep as <-.
           split; [exact Hwf|]. exists past. split; [exact Hcalls|exact Hlvl].
      * injection Hstep as <-. split; [exact Hwf|]. exists past.
        split; [exact Hcalls|exact Hlvl].
      * destruct (g =? 0); [|discriminate Hstep]. injection Hstep as <-.
        split; [exact Hwf|]. exists past. split; [exact Hcalls|exact Hlvl].
  - unfold server in Hstep. simpl in Hstep.
    destruct wk as [[|m|]|]; try discriminate Hstep.
    + destruct q as [|m q]; [discriminate Hstep|]. injection Hstep as <-.
      split; [exact Hwf|]. exists past. split; [exact Hcalls|exact Hlvl].
    + destruct (cmd m =? write); [|destruct (g <=? 0)]; injection Hstep as <-;
        (split; [exact Hwf|]); exists past; (split; [exact Hcalls|exact Hlvl]).
Qed.

End Threshold.

(** Progress and a decreasing measure until a move leads to the goal. *)
Lemma inevitably_until {W T : Type} `{Writer W} `{TimeAPI T}
    (I P : System W T -> Prop) :
  (∀ s s', I s -> moves s s' ->
           (I s' ∧ (measure s' < measure s)%nat) ∨ inevitably P s') ->
  (∀ s, I s -> ∃ s', moves s s') ->
  ∀ s, I s -> inevitably P s.
Proof.
  intros Hstep Hprog s. remember (measure s) as n eqn:Hn. revert s Hn.
  induction n as [n IH] using lt_wf_ind. intros s -> Hs.
  apply inev_later; [exact (Hprog s Hs)|].
  intros s' Hs'. destruct (Hstep s s' Hs Hs') as [[HI Hlt]|Hinev]; [|exact Hinev].
  exact (IH (measure s') Hlt s' eq_refl HI).
Qed.

Section AfterClose.
Context {W T : Type} `{Writer W} `{TimeAPI T}.
Variables (w0 : W) (lvl fl cap : Z) (before after : list (call T)).
Hypothesis Hasync : Z.land fl Lblocking = 0.
Hypothesis Hcap : 0 <= cap.
Hypothesis Hbefore : Forall plain before.
Hypothesis Hafter : Forall wf_item after.

Local Abbreviation B := (script lvl fl before).
Local Abbreviation calls := (before ++ CClose :: after).

(** The state in which the first [Close] returns. *)
Lemma Close_returns_to (s s' : System W T) :
  Inv w0 fl cap B true after s -> tracked lvl calls s ->
  closed s = false -> moves s s' -> closed s' = true ->
  s' = MkSystem (MkLogger (threshold lvl before) fl
                          (writes w0 (records (B ++ [exit_command])))
                          (Chan [] cap) false 0)
                (Some WDone) [] after (B ++ [exit_command]) true false.
Proof.
  intros [(Hcr & Hfl & Hcp & Hwr & Hlk & Hwk) Hph] (_ & past & Hcalls & Hlvl)
         Hopen [a Hstep] Hcl.
  destruct s as [[lv0 fl' wr [q cp] lk g] wk p t h cl cr]. simpl in *.
  subst cr fl' cp cl. unfold step in Hstep. simpl in Hstep.
  destruct a.
  - unfold caller_step in Hstep. simpl in Hstep. destruct p as [|e p].
    + destruct t as [|c cs]; [discriminate Hstep|]. injection Hstep as <-.
      discriminate Hcl.
    + destruct e; simpl in Hstep;
        try (injection Hstep as <-; discriminate Hcl).
      * destruct lk; [discriminate Hstep|]. injection Hstep as <-. discriminate Hcl.
      * destruct lk; injection Hstep as <-; discriminate Hcl.
      * destruct (Z.of_nat (length q) <? cap); simpl in Hstep.
        -- injection Hstep as <-. discriminate Hcl.
        -- destruct q; [|discriminate Hstep].
           destruct wk as [[|m'|]|]; try discriminate Hstep. injection Hstep as <-.
           discriminate Hcl.
      * destruct (g =? 0) eqn:Hg; [|discriminate Hstep]. apply Z.eqb_eq in Hg. subst g.
        injection Hstep as <-. clear Hcl.
        destruct Hph as [tb Hcl Htodo Hplain Hcalm Heq|Hcl Hc Htodo Hp Heq
                         |Hcl Hc Htodo Hp Heq|Hcl Hc Hw Hq Ht]; simpl in *;
          try discriminate.
        injection Hp as ->. subst t.
        destruct wk as [[|m'|]|]; try (destruct Hwk; discriminate); try contradiction.
        destruct Hwk as [_ ->]. simpl in Heq.
        assert (q = []) as ->.
        { rewrite <- (app_nil_r (B ++ [exit_command])) in Heq at 2.
          now apply app_inv_head in Heq. }
        destruct lk; [discriminate Hlk|].
        assert (past = before ++ [CClose]) as ->.
        { apply (app_inv_tail after). rewrite <- Hcalls, <- app_assoc. reflexivity. }
        rewrite threshold_snoc in Hlvl. simpl in Hlvl. subst lv0. subst wr.
        reflexivity.
  - unfold server in Hstep. simpl in Hstep.
    destruct wk as [[|m|]|]; try discriminate Hstep.
    + destruct q as [|m q]; [discriminate Hstep|]. injection Hstep as <-.
      discriminate Hcl.
    + destruct (cmd m =? write); [|destruct (g <=? 0)]; injection Hstep as <-;
        discriminate Hcl.
Qed.

(** Every execution reaches the state in which the first [Close]
    returns. *)
Lemma after_Close (P : System W T -> Prop) :
  inevitably P (MkSystem (MkLogger (threshold lvl before) fl
                                   (writes w0 (records (B ++ [exit_command])))
                                   (Chan [] cap) false 0)
                         (Some WDone) [] after (B ++ [exit_command]) true false) ->
  inevitably P (MkSystem (MkLogger lvl fl w0 (Chan [] cap) false 1) (Some WIdle) []
                         calls [] false false).
Proof.
  intros Hgoal.
  pose proof (script_plain lvl fl _ Hbefore) as HB.
  apply (inevitably_until
           (fun s => Inv w0 fl cap B true after s ∧ tracked lvl calls s
                     ∧ closed s = false)).
  - intros s s' (Hinv & Htr & Hopen) Hmove.
    destruct (moves_preserve w0 fl cap B true after Hasync HB Hafter s s' Hinv Hmove)
      as [Hinv' Hlt].
    pose proof (tracked_moves lvl calls s s' Htr Hmove) as Htr'.
    destruct (closed s') eqn:Hcl; [right|left; auto].
    now rewrite (Close_returns_to s s' Hinv Htr Hopen Hmove Hcl).
  - intros s (Hinv & _ & Hopen).
    destruct (progress w0 fl cap B true after Hcap s Hinv Hopen) as [Hmove|[Hc _]];
      [exact Hmove|discriminate Hc].
  - split; [exact (Inv_start w0 lvl fl cap true before after Hbefore)|].
    split; [|reflexivity]. split.
    + simpl. apply Forall_app. split.
      * eapply Forall_impl; [exact Hbefore|]. intros [lv c|n|]; simpl; tauto.
      * constructor; [exact I|exact Hafter].
    + exists []. split; reflexivity.
Qed.

End AfterClose.

Section NoReceiverClaim.
Context {F W T : Type} `{Writer W} `{TimeAPI T}.

Lemma sync_lines_app (fl : Z) (b a : list (call T)) : ∀ lvl,
  sync_lines lvl fl (b ++ a) = sync_lines lvl fl b ++ sync_lines (threshold lvl b) fl a.
Proof.
  induction b as [|c b IH]; intros lvl; [reflexivity|].
  destruct c as [lv c|n|]; simpl; rewrite IH, ?app_assoc; reflexivity.
Qed.

(** In synchronous mode the plain calls send nothing. *)
Lemma sent_plain_sync (lvl fl : Z) (c : call T) :
  Z.land fl Lblocking ≠ 0 -> plain c -> sent lvl fl c = [].
Proof.
  intros Hfl Hc. apply Z.eqb_neq in Hfl.
  destruct c as [lv c|n|]; [|reflexivity|contradiction Hc].
  simpl. rewrite Hfl. now rewrite orb_true_r.
Qed.

Lemma returning_plain_sync (fl : Z) (room : nat) (b a : list (call T)) : ∀ lvl,
  Z.land fl Lblocking ≠ 0 -> Forall plain b ->
  returning room lvl fl (b ++ a) = b ++ returning room (threshold lvl b) fl a ∧
  ∀ r, outbox lvl fl (b ++ r) = outbox (threshold lvl b) fl r.
Proof.
  intros lvl Hfl Hb. revert lvl. induction Hb as [|c b Hc _ IH]; intros lvl;
    [split; reflexivity|].
  destruct (IH (next_level lvl c)) as [IH1 IH2]. simpl.
  rewrite (sent_plain_sync lvl fl c Hfl Hc). split; [now rewrite IH1|].
  intros r. now rewrite IH2.
Qed.

(** The end of [before ++ after] in synchronous mode, seen from the end
    of the plain calls [before]. *)
Lemma ends_in_after_plain (w : W) (lvl fl : Z) (room : nat)
    (before after : list (call T)) (s : System W T) :
  Z.land fl Lblocking ≠ 0 -> Forall plain before ->
  ends_in w [] lvl fl room (before ++ after) s ->
  ends_in (writes w (sync_lines lvl fl before)) [] (threshold lvl before) fl room
          after s.
Proof.
  intros Hfl Hb. unfold ends_in.
  destruct (returning_plain_sync fl room before after lvl Hfl Hb) as [Hret Hout].
  rewrite Hret, Hout. intros (Hrest & Hq & Hw & Hall & Hblock).
  split; [exact Hrest|]. split; [exact Hq|]. split; [|split].
  - rewrite Hw, <- writes_app. f_equal. unfold inline.
    pose proof Hfl as Hfl'. apply Z.eqb_neq in Hfl'. rewrite Hfl'.
    apply sync_lines_app.
  - intros Heq. apply Hall. now rewrite Heq.
  - intros Hne. destruct Hblock as (m & p & Hp & Ht).
    { intros Heq. apply app_inv_head in Heq. contradiction. }
    exists m, p. split; [exact Hp|]. rewrite Ht, length_app.
    rewrite <- Nat.add_succ_r. now rewrite drop_app_add.
Qed.

(** The records of the commands of plain calls are their lines. *)
Lemma records_script (fl : Z) (cs : list (call T)) : ∀ lvl,
  Forall plain cs -> records (script lvl fl cs) = sync_lines lvl fl cs.
Proof.
  intros lvl Hcs. revert lvl. induction Hcs as [|c cs Hc _ IH]; intros lvl;
    [reflexivity|].
  destruct c as [lv c|n|]; [| |contradiction Hc]; simpl.
  - destruct (lvl >? lv); simpl; [apply IH|].
    change (line_of fl lv c :: records (script lvl fl cs)
            = line_of fl lv c :: sync_lines lvl fl cs).
    f_equal. apply IH.
  - apply IH.
Qed.

(** All calls return exactly when their commands fit into the buffer. *)
Lemma returning_all (fl : Z) (cs : list (call T)) : ∀ (room : nat) (lvl : Z),
  returning room lvl fl cs = cs ↔ (length (outbox lvl fl cs) <= room)%nat.
Proof.
  induction cs as [|c cs IH]; intros room lvl; [simpl; split; [lia|reflexivity]|].
  cbn [returning outbox]. rewrite length_app.
  assert (Hone : sent lvl fl c = [] ∨ ∃ m, sent lvl fl c = [m]).
  { destruct c as [lv c|n|]; simpl; [|now left|right; eauto].
    destruct ((lvl >? lv) || negb (Z.land fl Lblocking =? 0)); [now left|right; eauto]. }
  destruct Hone as [->|[m ->]]; simpl.
  - rewrite <- IH. split; [intros Heq; now injection Heq|intros ->; reflexivity].
  - destruct room as [|room]; [split; [discriminate|lia]|].
    rewrite <- Nat.succ_le_mono, <- IH.
    split; [intros Heq; now injection Heq|intros ->; reflexivity].
Qed.

(** X12.  What becomes of calls that no goroutine receives: in
    synchronous mode [NewLogger] starts no server, [Close] tests no flag
    and sends all the same; in asynchronous mode the server is gone once
    the first [Close] has returned, and later calls of [Close] and leveled
    calls send all the same.  Let the caller make the plain calls
    [before], in asynchronous mode then [Close], and then the calls
    [after].  Every execution ends in a state in which no goroutine can
    move.  The calls of [after] return as long as their commands fit into
    the buffer: they return all exactly when they send at most
    [bufferSize] commands, and otherwise the caller stays forever in the
    send of the first call that found the buffer full.  The commands of
    the calls that returned stay in the channel, and the sink holds the
    lines of [before] and, in synchronous mode, of the calls of [after]
    that returned: in asynchronous mode no record of a call after [Close]
    is ever written.  (A Go runtime that finds every goroutine of the
    process asleep aborts the process; the blocked call does not return
    either way.) *)
Theorem calls_without_receiver (host : Host F W) (path : bytes) (lvl cap fl : Z)
    (before after : list (call T)) (s0 : System W T) :
  boot (NewLogger host path lvl cap fl)
       (before ++ (if Z.land fl Lblocking =? 0 then [CClose] else []) ++ after)
  = Some s0 ->
  Forall plain before -> Forall wf_item after ->
  (returning (Z.to_nat cap) (threshold lvl before) fl after = after
   ↔ Z.of_nat (length (outbox (threshold lvl before) fl after)) <= cap) ∧
  inevitably
    (fun s =>
       (∀ sched, run sched s = s) ∧
       queue (ch (logger s))
       = outbox (threshold lvl before) fl
           (returning (Z.to_nat cap) (threshold lvl before) fl after) ∧
       writer (logger s)
       = writes (writer (logger s0))
           (sync_lines lvl fl before
            ++ inline (threshold lvl before) fl
                 (returning (Z.to_nat cap) (threshold lvl before) fl after)) ∧
       (returning (Z.to_nat cap) (threshold lvl before) fl after = after ->
        pending s = [] ∧ todo s = []) ∧
       (returning (Z.to_nat cap) (threshold lvl before) fl after ≠ after ->
        ∃ m p, pending s = EvSend m :: p ∧
               todo s = drop (S (length (returning (Z.to_nat cap)
                                           (threshold lvl before) fl after))) after))
    s0.
Proof.
  intros Hboot Hbefore Hafter.
  destruct (boot_any host path lvl cap fl _ s0 Hboot) as [Hcap [w0 ->]].
  split; [rewrite returning_all; lia|].
  eapply (inevitably_mono
            (ends_in (writes w0 (sync_lines lvl fl before)) []
                     (threshold lvl before) fl (Z.to_nat cap) after)).
  { intros s (Hrest & Hq & Hw & Hall & Hblock). simpl writer.
    rewrite writes_app. auto. }
  destruct (Z.land fl Lblocking =? 0) eqn:Hmode.
  - apply Z.eqb_eq in Hmode. simpl app.
    apply (after_Close w0 lvl fl cap before after Hmode Hcap Hbefore Hafter).
    rewrite records_snoc, app_nil_r, records_script by exact Hbefore.
    pose proof (no_receiver_run after (threshold lvl before) fl
                  (writes w0 (sync_lines lvl fl before)) [] cap (Some WDone)
                  (script lvl fl before ++ [exit_command]) true
                  (or_intror eq_refl) Hafter Hcap) as Hrun.
    simpl length in Hrun. rewrite Z.sub_0_r in Hrun. exact Hrun.
  - apply Z.eqb_neq in Hmode. simpl app.
    eapply inevitably_mono;
      [intros s; apply (ends_in_after_plain w0 lvl fl (Z.to_nat cap) before after s
                          Hmode Hbefore)|].
    assert (Hall : Forall wf_item (before ++ after)).
    { apply Forall_app. split; [|exact Hafter].
      eapply Forall_impl; [exact Hbefore|]. intros [lv c|n|]; simpl; tauto. }
    pose proof (no_receiver_run (before ++ after) lvl fl w0 [] cap None [] false
                  (or_introl eq_refl) Hall Hcap) as Hrun.
    simpl length in Hrun. rewrite Z.sub_0_r in Hrun. exact Hrun.
Qed.

End NoReceiverClaim.

Lemma calls_without_receiver_witness :
  (returning (Z.to_nat 2) (threshold Info (leveled Sample.items)) LstdFlags Sample.late
   = Sample.late
   ↔ Z.of_nat (length (outbox (threshold Info (leveled Sample.items)) LstdFlags
                         Sample.late)) <= 2) ∧
  inevitably
    (fun s =>
       (∀ sched, run sched s = s) ∧
       queue (ch (logger s))
       = outbox (threshold Info (leveled Sample.items)) LstdFlags
           (returning (Z.to_nat 2) (threshold Info (leveled Sample.items)) LstdFlags
              Sample.late) ∧
       writer (logger s)
       = writes (writer (logger (Sample.started LstdFlags 2
                                   (leveled Sample.items ++ CClose :: Sample.late))))
           (sync_lines Info LstdFlags (leveled Sample.items)
            ++ inline (threshold Info (leveled Sample.items)) LstdFlags
                 (returning (Z.to_nat 2) (threshold Info (leveled Sample.items))
                    LstdFlags Sample.late)) ∧
       (returning (Z.to_nat 2) (threshold Info (leveled Sample.items)) LstdFlags
          Sample.late = Sample.late ->
        pending s = [] ∧ todo s = []) ∧
       (returning (Z.to_nat 2) (threshold Info (leveled Sample.items)) LstdFlags
          Sample.late ≠ Sample.late ->
        ∃ m p, pending s = EvSend m :: p ∧
               todo s = drop (S (length (returning (Z.to_nat 2)
                                           (threshold Info (leveled Sample.items))
                                           LstdFlags Sample.late))) Sample.late))
    (Sample.started LstdFlags 2 (leveled Sample.items ++ CClose :: Sample.late)).
Proof.
  apply (calls_without_receiver Sample.host (lit "/var/log/app.log") Info 2 LstdFlags
           (leveled Sample.items) Sample.late
           (Sample.started LstdFlags 2 (leveled Sample.items ++ CClose :: Sample.late))).
  - vm_compute. reflexivity.
  - cbv [leveled Sample.items map fst snd].
    repeat (apply List.Forall_cons; [apply utter_wf|]). apply List.Forall_nil.
  - unfold Sample.late.
    repeat (apply List.Forall_cons; [first [apply utter_wf|exact I]|]).
    apply List.Forall_nil.
Defined.
